(** * mail_backup: the synchronisation engine of [main.py] and the backfill
      pass of [migration_script.py], embedded and checked against the
      specification's testable properties.

    Conventions of the embedding.
    - A Python [str] is a [string] (a byte sequence); [strip] and [lower]
      are modelled on the ASCII range.
    - A message UID (a decimal [str] in the program, [TEXT] in the store,
      read back with [CAST(uid AS INTEGER)]) is the integer it denotes.
    - An SQLite table is the list of its rows in insertion (rowid) order;
      [fetchone] returns the first matching row.
    - No row is ever deleted, so an [AUTOINCREMENT] key is one more than
      the largest key present.
    - The IMAP client, the file system and the clock are outside the
      program: they are a [Capability], a world state with operations
      that may raise.  Statements on the store itself do not raise.
    - [saved_emails] is only appended to and never read or written
      out; console logging has no effect on the run.  Both are left
      out, except for the log lines kept as trace events. *)

From Stdlib Require Import List String Ascii ZArith Lia Bool Arith PeanoNat.
From Stdlib Require Import Sorting.Permutation Sorting.Sorted.
Import ListNotations.
Local Open Scope string_scope.
Local Open Scope list_scope.
Local Open Scope nat_scope.

Set Implicit Arguments.

(* ------------------------------------------------------------------ *)
(** ** Python string primitives *)

Module PyStr.

(** [str.isspace] on one ASCII character: TAB, LF, VT, FF, CR,
    FS, GS, RS, US and SPACE. *)
Definition is_space (c : ascii) : bool :=
  let n := nat_of_ascii c in
  ((9 <=? n) && (n <=? 13)) || ((28 <=? n) && (n <=? 32)).

Definition lower_char (c : ascii) : ascii :=
  let n := nat_of_ascii c in
  if (65 <=? n) && (n <=? 90) then ascii_of_nat (n + 32) else c.

(** [s.lower()] *)
Fixpoint lower (s : string) : string :=
  match s with
  | EmptyString => EmptyString
  | String c r => String (lower_char c) (lower r)
  end.

Definition upper_char (c : ascii) : ascii :=
  let n := nat_of_ascii c in
  if (97 <=? n) && (n <=? 122) then ascii_of_nat (n - 32) else c.

(** [s.upper()] *)
Fixpoint upper (s : string) : string :=
  match s with
  | EmptyString => EmptyString
  | String c r => String (upper_char c) (upper r)
  end.

Fixpoint lstrip (s : string) : string :=
  match s with
  | EmptyString => EmptyString
  | String c r => if is_space c then lstrip r else s
  end.

Fixpoint rstrip (s : string) : string :=
  match s with
  | EmptyString => EmptyString
  | String c r =>
      match rstrip r with
      | EmptyString => if is_space c then EmptyString else String c EmptyString
      | r' => String c r'
      end
  end.

(** [s.strip()] *)
Definition strip (s : string) : string := rstrip (lstrip s).

(** Truth value of a [str]: non-empty. *)
Definition truthy (s : string) : bool :=
  match s with EmptyString => false | _ => true end.

Definition is_delim (c : ascii) : bool :=
  (nat_of_ascii c =? 59) || (nat_of_ascii c =? 44).

(** [re.split(r'[;,]', s)]: the pieces between the delimiters, empty
    pieces included. *)
Fixpoint re_split (s : string) : list string :=
  match s with
  | EmptyString => [EmptyString]
  | String c r =>
      if is_delim c then EmptyString :: re_split r
      else match re_split r with
           | [] => [String c EmptyString]
           | p :: ps => String c p :: ps
           end
  end.

(** [sep.join(items)] *)
Fixpoint join (sep : string) (items : list string) : string :=
  match items with
  | [] => EmptyString
  | [x] => x
  | x :: rest => (x ++ sep ++ join sep rest)%string
  end.

(** The characters of a [str], as iteration over it yields them. *)
Fixpoint chars (s : string) : list string :=
  match s with
  | EmptyString => []
  | String c r => String c EmptyString :: chars r
  end.

End PyStr.

(* ------------------------------------------------------------------ *)
(** ** Recipient parsing ([main.py], [parse_recipients]) *)

(** What a message's [to], [cc] or [bcc] attribute may hold: [None], one
    delimited [str], a [list] of [str], or another sequence of [str]
    (a [tuple]). *)
Inductive recipients : Type :=
| RecNone
| RecStr (s : string)
| RecList (l : list string)
| RecTuple (l : list string).

(** [[e.strip() for e in re.split(r'[;,]', s) if e.strip()]] *)
Definition split_strip (s : string) : list string :=
  map PyStr.strip
      (filter (fun e => PyStr.truthy (PyStr.strip e)) (PyStr.re_split s)).

Definition rec_truthy (r : recipients) : bool :=
  match r with
  | RecNone => false
  | RecStr s => PyStr.truthy s
  | RecList l | RecTuple l => match l with [] => false | _ => true end
  end.

Definition parse_recipients (s : recipients) : list string :=
  if negb (rec_truthy s) then []
  else match s with
       | RecList l => flat_map split_strip l
       | RecStr s => split_strip s
       | _ => []
       end.

(** [x or []], then iterated by [", ".join]. *)
Definition rec_items (r : recipients) : list string :=
  if negb (rec_truthy r) then []
  else match r with
       | RecNone => []
       | RecStr s => PyStr.chars s
       | RecList l | RecTuple l => l
       end.

Definition join_recipients (r : recipients) : string :=
  PyStr.join ", " (rec_items r).

(* ------------------------------------------------------------------ *)
(** ** The persistent store ([init_db], [create_normalized_tables]) *)

Inductive role : Type := RFrom | RTo | RCc | RBcc.

Definition role_eqb (a b : role) : bool :=
  match a, b with
  | RFrom, RFrom | RTo, RTo | RCc, RCc | RBcc, RBcc => true
  | _, _ => false
  end.

(** A row of [downloaded_emails]; primary key [(uid, folder)]. *)
Record downloaded_row : Type := {
  d_uid : Z;
  d_folder : string;
  d_subject : string;
  d_sender : option string;
  d_recipients : option string;
  d_cc : option string;
  d_bcc : option string;
  d_date : string;
  d_body_text : string;
  d_body_html : string;
  d_attachment_dir : option string;
  d_message_id : option string
}.

(** A row of [email]; [email_pk] is the only key of the table. *)
Record email_row : Type := {
  e_pk : nat;
  e_uid : Z;
  e_folder : string;
  e_subject : string;
  e_date : string;
  e_body_text : string;
  e_body_html : string;
  e_attachment_dir : option string;
  e_message_id : option string
}.

Definition participant : Type := (nat * nat * role)%type.

Record store : Type := {
  downloaded_emails : list downloaded_row;
  folder_uidvalidity : list (string * Z);
  email_address : list (nat * string);
  email : list email_row;
  email_participant : list participant
}.

Definition empty_store : store :=
  {| downloaded_emails := []; folder_uidvalidity := []; email_address := [];
     email := []; email_participant := [] |}.

Definition participant_eqb (a b : participant) : bool :=
  let '(pk1, id1, r1) := a in
  let '(pk2, id2, r2) := b in
  (pk1 =? pk2) && (id1 =? id2) && role_eqb r1 r2.

(** The key an [AUTOINCREMENT] column gives the next row. *)
Definition next_key (keys : list nat) : nat := S (list_max keys).

Definition row_has_key (uid : Z) (folder : string) (r : downloaded_row) : bool :=
  (d_uid r =? uid)%Z && (d_folder r =? folder)%string.

(** [is_email_downloaded] *)
Definition is_email_downloaded (s : store) (uid : Z) (folder : string) : bool :=
  existsb (row_has_key uid folder) (downloaded_emails s).

(** [mark_email_downloaded]: [INSERT OR IGNORE] under the key
    [(uid, folder)]. *)
Definition mark_email_downloaded (s : store) (r : downloaded_row) : store :=
  if is_email_downloaded s (d_uid r) (d_folder r) then s
  else {| downloaded_emails := downloaded_emails s ++ [r];
          folder_uidvalidity := folder_uidvalidity s;
          email_address := email_address s;
          email := email s;
          email_participant := email_participant s |}.

Definition uids_of_folder (s : store) (folder : string) : list Z :=
  map d_uid (filter (fun r => (d_folder r =? folder)%string) (downloaded_emails s)).

(** [get_existing_uids] *)
Definition get_existing_uids (s : store) (folder : string) : list Z :=
  uids_of_folder s folder.

Definition max_list (l : list Z) : option Z :=
  match l with
  | [] => None
  | u :: r => Some (fold_left Z.max r u)
  end.

(** [get_max_uid]: [SELECT MAX(CAST(uid AS INTEGER)) ... WHERE folder = ?] *)
Definition get_max_uid (s : store) (folder : string) : option Z :=
  max_list (uids_of_folder s folder).

(** [get_uidvalidity] *)
Definition get_uidvalidity (s : store) (folder : string) : option Z :=
  match find (fun p => (fst p =? folder)%string) (folder_uidvalidity s) with
  | Some p => Some (snd p)
  | None => None
  end.

(** [set_uidvalidity]: [INSERT OR REPLACE] under the key [folder]. *)
Definition set_uidvalidity (s : store) (folder : string) (v : Z) : store :=
  {| downloaded_emails := downloaded_emails s;
     folder_uidvalidity :=
       filter (fun p => negb (fst p =? folder)%string) (folder_uidvalidity s)
       ++ [(folder, v)];
     email_address := email_address s;
     email := email s;
     email_participant := email_participant s |}.

(** [get_or_create_email_address]: [None], an empty address: no row;
    otherwise the identity of the trimmed, lowercased address, created
    when absent. *)
Definition get_or_create_email_address (s : store) (email_ : option string)
  : store * option nat :=
  match email_ with
  | None => (s, None)
  | Some e =>
      if negb (PyStr.truthy e) then (s, None)
      else
        let e := PyStr.lower (PyStr.strip e) in
        match find (fun p => (snd p =? e)%string) (email_address s) with
        | Some p => (s, Some (fst p))
        | None =>
            let id := next_key (map fst (email_address s)) in
            ({| downloaded_emails := downloaded_emails s;
                folder_uidvalidity := folder_uidvalidity s;
                email_address := email_address s ++ [(id, e)];
                email := email s;
                email_participant := email_participant s |}, Some id)
        end
  end.

(** [INSERT OR IGNORE INTO email_participant]: the triple is the key. *)
Definition insert_participant (s : store) (p : participant) : store :=
  if existsb (participant_eqb p) (email_participant s) then s
  else {| downloaded_emails := downloaded_emails s;
          folder_uidvalidity := folder_uidvalidity s;
          email_address := email_address s;
          email := email s;
          email_participant := email_participant s ++ [p] |}.

(** [add_participant]; [if email_id:] is false for [None] and for [0]. *)
Definition add_participant (s : store) (email_pk : nat)
           (email_addr : option string) (r : role) : store :=
  match get_or_create_email_address s email_addr with
  | (s1, Some email_id) =>
      if email_id =? 0 then s1 else insert_participant s1 (email_pk, email_id, r)
  | (s1, None) => s1
  end.

(** [for a in addrs: add_participant(conn, email_pk, a, role)] *)
Definition add_participants (s : store) (email_pk : nat)
           (addrs : list string) (r : role) : store :=
  fold_left (fun acc a => add_participant acc email_pk (Some a) r) addrs s.

(** SQL [column = ?] on a nullable column: false when either side is
    [NULL]. *)
Definition sql_eq_opt (col param : option string) : bool :=
  match col, param with
  | Some a, Some b => (a =? b)%string
  | _, _ => false
  end.

(** The [INSERT OR IGNORE INTO email]: the table has no uniqueness
    constraint besides the fresh [email_pk], so it always adds a row. *)
Definition insert_email (s : store) (uid : Z) (folder subject date body_text
           body_html : string) (attachment_dir message_id : option string) : store :=
  {| downloaded_emails := downloaded_emails s;
     folder_uidvalidity := folder_uidvalidity s;
     email_address := email_address s;
     email := email s ++
       [{| e_pk := next_key (map e_pk (email s)); e_uid := uid; e_folder := folder;
           e_subject := subject; e_date := date; e_body_text := body_text;
           e_body_html := body_html; e_attachment_dir := attachment_dir;
           e_message_id := message_id |}];
     email_participant := email_participant s |}.

(** [get_or_create_email] of [main.py]: the insert, then
    [SELECT email_pk ... WHERE uid = ? AND folder = ? AND message_id = ?]
    and [fetchone()]; [None] when no row matches (the caller's [[0]]
    then raises). *)
Definition get_or_create_email (s : store) (uid : Z) (folder subject date
           body_text body_html : string) (attachment_dir message_id : option string)
  : store * option nat :=
  let s1 := insert_email s uid folder subject date body_text body_html
                         attachment_dir message_id in
  (s1,
   match find (fun e => (e_uid e =? uid)%Z && (e_folder e =? folder)%string
                        && sql_eq_opt (e_message_id e) message_id) (email s1) with
   | Some e => Some (e_pk e)
   | None => None
   end).

(* ------------------------------------------------------------------ *)
(** ** Messages and the external collaborators *)

(** An attachment of a message, as [extract_email_data] reads it. *)
Record attachment : Type := {
  filename : string;
  content_type : string;
  payload : string
}.

(** A parsed message as the mail capability hands it over.  [headers]
    is the header dictionary in key order; a value is [None] or the
    text [str(value)] gives. *)
Record message : Type := {
  uid : Z;
  subject : string;
  from_ : string;
  to : recipients;
  cc : recipients;
  bcc : recipients;
  date : string;
  text : string;
  html : string;
  msg_attachments : list attachment;
  headers : list (string * option string)
}.

(** The fetch predicates the program issues: [AND(all=True)],
    [AND(uid="n:*")] and [AND(uid=batch)]. *)
Inductive criterion : Type :=
| CAll
| CUidFrom (n : Z)
| CUidList (l : list Z).

Inductive exn : Type :=
| RuntimeError
| TypeError
| ValueError
| StopIteration
| OtherError.

Inductive result (A : Type) : Type :=
| Ok (a : A)
| Raise (e : exn).
Arguments Ok {A} a.
Arguments Raise {A} e.

(** The collaborators of spec section 6, each call taking the world to
    its answer (or an exception) and the next world.  [fetch] and
    [folder_status] name the folder selected by the [folder_set] that
    precedes them in the program; [save_attachments] is the file-system
    part of [extract_email_data] (the directory and the files of a
    message that has attachments), answering with the paths written. *)
Record Capability : Type := {
  World : Type;
  login : World -> result unit * World;
  folder_list : World -> result (list string) * World;
  folder_set : string -> World -> result unit * World;
  folder_status : string -> World -> result (list (string * Z)) * World;
  fetch : string -> criterion -> World -> result (list message) * World;
  save_attachments : message -> Z -> string -> World -> result (list string) * World
}.

(** What a run leaves to be observed besides the store: fetch requests,
    the log lines at the start and at the failure of a folder attempt,
    the back-off, [error.log] entries and the outcome lines of the
    end-of-run retry. *)
Inductive event : Type :=
| EvFetch (folder : string) (c : criterion)
| EvAttempt (folder : string) (attempt : nat)
| EvAttemptFailed (folder : string) (attempt : nat)
| EvSleep (seconds : nat)
| EvLogError (u : Z) (folder : string)
| EvRetryOk (u : Z) (folder : string)
| EvRetryFailed (u : Z) (folder : string).

(** [extract_email_data]'s result, as far as the program reads it. *)
Record email_data : Type := {
  attachments : list string;
  message_id : option string
}.

(** The [Message-ID] header: the first key equal to ["message-id"] when
    lowercased decides. *)
Definition header_message_id (m : message) : option string :=
  match find (fun kv => (PyStr.lower (fst kv) =? "message-id")%string) (headers m) with
  | Some kv => snd kv
  | None => None
  end.

(** [split_into_batches]; [range] with step 0 raises [ValueError]. *)
Fixpoint chunks (fuel : nat) (n : nat) (l : list Z) : list (list Z) :=
  match fuel with
  | 0 => []
  | S fuel' =>
      match l with
      | [] => []
      | _ => firstn n l :: chunks fuel' n (skipn n l)
      end
  end.

Definition split_into_batches (uids : list Z) (batch_size : nat)
  : result (list (list Z)) :=
  match batch_size with
  | 0 => Raise ValueError
  | _ => Ok (chunks (List.length uids) batch_size uids)
  end.

(** The value under the first key of the status dictionary that reads
    ["UIDVALIDITY"] when uppercased; [None] when there is none. *)
Definition status_uidvalidity (status : list (string * Z)) : option Z :=
  match find (fun kv => (PyStr.upper (fst kv) =? "UIDVALIDITY")%string) status with
  | Some kv => Some (snd kv)
  | None => None
  end.

Definition skip_folders : list string :=
  ["[gmail]/spam"; "[gmail]/trash"; "inbox.spam"; "inbox.trash"; "junk"; "trash"].

Definition in_skip_folders (folder : string) : bool :=
  existsb (String.eqb (PyStr.lower folder)) skip_folders.

Definition mem_uid (u : Z) (l : list Z) : bool := existsb (Z.eqb u) l.

Definition first_attachment (d : email_data) : option string :=
  match attachments d with
  | [] => None
  | p :: _ => Some p
  end.

(** The row [main] hands to [mark_email_downloaded] for a message. *)
Definition downloaded_of (u : Z) (folder : string) (m : message) (d : email_data)
  : downloaded_row :=
  {| d_uid := u; d_folder := folder; d_subject := subject m;
     d_sender := Some (from_ m);
     d_recipients := Some (join_recipients (to m));
     d_cc := Some (join_recipients (cc m));
     d_bcc := Some (join_recipients (bcc m));
     d_date := date m; d_body_text := text m; d_body_html := html m;
     d_attachment_dir := first_attachment d;
     d_message_id := message_id d |}.

(* ------------------------------------------------------------------ *)
(** ** The sync run ([main.py], [main]) *)

Section Sync.

Context (C : Capability).

(** The run's mutable state: the store connection, the world, the
    module-level [failed_emails] list, [failed_folders], and the trace
    of observable events. *)
Record state : Type := {
  conn : store;
  world : World C;
  failed_emails : list (Z * string);
  failed_folders : list string;
  trace : list event
}.

Definition set_conn (st : state) (s : store) : state :=
  {| conn := s; world := world st; failed_emails := failed_emails st;
     failed_folders := failed_folders st; trace := trace st |}.

Definition set_world (st : state) (w : World C) : state :=
  {| conn := conn st; world := w; failed_emails := failed_emails st;
     failed_folders := failed_folders st; trace := trace st |}.

Definition emit (ev : event) (st : state) : state :=
  {| conn := conn st; world := world st; failed_emails := failed_emails st;
     failed_folders := failed_folders st; trace := trace st ++ [ev] |}.

(** A computation that may raise; writes made before the exception
    stay (every store write is committed at once). *)
Definition M (A : Type) : Type := state -> result A * state.

Definition ret {A} (a : A) : M A := fun st => (Ok a, st).

Definition bind {A B} (m : M A) (k : A -> M B) : M B :=
  fun st =>
    match m st with
    | (Ok a, st1) => k a st1
    | (Raise e, st1) => (Raise e, st1)
    end.

Definition raise {A} (e : exn) : M A := fun st => (Raise e, st).

(** A call to a collaborator. *)
Definition call {A} (op : World C -> result A * World C) : M A :=
  fun st => let (r, w) := op (world st) in (r, set_world st w).

Definition lift_result {A} (r : result A) : M A := fun st => (r, st).

Definition tell (ev : event) : M unit := fun st => (Ok tt, emit ev st).

Definition update_conn (f : store -> store) : M unit :=
  fun st => (Ok tt, set_conn st (f (conn st))).

End Sync.

Arguments ret {C A} a.
Arguments raise {C A} e.
Arguments tell {C} ev.
Arguments update_conn {C} f.
Arguments lift_result {C A} r.

Declare Scope sync_scope.
Delimit Scope sync_scope with sync.
Notation "x <- m ;; k" := (bind m (fun x => k))
  (at level 61, m at next level, right associativity) : sync_scope.
Notation "m ;;; k" := (bind m (fun _ => k))
  (at level 61, right associativity) : sync_scope.

Unset Implicit Arguments.

Section SyncRun.

Context (C : Capability).
Local Open Scope sync_scope.

Definition fetch_m (folder : string) (c : criterion) : M C (list message) :=
  tell (EvFetch folder c) ;;; call (fetch C folder c).

(** [extract_email_data]: the attachments, if any, are written first;
    the [Message-ID] header is read afterwards. *)
Definition extract_email_data (msg : message) (u : Z) (folder : string)
  : M C email_data :=
  attachment_paths <-
    match msg_attachments msg with
    | [] => ret []
    | _ => call (save_attachments C msg u folder)
    end ;;
  ret {| attachments := attachment_paths; message_id := header_message_id msg |}.

(** [log_error]: an [error.log] entry, and the pair is appended to the
    module-level [failed_emails]. *)
Definition log_error (u : Z) (folder : string) (st : state C) : state C :=
  {| conn := conn st; world := world st;
     failed_emails := failed_emails st ++ [(u, folder)];
     failed_folders := failed_folders st;
     trace := trace st ++ [EvLogError u folder] |}.

(** [get_or_create_email(...)] as called: [fetchone()[0]] raises
    [TypeError] when no row matched; the inserted row stays. *)
Definition get_or_create_email_m (u : Z) (folder : string) (msg : message)
           (d : email_data) : M C nat :=
  fun st =>
    let (s1, r) := get_or_create_email (conn st) u folder (subject msg) (date msg)
                     (text msg) (html msg) (first_attachment d) (message_id d) in
    match r with
    | Some pk => (Ok pk, set_conn st s1)
    | None => (Raise TypeError, set_conn st s1)
    end.

(** The sender and the three recipient loops of [main]. *)
Definition link_participants (s : store) (email_pk : nat) (msg : message) : store :=
  let s := add_participant s email_pk (Some (from_ msg)) RFrom in
  let s := add_participants s email_pk (parse_recipients (to msg)) RTo in
  let s := add_participants s email_pk (parse_recipients (cc msg)) RCc in
  add_participants s email_pk (parse_recipients (bcc msg)) RBcc.

(** The body of the per-message [try] of the main pass. *)
Definition process_message (folder : string) (msg : message) : M C unit :=
  let u := uid msg in
  d <- extract_email_data msg u folder ;;
  update_conn (fun s => mark_email_downloaded s (downloaded_of u folder msg d)) ;;;
  email_pk <- get_or_create_email_m u folder msg d ;;
  update_conn (fun s => link_participants s email_pk msg).

(** [for msg in messages:] with its [try]/[except Exception]. *)
Fixpoint message_loop (folder : string) (existing_uids : list Z)
         (messages : list message) (st : state C) : state C :=
  match messages with
  | [] => st
  | msg :: rest =>
      if mem_uid (uid msg) existing_uids then
        message_loop folder existing_uids rest st
      else
        match process_message folder msg st with
        | (Ok _, st1) => message_loop folder existing_uids rest st1
        | (Raise _, st1) =>
            message_loop folder existing_uids rest (log_error (uid msg) folder st1)
        end
  end.

(** [for batch in uid_batches:] *)
Fixpoint batch_loop (folder : string) (existing_uids : list Z)
         (uid_batches : list (list Z)) : M C unit :=
  match uid_batches with
  | [] => ret tt
  | batch :: rest =>
      if forallb (fun u => mem_uid u existing_uids) batch then
        batch_loop folder existing_uids rest
      else
        messages <- fetch_m folder (CUidList batch) ;;
        (fun st => (Ok tt, message_loop folder existing_uids messages st)) ;;;
        batch_loop folder existing_uids rest
  end.

Definition fetch_criterion (max_uid : option Z) : criterion :=
  match max_uid with
  | Some m => CUidFrom (m + 1)
  | None => CAll
  end.

(** The body of the [try] inside [while attempt < retry_limit].
    [log_missing_uids] only reads the store and writes a log file; it
    is left out. *)
Definition folder_attempt (folder : string) (attempt : nat) : M C unit :=
  tell (EvAttempt folder attempt) ;;;
  call (folder_set C folder) ;;;
  (fun st =>
     (msgs <- fetch_m folder (fetch_criterion (get_max_uid (conn st) folder)) ;;
      (fun st1 =>
         let all_uids := map uid msgs in
         let existing_uids := get_existing_uids (conn st1) folder in
         (uid_batches <- lift_result (split_into_batches all_uids 10) ;;
          batch_loop folder existing_uids uid_batches) st1)) st).

Definition record_failed_folder (folder : string) (st : state C) : state C :=
  {| conn := conn st; world := world st; failed_emails := failed_emails st;
     failed_folders := failed_folders st ++ [folder]; trace := trace st |}.

(** [while attempt < retry_limit:]; [fuel] bounds the iterations. *)
Fixpoint while_attempts (fuel retry_limit attempt : nat) (folder : string)
         (st : state C) : state C :=
  match fuel with
  | 0 => st
  | S fuel' =>
      if attempt <? retry_limit then
        let attempt := attempt + 1 in
        match folder_attempt folder attempt st with
        | (Ok _, st1) => st1
        | (Raise _, st1) =>
            let st2 := emit (EvAttemptFailed folder attempt) st1 in
            if attempt =? retry_limit then
              while_attempts fuel' retry_limit attempt folder
                             (record_failed_folder folder st2)
            else
              while_attempts fuel' retry_limit attempt folder (emit (EvSleep 5) st2)
        end
      else st
  end.

Definition retry_limit : nat := 3.

(** [ensure_folder_and_uidvalidity] *)
Definition ensure_folder_and_uidvalidity (folder : string) : M C unit :=
  call (folder_set C folder) ;;;
  status <- call (folder_status C folder) ;;
  match status_uidvalidity status with
  | None => raise RuntimeError
  | Some current_uidvalidity =>
      fun st =>
        match get_uidvalidity (conn st) folder with
        | Some stored_uidvalidity =>
            if negb (stored_uidvalidity =? current_uidvalidity)%Z
            then (Raise RuntimeError, st)
            else (Ok tt, st)
        | None =>
            (Ok tt, set_conn st (set_uidvalidity (conn st) folder current_uidvalidity))
        end
  end.

Inductive loop_exit : Type := LoopDone | LoopBreak.

(** [for folder in folders_to_process:]; a [RuntimeError] of the
    validity check breaks the loop, any other exception of it leaves
    the loop raised. *)
Fixpoint folder_loop (folders : list string) : M C loop_exit :=
  match folders with
  | [] => ret LoopDone
  | folder :: rest =>
      if in_skip_folders folder then folder_loop rest
      else
        fun st =>
          match ensure_folder_and_uidvalidity folder st with
          | (Ok _, st1) =>
              folder_loop rest
                (while_attempts (S retry_limit) retry_limit 0 folder st1)
          | (Raise RuntimeError, st1) => (Ok LoopBreak, st1)
          | (Raise e, st1) => (Raise e, st1)
          end
  end.

(** The [with MailBox(...).login(...)] block. *)
Definition main_pass : M C loop_exit :=
  call (login C) ;;;
  folders_to_process <- call (folder_list C) ;;
  folder_loop folders_to_process.

(** The body of the [try] of the end-of-run retry. *)
Definition retry_body (u : Z) (folder : string) : M C unit :=
  call (login C) ;;;
  call (folder_set C folder) ;;;
  msgs <- fetch_m folder (CUidList [u]) ;;
  match msgs with
  | [] => raise StopIteration
  | msg :: _ =>
      d <- extract_email_data msg u folder ;;
      update_conn (fun s => mark_email_downloaded s (downloaded_of u folder msg d)) ;;;
      tell (EvRetryOk u folder)
  end.

Definition retry_one (u : Z) (folder : string) (st : state C) : state C :=
  match retry_body u folder st with
  | (Ok _, st1) => st1
  | (Raise _, st1) => log_error u folder (emit (EvRetryFailed u folder) st1)
  end.

(** [for uid, folder in failed_emails:]: the iterator holds a position
    [i] into the list object itself, which [log_error] may extend
    while the loop runs.  The boolean tells whether the loop ended
    within [fuel] iterations. *)
Fixpoint retry_loop (fuel i : nat) (st : state C) : state C * bool :=
  match nth_error (failed_emails st) i with
  | None => (st, true)
  | Some (u, folder) =>
      match fuel with
      | 0 => (st, false)
      | S fuel' => retry_loop fuel' (S i) (retry_one u folder st)
      end
  end.

Inductive outcome : Type :=
| ConnectionFailed
| Completed (e : loop_exit)
| StillRetrying.

Definition initial_state (db : store) (w : World C) : state C :=
  {| conn := db; world := w; failed_emails := []; failed_folders := [];
     trace := [] |}.

(** [main]: the main pass, then the retry of [failed_emails]; an
    exception that leaves the main pass is reported as a failed initial
    connection and the function returns at once. *)
Definition main (fuel : nat) (db : store) (w : World C) : outcome * state C :=
  match main_pass (initial_state db w) with
  | (Raise _, st1) => (ConnectionFailed, st1)
  | (Ok e, st1) =>
      let (st2, finished) := retry_loop fuel 0 st1 in
      (if finished then Completed e else StillRetrying, st2)
  end.

End SyncRun.

(* ------------------------------------------------------------------ *)
(** ** Helpers of [main.py] around the fetch *)

(** [str.replace] of one character by another. *)
Fixpoint replace_char (old new : ascii) (s : string) : string :=
  match s with
  | EmptyString => EmptyString
  | String c r =>
      String (if Ascii.eqb c old then new else c) (replace_char old new r)
  end.

(** [log_missing_uids]: the UIDs of [all_uids] that have no raw row
    under [folder], written one per line to a file named after the
    folder; nothing is written when none is missing. *)
Definition log_missing_uids (s : store) (folder : string) (all_uids : list Z)
  : option (string * list Z) :=
  let existing_uids := uids_of_folder s folder in
  let missing_uids := filter (fun u => negb (mem_uid u existing_uids)) all_uids in
  match missing_uids with
  | [] => None
  | _ =>
      Some (("missing_uids_"
               ++ replace_char " " "_" (replace_char "/" "_" folder) ++ ".log")%string,
            missing_uids)
  end.

(** [min(uids)] and [max(uids)] of a non-empty list. *)
Definition min_list (l : list Z) : option Z :=
  match l with
  | [] => None
  | u :: r => Some (fold_left Z.min r u)
  end.

(** [get_uid_range] *)
Definition get_uid_range (C : Capability) (folder : string) : M C (Z * Z) :=
  (call (folder_set C folder) ;;;
   msgs <- fetch_m C folder CAll ;;
   let uids := map uid msgs in
   ret (match min_list uids, max_list uids with
        | Some lo, Some hi => (lo, hi)
        | _, _ => (0%Z, 0%Z)
        end))%sync.

(** [sorted] on integers. *)
Fixpoint insert_sorted (u : Z) (l : list Z) : list Z :=
  match l with
  | [] => [u]
  | v :: r => if (u <=? v)%Z then u :: l else v :: insert_sorted u r
  end.

Definition sorted (l : list Z) : list Z := fold_right insert_sorted [] l.

(** [fetch_uids_in_batches] *)
Definition fetch_uids_in_batches (C : Capability) (folder : string) (batch_size : nat)
  : M C (list (list Z)) :=
  (call (folder_set C folder) ;;;
   msgs <- fetch_m C folder CAll ;;
   let uids := sorted (map uid msgs) in
   lift_result (split_into_batches uids batch_size))%sync.

(* ------------------------------------------------------------------ *)
(** ** The backfill pass ([migration_script.py]) *)

(** [Migration] gives what the statements of the script do to the
    tables when every commit goes through.  The script with its
    [safe_commit] calls, on a connection whose commits may fail, is
    [Script] below; a run of [Script.main] that returns has done what
    [Migration.main] does. *)
Module Migration.

(** [get_or_create_email(conn, row)]: the same [INSERT OR IGNORE] into
    the key-less [email] table ([message_id] is not among the columns
    written), then [SELECT email_pk ... WHERE uid = ? AND folder = ?]. *)
Definition get_or_create_email (s : store) (row : downloaded_row)
  : store * option nat :=
  let s1 := insert_email s (d_uid row) (d_folder row) (d_subject row) (d_date row)
              (d_body_text row) (d_body_html row) (d_attachment_dir row) None in
  (s1,
   match find (fun e => (e_uid e =? d_uid row)%Z && (e_folder e =? d_folder row)%string)
              (email s1) with
   | Some e => Some (e_pk e)
   | None => None
   end).

(** [parse_recipients] of the script: a nullable delimited [str];
    pieces trimmed and lowercased. *)
Definition parse_recipients (s : option string) : list string :=
  match s with
  | None => []
  | Some s =>
      if negb (PyStr.truthy s) then []
      else map (fun e => PyStr.lower (PyStr.strip e))
               (filter (fun e => PyStr.truthy (PyStr.strip e)) (PyStr.re_split s))
  end.

(** One iteration of [for row in rows:].  The script's
    [get_or_create_email_address] and its guarded
    [INSERT OR IGNORE INTO email_participant] are the statements of
    [add_participant]. *)
Definition migrate_row (s : store) (row : downloaded_row) : result store :=
  match get_or_create_email s row with
  | (s1, None) => Raise TypeError
  | (s1, Some email_pk) =>
      let s2 := add_participant s1 email_pk (d_sender row) RFrom in
      let s3 := add_participants s2 email_pk (parse_recipients (d_recipients row)) RTo in
      let s4 := add_participants s3 email_pk (parse_recipients (d_cc row)) RCc in
      Ok (add_participants s4 email_pk (parse_recipients (d_bcc row)) RBcc)
  end.

Fixpoint migrate_rows (rows : list downloaded_row) (s : store) : result store :=
  match rows with
  | [] => Ok s
  | row :: rest =>
      match migrate_row s row with
      | Ok s1 => migrate_rows rest s1
      | Raise e => Raise e
      end
  end.

(** [main]: [rows] is the result of [SELECT * FROM downloaded_emails],
    read once before the loop. *)
Definition main (s : store) : result store :=
  migrate_rows (downloaded_emails s) s.

End Migration.

(* ------------------------------------------------------------------ *)
(** ** [safe_commit] of [migration_script.py] *)

Inductive commit_error : Type :=
| OperationalError (msg : string)
| OtherCommitError.

Inductive commit_event : Type :=
| EvCommit
| EvCommitSleep (seconds : nat).

Inductive safe_commit_outcome : Type :=
| CommitDone
| CommitGaveUp
| CommitReraised (e : commit_error).

(** ["database is locked" in str(e).lower()] *)
Definition database_is_locked (msg : string) : bool :=
  match String.index 0 "database is locked" (PyStr.lower msg) with
  | Some _ => true
  | None => false
  end.

Section SafeCommit.

(** The connection, and what [conn.commit()] does to it: it returns
    or raises. *)
Variable Conn : Type.
Variable commit : Conn -> option commit_error * Conn.

(** [for i in range(retries):] with [attempts_left] iterations to go;
    falling out of the loop raises [RuntimeError]. *)
Fixpoint safe_commit_loop (attempts_left wait : nat) (conn : Conn)
         (log : list commit_event) : safe_commit_outcome * Conn * list commit_event :=
  match attempts_left with
  | 0 => (CommitGaveUp, conn, log)
  | S n =>
      match commit conn with
      | (None, conn1) => (CommitDone, conn1, log ++ [EvCommit])
      | (Some (OperationalError msg), conn1) =>
          if database_is_locked msg then
            safe_commit_loop n wait conn1 (log ++ [EvCommit; EvCommitSleep wait])
          else (CommitReraised (OperationalError msg), conn1, log ++ [EvCommit])
      | (Some e, conn1) => (CommitReraised e, conn1, log ++ [EvCommit])
      end
  end.

(** [safe_commit(conn, retries, wait)]; a negative [retries] gives an
    empty [range]. *)
Definition safe_commit (retries : Z) (wait : nat) (conn : Conn)
  : safe_commit_outcome * Conn * list commit_event :=
  safe_commit_loop (Z.to_nat retries) wait conn [].

(** The connection after [k] calls of [conn.commit()]. *)
Fixpoint after_commits (k : nat) (conn : Conn) : Conn :=
  match k with
  | 0 => conn
  | S k' => after_commits k' (snd (commit conn))
  end.

(** [k] rounds of a commit that found the database locked. *)
Definition locked_rounds (k wait : nat) : list commit_event :=
  List.concat (repeat [EvCommit; EvCommitSleep wait] k).

Definition is_lock_error (e : commit_error) : bool :=
  match e with
  | OperationalError msg => database_is_locked msg
  | OtherCommitError => false
  end.

End SafeCommit.

(** The first [k] commits, counted from [conn], all found the database
    locked. *)
Definition all_locked (Conn : Type) (commit : Conn -> option commit_error * Conn)
           (k : nat) (conn : Conn) : Prop :=
  forall i, i < k ->
    exists msg,
      fst (commit (after_commits Conn commit i conn)) = Some (OperationalError msg)
      /\ database_is_locked msg = true.

(* ------------------------------------------------------------------ *)
(** ** [migration_script.py] with its commits *)

(** [Migration] above gives what the script's statements do to the
    tables.  Here the script is modelled with every [safe_commit] call
    in its place, on a connection whose commits may fail; the
    statements themselves go through, as they do in the model of
    [main.py]. *)
Module Script.

(** The connection: [view] is what the script's own statements see
    and have written so far, [durable] what the last successful commit
    made permanent, [lock_world] whatever decides if a commit finds
    the database locked; [commits] logs the commits and the sleeps. *)
Record session (W : Type) : Type := {
  view : store;
  durable : store;
  lock_world : W;
  commits : list commit_event
}.

Arguments view {W} _.
Arguments durable {W} _.
Arguments lock_world {W} _.
Arguments commits {W} _.

Section WithCommit.

Variable W : Type.

(** What a commit finds: it goes through, or raises. *)
Variable commit_op : W -> option commit_error * W.

Definition SM (A : Type) : Type := session W -> result A * session W.

Definition ret {A} (a : A) : SM A := fun c => (Ok a, c).

Definition bind {A B} (m : SM A) (k : A -> SM B) : SM B :=
  fun c =>
    match m c with
    | (Ok a, c1) => k a c1
    | (Raise e, c1) => (Raise e, c1)
    end.

Local Notation "x <- m ;; k" := (bind m (fun x => k))
  (at level 61, m at next level, right associativity).
Local Notation "m ;;; k" := (bind m (fun _ => k))
  (at level 61, right associativity).

(** [sqlite3.connect(DB_FILE)] on a database file holding [s]. *)
Definition connect (s : store) (w : W) : session W :=
  {| view := s; durable := s; lock_world := w; commits := [] |}.

(** A statement of the script that writes. *)
Definition execute (f : store -> store) : SM unit :=
  fun c =>
    (Ok tt, {| view := f (view c); durable := durable c;
               lock_world := lock_world c; commits := commits c |}).

(** [conn.commit()]: when it goes through, what the connection has
    written becomes permanent. *)
Definition commit (c : session W) : option commit_error * session W :=
  match commit_op (lock_world c) with
  | (None, w) =>
      (None, {| view := view c; durable := view c; lock_world := w;
                commits := commits c |})
  | (Some e, w) =>
      (Some e, {| view := view c; durable := durable c; lock_world := w;
                  commits := commits c |})
  end.

(** [safe_commit(conn)], with [retries=10] and [wait=2]: giving up is
    a [RuntimeError], an error passed on is one of [sqlite3]'s. *)
Definition safe_commit_call : SM unit :=
  fun c =>
    let '(outcome, c1, log) := safe_commit (session W) commit 10 2 c in
    let c2 := {| view := view c1; durable := durable c1;
                 lock_world := lock_world c1; commits := commits c1 ++ log |} in
    match outcome with
    | CommitDone => (Ok tt, c2)
    | CommitGaveUp => (Raise RuntimeError, c2)
    | CommitReraised _ => (Raise OtherError, c2)
    end.

(** [create_tables]: the tables of the model are there already. *)
Definition create_tables : SM unit := safe_commit_call.

(** [get_or_create_email_address] of the script. *)
Definition get_or_create_email_address (email_ : option string) : SM (option nat) :=
  match email_ with
  | None => ret None
  | Some e =>
      if negb (PyStr.truthy e) then ret None
      else
        let e := PyStr.lower (PyStr.strip e) in
        fun c =>
          match find (fun p => (snd p =? e)%string) (email_address (view c)) with
          | Some p => (Ok (Some (fst p)), c)
          | None =>
              let id := next_key (map fst (email_address (view c))) in
              (execute (fun s =>
                 {| downloaded_emails := downloaded_emails s;
                    folder_uidvalidity := folder_uidvalidity s;
                    email_address := email_address s ++ [(id, e)];
                    email := email s;
                    email_participant := email_participant s |}) ;;;
               safe_commit_call ;;;
               ret (Some id)) c
          end
  end.

(** [get_or_create_email] of the script. *)
Definition get_or_create_email (row : downloaded_row) : SM nat :=
  execute (fun s =>
    insert_email s (d_uid row) (d_folder row) (d_subject row) (d_date row)
                 (d_body_text row) (d_body_html row) (d_attachment_dir row) None) ;;;
  safe_commit_call ;;;
  fun c =>
    match find (fun e => (e_uid e =? d_uid row)%Z && (e_folder e =? d_folder row)%string)
               (email (view c)) with
    | Some e => (Ok (e_pk e), c)
    | None => (Raise TypeError, c)
    end.

(** [if ..._email_id: cur.execute("INSERT OR IGNORE INTO email_participant ...")] *)
Definition link (email_pk : nat) (email_id : option nat) (r : role) : SM unit :=
  match email_id with
  | Some id =>
      if id =? 0 then ret tt
      else execute (fun s => insert_participant s (email_pk, id, r))
  | None => ret tt
  end.

Definition link_address (email_pk : nat) (addr : option string) (r : role) : SM unit :=
  email_id <- get_or_create_email_address addr ;;
  link email_pk email_id r.

(** [for rec_email in parse_recipients(row[...]):] *)
Fixpoint link_addresses (email_pk : nat) (addrs : list string) (r : role) : SM unit :=
  match addrs with
  | [] => ret tt
  | a :: rest =>
      link_address email_pk (Some a) r ;;; link_addresses email_pk rest r
  end.

Definition BATCH_SIZE : nat := 5000.

(** One iteration of [for row in rows:]; the result is [processed]. *)
Definition migrate_row (total : nat) (row : downloaded_row) (processed : nat) : SM nat :=
  email_pk <- get_or_create_email row ;;
  link_address email_pk (d_sender row) RFrom ;;;
  link_addresses email_pk (Migration.parse_recipients (d_recipients row)) RTo ;;;
  link_addresses email_pk (Migration.parse_recipients (d_cc row)) RCc ;;;
  link_addresses email_pk (Migration.parse_recipients (d_bcc row)) RBcc ;;;
  let processed := processed + 1 in
  (if (processed mod BATCH_SIZE =? 0) || (processed =? total)
   then safe_commit_call else ret tt) ;;;
  ret processed.

Fixpoint migrate_rows (total : nat) (rows : list downloaded_row) (processed : nat)
  : SM unit :=
  match rows with
  | [] => ret tt
  | row :: rest =>
      processed <- migrate_row total row processed ;;
      migrate_rows total rest processed
  end.

(** [main]: [rows] is read once, before the loop. *)
Definition main : SM unit :=
  create_tables ;;;
  (fun c =>
     let rows := downloaded_emails (view c) in
     (migrate_rows (List.length rows) rows 0 ;;; safe_commit_call) c).

End WithCommit.

End Script.

(* ------------------------------------------------------------------ *)
(** ** The mail capability's contract, and a scripted instance *)

(** What a fetch predicate selects from a folder's messages (spec
    section 6: "all", explicit-list and "greater-than" predicates).
    The "greater-than" predicate reaches the server as the UID range
    [n:*] ([AND(uid=f"{max_uid + 1}:*")] in [main]).  By RFC 3501 [*]
    stands for the highest UID of the folder and a range holds the
    UIDs between its two ends, whichever is the larger: the range
    holds the UIDs from [min n highest] on, hence always the highest
    one; in an empty folder it holds nothing. *)
Definition highest_uid (msgs : list message) : option Z := max_list (map uid msgs).

Definition in_range (c : criterion) (highest : option Z) (u : Z) : bool :=
  match c with
  | CAll => true
  | CUidFrom n =>
      match highest with
      | Some h => (Z.min n h <=? u)%Z
      | None => false
      end
  | CUidList l => mem_uid u l
  end.

Definition select (c : criterion) (msgs : list message) : list message :=
  filter (fun m => in_range c (highest_uid msgs) (uid m)) msgs.

Module Scripted.

(** A mailbox that does not change during a run. *)
Record mailbox : Type := {
  mb_folders : list string;
  mb_status : string -> list (string * Z);
  mb_messages : string -> list message
}.

Inductive request : Type :=
| QLogin
| QList
| QSet (folder : string)
| QStatus (folder : string)
| QFetch (folder : string) (c : criterion)
| QSave (u : Z) (folder : string).

(** The world is the number of calls made so far; [faults t q] tells
    whether call number [t], being [q], raises. *)
Definition answer {A} (faults : nat -> request -> bool) (q : request) (a : A)
           (t : nat) : result A * nat :=
  (if faults t q then Raise OtherError else Ok a, S t).

Definition capability (mb : mailbox) (faults : nat -> request -> bool) : Capability :=
  {| World := nat;
     login := answer faults QLogin tt;
     folder_list := answer faults QList (mb_folders mb);
     folder_set := fun f => answer faults (QSet f) tt;
     folder_status := fun f => answer faults (QStatus f) (mb_status mb f);
     fetch := fun f c => answer faults (QFetch f c) (select c (mb_messages mb f));
     save_attachments := fun m u f =>
       answer faults (QSave u f) (map filename (msg_attachments m)) |}.

Definition no_faults (t : nat) (q : request) : bool := false.

Definition plain_message (u : Z) (sender : string) (mid : option string) : message :=
  {| uid := u; subject := "s"; from_ := sender; to := RecTuple [];
     cc := RecTuple []; bcc := RecTuple []; date := "2024-01-01T00:00:00";
     text := "t"; html := ""; msg_attachments := [];
     headers := match mid with
                | Some v => [("Message-ID", Some v)]
                | None => []
                end |}.

Definition with_attachment (m : message) : message :=
  {| uid := uid m; subject := subject m; from_ := from_ m; to := to m; cc := cc m;
     bcc := bcc m; date := date m; text := text m; html := html m;
     msg_attachments :=
       [{| filename := "a.txt"; content_type := "text/plain"; payload := "x" |}];
     headers := headers m |}.

End Scripted.

(* ------------------------------------------------------------------ *)
(** ** Observations and scenarios used by the properties *)

(** The addresses of the [email_address] table. *)
Definition addresses (s : store) : list string := map snd (email_address s).

(** The ['from'] participations of a message. *)
Definition from_links (s : store) (email_pk : nat) : list participant :=
  filter (fun p => let '(pk, _, r) := p in (pk =? email_pk) && role_eqb r RFrom)
         (email_participant s).

(** A mailbox of one folder. *)
Definition single_folder (name : string) (uidvalidity : Z) (msgs : list message)
  : Scripted.mailbox :=
  {| Scripted.mb_folders := [name];
     Scripted.mb_status := fun _ => [("UIDVALIDITY", uidvalidity)];
     Scripted.mb_messages := fun f => if (f =? name)%string then msgs else [] |}.

Definition backfill_input : store :=
  {| downloaded_emails :=
       [{| d_uid := 1; d_folder := "INBOX"; d_subject := "hello";
           d_sender := Some "alice@example.com";
           d_recipients := Some "bob@example.com";
           d_cc := Some ""; d_bcc := Some "";
           d_date := "2024-01-01T00:00:00"; d_body_text := "hi";
           d_body_html := ""; d_attachment_dir := None;
           d_message_id := Some "<m1@example.com>" |}];
     folder_uidvalidity := []; email_address := []; email := [];
     email_participant := [] |}.

(** The retry outcomes logged for a message. *)
Definition is_retry_of (u : Z) (folder : string) (ev : event) : bool :=
  match ev with
  | EvRetryOk u' f' | EvRetryFailed u' f' => (u' =? u)%Z && (f' =? folder)%string
  | _ => false
  end.

Definition retries (u : Z) (folder : string) (tr : list event) : nat :=
  List.length (filter (is_retry_of u folder) tr).

(** A world in which attachments can never be written. *)
Definition save_always_fails (t : nat) (q : Scripted.request) : bool :=
  match q with
  | Scripted.QSave _ _ => true
  | _ => false
  end.

Definition unsavable_inbox : Capability :=
  Scripted.capability
    (single_folder "INBOX" 7
       [Scripted.with_attachment
          (Scripted.plain_message 1 "alice@example.com" (Some "<m1@example.com>"))])
    save_always_fails.

(** The lines of a trace that tell the folder retry policy: attempts,
    their failures, and the back-off. *)
Definition is_policy_event (ev : event) : bool :=
  match ev with
  | EvAttempt _ _ | EvAttemptFailed _ _ | EvSleep _ => true
  | _ => false
  end.

Definition policy_events (tr : list event) : list event :=
  filter is_policy_event tr.

(** A mailbox of folders [A] and [B] in which every fetch on [A]
    raises. *)
Definition fetch_on_A_fails (t : nat) (q : Scripted.request) : bool :=
  match q with
  | Scripted.QFetch f _ => (f =? "A")%string
  | _ => false
  end.

Definition two_folders : Scripted.mailbox :=
  {| Scripted.mb_folders := ["A"; "B"];
     Scripted.mb_status := fun _ => [("UIDVALIDITY", 7%Z)];
     Scripted.mb_messages := fun f =>
       if (f =? "B")%string
       then [Scripted.plain_message 1 "alice@example.com" (Some "<m1@example.com>")]
       else [] |}.

Definition failing_A : Capability := Scripted.capability two_folders fetch_on_A_fails.

(** Folder [A] holds one message whose attachment cannot be written
    during the main pass (the first ten calls) but can afterwards;
    folder [B] reports UIDVALIDITY 200 while the store holds 100. *)
Definition skewed_mailbox : Scripted.mailbox :=
  {| Scripted.mb_folders := ["A"; "B"];
     Scripted.mb_status := fun f =>
       if (f =? "B")%string then [("UIDVALIDITY", 200%Z)] else [("UIDVALIDITY", 7%Z)];
     Scripted.mb_messages := fun f =>
       if (f =? "A")%string
       then [Scripted.with_attachment
               (Scripted.plain_message 1 "alice@example.com" (Some "<m1@example.com>"))]
       else [] |}.

Definition save_fails_at_first (t : nat) (q : Scripted.request) : bool :=
  match q with
  | Scripted.QSave _ _ => t <? 10
  | _ => false
  end.

Definition skewed : Capability := Scripted.capability skewed_mailbox save_fails_at_first.

Definition skewed_store : store :=
  {| downloaded_emails := []; folder_uidvalidity := [("B", 100%Z)];
     email_address := []; email := []; email_participant := [] |}.

(** A batch of two: message 1 carries no [Message-ID] header, message
    2 is well-formed. *)
Definition mixed_batch : list message :=
  [Scripted.plain_message 1 "alice@example.com" None;
   Scripted.plain_message 2 "bob@example.com" (Some "<m2@example.com>")].

Definition calm_inbox : Capability :=
  Scripted.capability (single_folder "INBOX" 7 mixed_batch) Scripted.no_faults.

(** Folder [Sent] holds messages 50 to 53; the store knows message 50. *)
Definition sent_mailbox : Scripted.mailbox :=
  single_folder "Sent" 7
    [Scripted.plain_message 50 "me@example.com" (Some "<m50@example.com>");
     Scripted.plain_message 51 "me@example.com" (Some "<m51@example.com>");
     Scripted.plain_message 52 "me@example.com" (Some "<m52@example.com>");
     Scripted.plain_message 53 "me@example.com" (Some "<m53@example.com>")].

Definition sent : Capability := Scripted.capability sent_mailbox Scripted.no_faults.

Definition sent_store : store :=
  {| downloaded_emails :=
       [downloaded_of 50 "Sent"
          (Scripted.plain_message 50 "me@example.com" (Some "<m50@example.com>"))
          {| attachments := []; message_id := Some "<m50@example.com>" |}];
     folder_uidvalidity := [("Sent", 7%Z)];
     email_address := []; email := []; email_participant := [] |}.

Definition fetches (tr : list event) : list event :=
  filter (fun ev => match ev with EvFetch _ _ => true | _ => false end) tr.

(** The capability answers from the mailbox [mb] whenever it answers,
    a fetch as RFC 3501 reads its predicate: the mailbox does not
    change, whatever else the world does. *)
Definition serves (C : Capability) (mb : Scripted.mailbox) : Prop :=
  (forall w l w', folder_list C w = (Ok l, w') -> l = Scripted.mb_folders mb)
  /\ (forall f w s w',
        folder_status C f w = (Ok s, w') -> s = Scripted.mb_status mb f)
  /\ (forall f c w l w',
        fetch C f c w = (Ok l, w') -> l = select c (Scripted.mb_messages mb f)).

(** The mail library raises no [RuntimeError] of its own when it
    selects a folder or asks for its status. *)
Definition raises_no_runtime_error (C : Capability) : Prop :=
  (forall f w w', folder_set C f w <> (Raise RuntimeError, w'))
  /\ (forall f w w', folder_status C f w <> (Raise RuntimeError, w')).

(** Folder [A] holds one message; every fetch on [A] among the first
    ten calls raises, later ones are answered. *)
Definition flaky_mailbox : Scripted.mailbox :=
  single_folder "A" 7
    [Scripted.plain_message 1 "alice@example.com" (Some "<m1@example.com>")].

Definition fetch_fails_at_first (t : nat) (q : Scripted.request) : bool :=
  match q with
  | Scripted.QFetch _ _ => t <? 10
  | _ => false
  end.

Definition flaky : Capability := Scripted.capability flaky_mailbox fetch_fails_at_first.

(* ------------------------------------------------------------------ *)
(** ** Further observations *)

Definition row_key (r : downloaded_row) : Z * string := (d_uid r, d_folder r).

(** The address [e] is linked to message [pk] under role [r]: linking
    it changes nothing. *)
Definition linked (s : store) (pk : nat) (e : option string) (r : role) : Prop :=
  add_participant s pk e r = s.

Fixpoint all_chars (p : ascii -> bool) (s : string) : bool :=
  match s with
  | EmptyString => true
  | String c r => p c && all_chars p r
  end.

Definition not_delim (c : ascii) : bool := negb (PyStr.is_delim c).

(** A string that does not begin with white space. *)
Definition starts_clean (s : string) : Prop :=
  match s with
  | EmptyString => True
  | String c _ => PyStr.is_space c = false
  end.

(** The constraints of the schema and the references between the
    tables: unique keys, address identities that are non-zero and in
    normal form, every [email] row backed by a raw row, every
    participation pointing at an [email] row and an address. *)
Record consistent (s : store) : Prop := {
  raw_keys_unique : NoDup (map row_key (downloaded_emails s));
  validity_keys_unique : NoDup (map fst (folder_uidvalidity s));
  address_ids_unique : NoDup (map fst (email_address s));
  address_ids_nonzero : ~ In 0 (map fst (email_address s));
  addresses_unique : NoDup (addresses s);
  addresses_normal :
    forall a, In a (addresses s) -> PyStr.lower (PyStr.strip a) = a;
  email_keys_unique : NoDup (map e_pk (email s));
  email_has_raw :
    forall e, In e (email s) -> is_email_downloaded s (e_uid e) (e_folder e) = true;
  participants_unique : NoDup (email_participant s);
  participants_refer :
    forall pk id r, In (pk, id, r) (email_participant s) ->
                    In pk (map e_pk (email s)) /\ In id (map fst (email_address s))
}.

(** What the store holds about one folder: its raw rows, its [email]
    rows and its recorded UIDVALIDITY. *)
Definition folder_view (s : store) (f : string)
  : list downloaded_row * list email_row * option Z :=
  (filter (fun r => (d_folder r =? f)%string) (downloaded_emails s),
   filter (fun e => (e_folder e =? f)%string) (email s),
   get_uidvalidity s f).

Definition event_folder (ev : event) : option string :=
  match ev with
  | EvFetch f _ | EvAttempt f _ | EvAttemptFailed f _
  | EvLogError _ f | EvRetryOk _ f | EvRetryFailed _ f => Some f
  | EvSleep _ => None
  end.

(** The run has left folder [f] alone: same view of the store as in
    [db], nothing queued or recorded as failed under [f], no event
    that names [f]. *)
Definition untouched (C : Capability) (f : string) (db : store) (st : state C) : Prop :=
  folder_view (conn st) f = folder_view db f
  /\ (forall u, ~ In (u, f) (failed_emails st))
  /\ ~ In f (failed_folders st)
  /\ Forall (fun ev => event_folder ev <> Some f) (trace st).

(** A mailbox that lists [Trash] beside [INBOX], each with a message. *)
Definition inbox_and_trash : Scripted.mailbox :=
  {| Scripted.mb_folders := ["INBOX"; "Trash"];
     Scripted.mb_status := fun _ => [("UIDVALIDITY", 7%Z)];
     Scripted.mb_messages := fun f =>
       if (f =? "Trash")%string
       then [Scripted.plain_message 9 "spam@example.com" None]
       else [Scripted.plain_message 1 "alice@example.com" (Some "<m1@example.com>")] |}.

(** [s'] holds every row of [s], in place, and the validity values
    [s] records. *)
Definition extends (s s' : store) : Prop :=
  (exists a, downloaded_emails s' = downloaded_emails s ++ a)
  /\ (exists b, email_address s' = email_address s ++ b)
  /\ (exists c, email s' = email s ++ c)
  /\ (exists d, email_participant s' = email_participant s ++ d)
  /\ (forall f v, get_uidvalidity s f = Some v -> get_uidvalidity s' f = Some v).

Definition same_key (row : downloaded_row) (e : email_row) : bool :=
  (e_uid e =? d_uid row)%Z && (e_folder e =? d_folder row)%string.

(** The raw row has been backfilled: the oldest [email] row of its
    [(uid, folder)] is linked to its sender and to each of its
    recipients. *)
Definition migrated (s : store) (row : downloaded_row) : Prop :=
  exists e, find (same_key row) (email s) = Some e
    /\ linked s (e_pk e) (d_sender row) RFrom
    /\ Forall (fun a => linked s (e_pk e) (Some a) RTo)
              (Migration.parse_recipients (d_recipients row))
    /\ Forall (fun a => linked s (e_pk e) (Some a) RCc)
              (Migration.parse_recipients (d_cc row))
    /\ Forall (fun a => linked s (e_pk e) (Some a) RBcc)
              (Migration.parse_recipients (d_bcc row)).

Definition is_retry_event (ev : event) : bool :=
  match ev with
  | EvRetryOk _ _ | EvRetryFailed _ _ => true
  | _ => false
  end.

(** The steps between [st] and [st'] told nothing of a retry. *)
Definition no_retry (C : Capability) (st st' : state C) : Prop :=
  exists d, trace st' = trace st ++ d /\ filter is_retry_event d = [].

(** Folder [A] holds a message whose attachment cannot be written;
    asking for the status of folder [B] raises. *)
Definition status_of_B_fails (t : nat) (q : Scripted.request) : bool :=
  match q with
  | Scripted.QSave _ _ => true
  | Scripted.QStatus f => (f =? "B")%string
  | _ => false
  end.

Definition cut_short : Capability := Scripted.capability skewed_mailbox status_of_B_fails.

(** The server answers, in some state of the world, the request for
    the batch. *)
Definition answered (C : Capability) (f : string) (batch : list Z) : Prop :=
  exists w l w', fetch C f (CUidList batch) w = (Ok l, w').

(** A batch that holds a UID not among [existing_uids]. *)
Definition has_missing (existing_uids : list Z) (batch : list Z) : bool :=
  negb (forallb (fun u => mem_uid u existing_uids) batch).

(** Folder [A] holds a message whose attachment cannot be written
    during the first ten calls; asking for the status of folder [B]
    raises during the first ten calls. *)
Definition status_of_B_fails_at_first (t : nat) (q : Scripted.request) : bool :=
  match q with
  | Scripted.QSave _ _ => t <? 10
  | Scripted.QStatus f => (f =? "B")%string && (t <? 10)
  | _ => false
  end.

Definition interrupted : Capability :=
  Scripted.capability skewed_mailbox status_of_B_fails_at_first.

(** The mailbox [flaky_mailbox], behind a mail library whose select
    raises [RuntimeError] during the first ten calls. *)
Definition select_raises_at_first : Capability :=
  {| World := nat;
     login := Scripted.answer Scripted.no_faults Scripted.QLogin tt;
     folder_list :=
       Scripted.answer Scripted.no_faults Scripted.QList
                       (Scripted.mb_folders flaky_mailbox);
     folder_set := fun f t =>
       (if t <? 10 then Raise RuntimeError else Ok tt, S t);
     folder_status := fun f =>
       Scripted.answer Scripted.no_faults (Scripted.QStatus f)
                       (Scripted.mb_status flaky_mailbox f);
     fetch := fun f c =>
       Scripted.answer Scripted.no_faults (Scripted.QFetch f c)
                       (select c (Scripted.mb_messages flaky_mailbox f));
     save_attachments := fun m u f =>
       Scripted.answer Scripted.no_faults (Scripted.QSave u f)
                       (map filename (msg_attachments m)) |}.

(** The steps a raw row takes through the tables, each as what it does
    to the store: the [email] row, then for the sender and each
    recipient the address and the participation. *)
Definition row_links (row : downloaded_row) : list (option string * role) :=
  (d_sender row, RFrom)
  :: map (fun a => (Some a, RTo)) (Migration.parse_recipients (d_recipients row))
  ++ map (fun a => (Some a, RCc)) (Migration.parse_recipients (d_cc row))
  ++ map (fun a => (Some a, RBcc)) (Migration.parse_recipients (d_bcc row)).

Definition insert_row (row : downloaded_row) (s : store) : store :=
  insert_email s (d_uid row) (d_folder row) (d_subject row) (d_date row)
               (d_body_text row) (d_body_html row) (d_attachment_dir row) None.

Definition address_step (addr : option string) (s : store) : store :=
  fst (get_or_create_email_address s addr).

Definition link_step (row : downloaded_row) (addr : option string) (r : role)
           (s : store) : store :=
  match find (same_key row) (email s) with
  | Some e => add_participant s (e_pk e) addr r
  | None => s
  end.

Inductive row_step (row : downloaded_row) : (store -> store) -> Prop :=
| step_insert : row_step row (insert_row row)
| step_address addr r : In (addr, r) (row_links row) -> row_step row (address_step addr)
| step_link addr r : In (addr, r) (row_links row) -> row_step row (link_step row addr r).

(** A commit of the script failed: it left the world as [w]. *)
Definition commit_failed (W : Type) (commit_op : W -> option commit_error * W)
           (e : exn) (c : Script.session W) : Prop :=
  exists w err,
    commit_op w = (Some err, Script.lock_world c)
    /\ if is_lock_error err
       then e = RuntimeError
            /\ exists before, Script.commits c = before ++ locked_rounds 10 2
       else e = OtherError
            /\ exists before, Script.commits c = before ++ [EvCommit].

(** No commit ever fails. *)
Definition commits_never_fail (W : Type) (commit_op : W -> option commit_error * W)
  : Prop :=
  forall w, fst (commit_op w) = None.

Definition apply_steps (ts : list (store -> store)) (x : store) : store :=
  fold_left (fun x t => t x) ts x.

(** [x'] is [x] after some steps of rows among [rows]. *)
Definition reaches (rows : list downloaded_row) (x x' : store) : Prop :=
  exists ts,
    Forall (fun t => exists row, In row rows /\ row_step row t) ts
    /\ x' = apply_steps ts x.

(** From connection [c] to [c']: what the script sees has moved by
    steps of rows among [rows], and what is permanent is as before or
    a store the script has seen on the way. *)
Definition trajectory (W : Type) (rows : list downloaded_row)
           (c c' : Script.session W) : Prop :=
  reaches rows (Script.view c) (Script.view c')
  /\ (Script.durable c' = Script.durable c
      \/ reaches rows (Script.view c) (Script.durable c')).

(** The store agrees with [s1] but for [email] rows added at the end,
    and every row among [rows] is backfilled in it. *)
Definition rerun_state (rows : list downloaded_row) (s1 x : store) : Prop :=
  (forall row, In row rows -> migrated x row)
  /\ downloaded_emails x = downloaded_emails s1
  /\ folder_uidvalidity x = folder_uidvalidity s1
  /\ email_address x = email_address s1
  /\ email_participant x = email_participant s1
  /\ exists added, email x = email s1 ++ added.

(** Every commit goes through. *)
Definition commit_goes_through (w : unit) : option commit_error * unit := (None, w).

(** The world counts the commits; from commit number [n] on, each one
    finds the database locked. *)
Definition commit_locked_from (n : nat) (w : nat) : option commit_error * nat :=
  (if n <=? w then Some (OperationalError "database is locked") else None, S w).

(* SCENARIOS-END *)

(* ================================================================== *)
(** * Properties *)

(* ------------------------------------------------------------------ *)
(** ** The model at work *)

Example strip_example : PyStr.strip "  a b  " = "a b".
Proof. reflexivity. Qed.

Example re_split_example : PyStr.re_split "a;b,,c" = ["a"; "b"; ""; "c"].
Proof. reflexivity. Qed.

Example parse_recipients_tuple_example :
  parse_recipients (RecTuple ["a@ex.com"]) = [].
Proof. reflexivity. Qed.

Example join_recipients_example :
  join_recipients (RecTuple ["a@ex.com"; "b@ex.com"]) = "a@ex.com, b@ex.com".
Proof. reflexivity. Qed.

Example split_into_batches_example :
  split_into_batches [1; 2; 3; 4; 5]%Z 2 = Ok [[1; 2]; [3; 4]; [5]]%Z.
Proof. reflexivity. Qed.

Example skip_folders_example :
  in_skip_folders "INBOX.Trash" = true /\ in_skip_folders "INBOX" = false.
Proof. split; reflexivity. Qed.

Example status_uidvalidity_example :
  status_uidvalidity [("MESSAGES", 3%Z); ("uidvalidity", 7%Z)] = Some 7%Z.
Proof. reflexivity. Qed.

(* ------------------------------------------------------------------ *)
(** ** The participant normalizer *)

Section NormalizerFacts.

Lemma find_none_not_in (e : string) (l : list (nat * string)) :
  find (fun p => (snd p =? e)%string) l = None -> ~ In e (map snd l).
Proof.
  induction l as [|p l IH]; simpl; intros H.
  - tauto.
  - destruct (String.eqb_spec (snd p) e) as [Heq|Hne]; [discriminate|].
    intros [H1|H1]; [congruence | exact (IH H H1)].
Qed.

Lemma find_some_in (e : string) (l : list (nat * string)) p :
  find (fun p => (snd p =? e)%string) l = Some p -> In e (map snd l).
Proof.
  intros H. apply find_some in H. destruct H as [Hin Heq].
  apply String.eqb_eq in Heq. subst e. now apply in_map.
Qed.

(** Resolving an address adds its normal form to the address table and
    nothing else. *)
Lemma get_or_create_email_address_addresses s e x :
  PyStr.truthy e = true ->
  In x (addresses (fst (get_or_create_email_address s (Some e)))) <->
  In x (addresses s) \/ x = PyStr.lower (PyStr.strip e).
Proof.
  intros Ht. unfold get_or_create_email_address. rewrite Ht. simpl.
  destruct (find _ (email_address s)) as [p|] eqn:Hf; simpl.
  - apply find_some_in in Hf. split; [tauto|].
    intros [H|H]; [exact H | subst x; exact Hf].
  - unfold addresses. simpl. rewrite map_app, in_app_iff. simpl.
    split; intros [H|H]; auto.
    + destruct H as [H|[]]; auto.
Qed.

Lemma insert_participant_addresses s p :
  email_address (insert_participant s p) = email_address s.
Proof.
  unfold insert_participant. now destruct (existsb _ _).
Qed.

Lemma add_participant_addresses s pk e r x :
  PyStr.truthy e = true ->
  In x (addresses (add_participant s pk (Some e) r)) <->
  In x (addresses s) \/ x = PyStr.lower (PyStr.strip e).
Proof.
  intros Ht. rewrite <- (get_or_create_email_address_addresses s e x Ht).
  unfold add_participant.
  destruct (get_or_create_email_address s (Some e)) as [s1 [id|]]; simpl; [|tauto].
  destruct (id =? 0); [tauto|].
  unfold addresses. now rewrite insert_participant_addresses.
Qed.

End NormalizerFacts.

(** C7. Recipient normalization does not depend on the representation:
    the delimited string ["A@Ex.com; b@ex.com,  "] and the list
    [["A@Ex.com"; "b@ex.com"]] parse to the same addresses, so linking
    them to a message under a role leaves the same store from any
    store; the address table gains exactly ["a@ex.com"] and
    ["b@ex.com"]; and from the empty store the result is those two
    identities, each linked once under the role. *)
Theorem recipient_normalization_representation_independent :
  let as_string := RecStr "A@Ex.com; b@ex.com,  " in
  let as_list := RecList ["A@Ex.com"; "b@ex.com"] in
  parse_recipients as_string = parse_recipients as_list
  /\ (forall s pk r,
        add_participants s pk (parse_recipients as_string) r =
        add_participants s pk (parse_recipients as_list) r)
  /\ (forall s pk r x,
        In x (addresses (add_participants s pk (parse_recipients as_string) r)) <->
        In x (addresses s) \/ x = "a@ex.com" \/ x = "b@ex.com")
  /\ (forall pk r,
        let s' := add_participants empty_store pk (parse_recipients as_list) r in
        email_address s' = [(1, "a@ex.com"); (2, "b@ex.com")]
        /\ email_participant s' = [(pk, 1, r); (pk, 2, r)]).
Proof.
  cbv zeta.
  assert (Hs : parse_recipients (RecStr "A@Ex.com; b@ex.com,  ")
               = ["A@Ex.com"; "b@ex.com"]) by reflexivity.
  assert (Hl : parse_recipients (RecList ["A@Ex.com"; "b@ex.com"])
               = ["A@Ex.com"; "b@ex.com"]) by reflexivity.
  rewrite Hs, Hl.
  split; [reflexivity|]. split; [reflexivity|]. split.
  - intros s pk r x. unfold add_participants. simpl fold_left.
    rewrite add_participant_addresses by reflexivity.
    rewrite add_participant_addresses by reflexivity.
    change (PyStr.lower (PyStr.strip "A@Ex.com")) with "a@ex.com".
    change (PyStr.lower (PyStr.strip "b@ex.com")) with "b@ex.com".
    tauto.
  - intros pk r.
    cbv -[Nat.eqb]. simpl. rewrite Nat.eqb_refl. simpl. split; reflexivity.
Qed.

(* ------------------------------------------------------------------ *)
(** ** Frame facts of the store operations *)

Lemma insert_participant_frame s p :
  downloaded_emails (insert_participant s p) = downloaded_emails s
  /\ folder_uidvalidity (insert_participant s p) = folder_uidvalidity s
  /\ email (insert_participant s p) = email s.
Proof. unfold insert_participant. destruct (existsb _ _); auto. Qed.

Lemma get_or_create_email_address_frame s e :
  let s' := fst (get_or_create_email_address s e) in
  downloaded_emails s' = downloaded_emails s
  /\ folder_uidvalidity s' = folder_uidvalidity s
  /\ email s' = email s
  /\ email_participant s' = email_participant s.
Proof.
  unfold get_or_create_email_address. destruct e as [e|]; simpl; auto.
  destruct (negb _); simpl; auto.
  destruct (find _ _); simpl; auto.
Qed.

Lemma add_participant_frame s pk e r :
  let s' := add_participant s pk e r in
  downloaded_emails s' = downloaded_emails s
  /\ folder_uidvalidity s' = folder_uidvalidity s
  /\ email s' = email s.
Proof.
  unfold add_participant.
  pose proof (get_or_create_email_address_frame s e) as H. simpl in H.
  destruct (get_or_create_email_address s e) as [s1 [id|]]; simpl in *;
    [|tauto].
  destruct (id =? 0); [tauto|].
  destruct (insert_participant_frame s1 (pk, id, r)) as (H1 & H2 & H3).
  rewrite H1, H2, H3. tauto.
Qed.

Lemma add_participants_frame addrs : forall s pk r,
  let s' := add_participants s pk addrs r in
  downloaded_emails s' = downloaded_emails s
  /\ folder_uidvalidity s' = folder_uidvalidity s
  /\ email s' = email s.
Proof.
  unfold add_participants.
  induction addrs as [|a addrs IH]; intros s pk r; simpl; auto.
  destruct (IH (add_participant s pk (Some a) r) pk r) as (H1 & H2 & H3).
  destruct (add_participant_frame s pk (Some a) r) as (G1 & G2 & G3).
  simpl in *. rewrite H1, H2, H3. auto.
Qed.

Lemma link_participants_frame s pk msg :
  let s' := link_participants s pk msg in
  downloaded_emails s' = downloaded_emails s
  /\ folder_uidvalidity s' = folder_uidvalidity s
  /\ email s' = email s.
Proof.
  unfold link_participants. cbv zeta.
  set (s1 := add_participant s pk (Some (from_ msg)) RFrom).
  set (s2 := add_participants s1 pk (parse_recipients (to msg)) RTo).
  set (s3 := add_participants s2 pk (parse_recipients (cc msg)) RCc).
  pose proof (add_participant_frame s pk (Some (from_ msg)) RFrom) as A1.
  pose proof (add_participants_frame (parse_recipients (to msg)) s1 pk RTo) as A2.
  pose proof (add_participants_frame (parse_recipients (cc msg)) s2 pk RCc) as A3.
  pose proof (add_participants_frame (parse_recipients (bcc msg)) s3 pk RBcc) as A4.
  cbv zeta in *. fold s1 in A1. fold s2 in A2. fold s3 in A3.
  destruct A1 as (? & ? & ?), A2 as (? & ? & ?), A3 as (? & ? & ?), A4 as (? & ? & ?).
  repeat split; congruence.
Qed.

Lemma mark_email_downloaded_frame s row :
  let s' := mark_email_downloaded s row in
  folder_uidvalidity s' = folder_uidvalidity s
  /\ email_address s' = email_address s
  /\ email s' = email s
  /\ email_participant s' = email_participant s.
Proof. unfold mark_email_downloaded. destruct (is_email_downloaded _ _ _); simpl; auto. Qed.

Lemma mark_email_downloaded_rows s row :
  downloaded_emails (mark_email_downloaded s row) = downloaded_emails s
  \/ (is_email_downloaded s (d_uid row) (d_folder row) = false
      /\ downloaded_emails (mark_email_downloaded s row) = downloaded_emails s ++ [row]).
Proof. unfold mark_email_downloaded. destruct (is_email_downloaded _ _ _) eqn:E; simpl; auto. Qed.

(* ------------------------------------------------------------------ *)
(** ** The backfill pass *)

Lemma migrate_row_email s row s' :
  Migration.migrate_row s row = Ok s' ->
  List.length (email s') = S (List.length (email s))
  /\ downloaded_emails s' = downloaded_emails s.
Proof.
  unfold Migration.migrate_row, Migration.get_or_create_email.
  destruct (find _ _) as [e|]; [|discriminate].
  intros H. injection H as <-.
  repeat match goal with
  | |- context [add_participants ?s ?pk ?l ?r] =>
      let H := fresh "F" in
      destruct (add_participants_frame l s pk r) as (H & _ & ?);
      cbv zeta in H; rewrite H; clear H;
      match goal with
      | E : email (add_participants s pk l r) = _ |- _ => rewrite E; clear E
      end
  end.
  match goal with
  | |- context [add_participant ?s ?pk ?e ?r] =>
      destruct (add_participant_frame s pk e r) as (F1 & _ & F3)
  end.
  cbv zeta in F1, F3. rewrite F1, F3. simpl.
  rewrite length_app. simpl. split; [lia | reflexivity].
Qed.

Lemma migrate_row_total s row : exists s', Migration.migrate_row s row = Ok s'.
Proof.
  unfold Migration.migrate_row, Migration.get_or_create_email.
  destruct (find _ _) as [e|] eqn:Hf; [eexists; reflexivity|].
  exfalso. simpl in Hf.
  eapply find_none with (x := {| e_pk := _ |}) in Hf.
  - simpl in Hf. now rewrite Z.eqb_refl, String.eqb_refl in Hf.
  - apply in_or_app. right. left. reflexivity.
Qed.

Lemma migrate_rows_total rows : forall s,
  exists s', Migration.migrate_rows rows s = Ok s'
             /\ List.length (email s') = List.length (email s) + List.length rows
             /\ downloaded_emails s' = downloaded_emails s.
Proof.
  induction rows as [|row rows IH]; intros s; simpl.
  - exists s. repeat split; lia.
  - destruct (migrate_row_total s row) as [s1 H1]. rewrite H1.
    destruct (migrate_row_email s row s1 H1) as [L1 D1].
    destruct (IH s1) as (s' & H2 & L2 & D2).
    exists s'. repeat split; [exact H2 | lia | congruence].
Qed.

(** The backfill always runs to its end, and each run adds one [email]
    row per [downloaded_emails] row. *)
Lemma backfill_adds_one_email_row_per_raw_row s :
  exists s', Migration.main s = Ok s'
             /\ List.length (email s') =
                List.length (email s) + List.length (downloaded_emails s)
             /\ downloaded_emails s' = downloaded_emails s.
Proof. apply migrate_rows_total. Qed.

(** C8. The backfill pass run a second time over an unchanged
    [downloaded_emails] table: on a table of one row, the first run
    creates one [email] row and two participant rows; the second run
    leaves the participant rows as they are but creates a second
    [email] row for the same raw row. *)
Theorem backfill_second_run_adds_email_row :
  exists s1 s2,
    Migration.main backfill_input = Ok s1
    /\ Migration.main s1 = Ok s2
    /\ downloaded_emails s2 = downloaded_emails backfill_input
    /\ map e_pk (email s1) = [1]
    /\ map e_pk (email s2) = [1; 2]
    /\ map e_uid (email s2) = [1%Z; 1%Z]
    /\ email_participant s1 = [(1, 1, RFrom); (1, 2, RTo)]
    /\ email_participant s2 = email_participant s1.
Proof.
  eexists. eexists.
  split; [vm_compute; reflexivity|].
  split; [vm_compute; reflexivity|].
  repeat split.
Qed.

(* ------------------------------------------------------------------ *)
(** ** One sender link per message *)

(** C9. A message that carries no [Message-ID] header, with a known
    sender: the sync run stores its [email] row and no participation
    at all, so the message has no ['from'] link although its sender is
    known.  The same message with the header gets exactly one. *)
Theorem message_without_message_id_has_no_from_link :
  let run mid :=
    main (Scripted.capability
            (single_folder "INBOX" 7 [Scripted.plain_message 1 "alice@example.com" mid])
            Scripted.no_faults) 5 empty_store 0 in
  fst (run None) = Completed LoopDone
  /\ map e_pk (email (conn (snd (run None)))) = [1]
  /\ addresses (conn (snd (run None))) = []
  /\ from_links (conn (snd (run None))) 1 = []
  /\ failed_emails (snd (run None)) = [(1%Z, "INBOX")]
  /\ map e_pk (email (conn (snd (run (Some "<m1@example.com>"))))) = [1]
  /\ from_links (conn (snd (run (Some "<m1@example.com>")))) 1 = [(1, 1, RFrom)].
Proof. vm_compute. repeat split. Qed.

(* ------------------------------------------------------------------ *)
(** ** The end-of-run retry *)

Ltac unfold_m :=
  unfold fetch_m, get_or_create_email_m, bind, call, tell,
    ret, raise, update_conn, lift_result in *.

Ltac destruct_call :=
  match goal with
  | |- context [match ?c with pair _ _ => _ end] =>
      match type of c with
      | (result _ * World _)%type => destruct c as [[?|?] ?] eqn:?
      end
  end.

Section StepFacts.

Context (C : Capability).

Lemma call_frame {A} (op : World C -> result A * World C) st r st' :
  call op st = (r, st') ->
  conn st' = conn st /\ failed_emails st' = failed_emails st
  /\ failed_folders st' = failed_folders st /\ trace st' = trace st
  /\ op (world st) = (r, world st').
Proof.
  unfold call. destruct (op (world st)) as [r0 w] eqn:E.
  intros H. injection H as <- <-. simpl. auto.
Qed.

(** Extraction touches the world only. *)
Lemma extract_email_data_frame msg u f (st : state C) r st' :
  extract_email_data C msg u f st = (r, st') ->
  conn st' = conn st /\ failed_emails st' = failed_emails st
  /\ failed_folders st' = failed_folders st /\ trace st' = trace st.
Proof.
  unfold extract_email_data. unfold bind at 1.
  destruct (msg_attachments msg) as [|a l].
  - unfold ret. intros H. injection H as _ <-. auto.
  - destruct (call (save_attachments C msg u f) st) as [[paths|e] st1] eqn:E;
      destruct (call_frame _ _ _ _ E) as (H1 & H2 & H3 & H4 & _);
      unfold ret; intros H; injection H as _ <-; auto.
Qed.

(** The ways the body of a retry can go: it leaves the queues alone,
    tells at most its fetch request and its success, and either raises
    with the store untouched or has inserted the raw record. *)
Lemma retry_body_cases u f (st : state C) r st' :
  retry_body C u f st = (r, st') ->
  failed_emails st' = failed_emails st
  /\ failed_folders st' = failed_folders st
  /\ (exists d, trace st' = trace st ++ d
                /\ forall ev, In ev d ->
                              ev = EvFetch f (CUidList [u]) \/ ev = EvRetryOk u f)
  /\ ((exists e, r = Raise e /\ conn st' = conn st)
      \/ (r = Ok tt
          /\ exists msg d,
               conn st' = mark_email_downloaded (conn st) (downloaded_of u f msg d))).
Proof.
  intros H. unfold retry_body in H.
  assert (T0 : forall s : state C, trace s = trace st ->
               exists d, trace s = trace st ++ d
                         /\ forall ev, In ev d ->
                               ev = EvFetch f (CUidList [u]) \/ ev = EvRetryOk u f).
  { intros s E. exists []. split; [now rewrite app_nil_r | intros ev []]. }
  unfold bind at 1 in H.
  destruct (call (login C) st) as [[[]|e] s1] eqn:E1;
    destruct (call_frame _ _ _ _ E1) as (C1 & Q1 & F1 & T1 & _).
  2: { injection H as <- <-. repeat split; auto. left. eauto. }
  unfold bind at 1 in H.
  destruct (call (folder_set C f) s1) as [[[]|e] s2] eqn:E2;
    destruct (call_frame _ _ _ _ E2) as (C2 & Q2 & F2 & T2 & _).
  2: { injection H as <- <-. repeat split; try congruence.
       - apply T0. congruence.
       - left. exists e. split; [reflexivity | congruence]. }
  unfold bind at 1 in H. unfold fetch_m in H. unfold bind at 1 in H.
  unfold tell at 1 in H. cbv beta iota in H.
  assert (T1' : forall s : state C,
                  trace s = trace (emit (EvFetch f (CUidList [u])) s2) ->
                  exists d, trace s = trace st ++ d
                            /\ forall ev, In ev d ->
                                  ev = EvFetch f (CUidList [u]) \/ ev = EvRetryOk u f).
  { intros s E. exists [EvFetch f (CUidList [u])]. split.
    - rewrite E. simpl. congruence.
    - intros ev [<-|[]]. now left. }
  destruct (call (fetch C f (CUidList [u])) (emit (EvFetch f (CUidList [u])) s2))
    as [[msgs|e] s3] eqn:E3;
    destruct (call_frame _ _ _ _ E3) as (C3 & Q3 & F3 & T3 & _);
    simpl in C3, Q3, F3.
  2: { injection H as <- <-. repeat split; try congruence.
       - now apply T1'.
       - left. exists e. split; [reflexivity | congruence]. }
  destruct msgs as [|msg rest].
  { unfold raise in H. injection H as <- <-. repeat split; try congruence.
    - now apply T1'.
    - left. exists StopIteration. split; [reflexivity | congruence]. }
  unfold bind at 1 in H.
  destruct (extract_email_data C msg u f s3) as [[d|e] s4] eqn:E4;
    destruct (extract_email_data_frame _ _ _ _ _ _ E4) as (C4 & Q4 & F4 & T4).
  2: { injection H as <- <-. repeat split; try congruence.
       - apply T1'. congruence.
       - left. exists e. split; [reflexivity | congruence]. }
  unfold bind at 1, update_conn, tell in H. injection H as <- <-. simpl.
  repeat split; try congruence.
  - exists [EvFetch f (CUidList [u]); EvRetryOk u f]. split.
    + rewrite T4, T3. simpl. rewrite T2, T1, <- app_assoc. reflexivity.
    + intros ev [<-|[<-|[]]]; [now left | now right].
  - right. split; [reflexivity|]. exists msg, d. congruence.
Qed.

End StepFacts.

Section RetryFacts.

Context (C : Capability).

(** What one retry may change: rows appended to [downloaded_emails]
    under a queued key, entries appended to [failed_emails], the world
    and the trace; nothing else. *)
Definition raw_only (st st' : state C) : Prop :=
  folder_uidvalidity (conn st') = folder_uidvalidity (conn st)
  /\ email_address (conn st') = email_address (conn st)
  /\ email (conn st') = email (conn st)
  /\ email_participant (conn st') = email_participant (conn st)
  /\ failed_folders st' = failed_folders st
  /\ (exists q, failed_emails st' = failed_emails st ++ q)
  /\ (exists added,
        downloaded_emails (conn st') = downloaded_emails (conn st) ++ added
        /\ forall r, In r added -> In (d_uid r, d_folder r) (failed_emails st')).

Lemma raw_only_refl st : raw_only st st.
Proof.
  unfold raw_only. repeat split; try reflexivity.
  - exists []. now rewrite app_nil_r.
  - exists []. split; [now rewrite app_nil_r | intros r []].
Qed.

Lemma raw_only_trans a b c : raw_only a b -> raw_only b c -> raw_only a c.
Proof.
  intros (A1 & A2 & A3 & A4 & A5 & [qa A6] & [ra [A7 A8]])
         (B1 & B2 & B3 & B4 & B5 & [qb B6] & [rb [B7 B8]]).
  unfold raw_only. repeat split; try congruence.
  - exists (qa ++ qb). rewrite B6, A6. now rewrite app_assoc.
  - exists (ra ++ rb). split.
    + rewrite B7, A7. now rewrite app_assoc.
    + intros r Hr. apply in_app_or in Hr. destruct Hr as [Hr|Hr].
      * rewrite B6. apply in_or_app. left. now apply A8.
      * now apply B8.
Qed.

Lemma raw_only_same (st st' : state C) :
  conn st' = conn st -> failed_emails st' = failed_emails st ->
  failed_folders st' = failed_folders st -> raw_only st st'.
Proof.
  intros H1 H2 H3. unfold raw_only. rewrite H1, H2, H3.
  repeat split; try reflexivity.
  - exists []. now rewrite app_nil_r.
  - exists []. split; [now rewrite app_nil_r | intros r []].
Qed.

Lemma retry_body_raw_only u folder st r st' :
  In (u, folder) (failed_emails st) ->
  retry_body C u folder st = (r, st') ->
  raw_only st st' /\ failed_emails st' = failed_emails st.
Proof.
  intros Hq H.
  destruct (retry_body_cases C u folder st r st' H) as (Q & F & _ & [(e & _ & K)|(_ & K)]).
  - split; [now apply raw_only_same | exact Q].
  - split; [|exact Q]. destruct K as (msg & d & K).
    destruct (mark_email_downloaded_frame (conn st) (downloaded_of u folder msg d))
      as (F1 & F2 & F3 & F4).
    pose proof (mark_email_downloaded_rows (conn st) (downloaded_of u folder msg d)) as E.
    cbv zeta in *. unfold raw_only. rewrite K, Q, F.
    repeat split; try assumption.
    + exists []. now rewrite app_nil_r.
    + destruct E as [E|[_ E]]; rewrite E.
      * exists []. split; [now rewrite app_nil_r | intros r0 []].
      * eexists. split; [reflexivity|].
        intros r0 [<-|[]]. simpl. exact Hq.
Qed.

Lemma log_error_raw_only u folder (st : state C) : raw_only st (log_error C u folder st).
Proof.
  unfold raw_only, log_error. simpl. repeat split; try reflexivity.
  - eexists. reflexivity.
  - exists []. split; [now rewrite app_nil_r | intros r []].
Qed.

Lemma emit_raw_only ev (st : state C) : raw_only st (emit ev st).
Proof.
  unfold raw_only, emit. simpl. repeat split; try reflexivity.
  - exists []. now rewrite app_nil_r.
  - exists []. split; [now rewrite app_nil_r | intros r []].
Qed.

Lemma retry_one_raw_only u folder st :
  In (u, folder) (failed_emails st) ->
  raw_only st (retry_one C u folder st).
Proof.
  intros Hq. unfold retry_one.
  destruct (retry_body C u folder st) as [[[]|e] st1] eqn:E;
    destruct (retry_body_raw_only u folder st _ _ Hq E) as [H _]; [exact H|].
  eapply raw_only_trans; [exact H|].
  eapply raw_only_trans; [apply emit_raw_only | apply log_error_raw_only].
Qed.

Lemma retry_loop_raw_only fuel : forall i st,
  raw_only st (fst (retry_loop C fuel i st)).
Proof.
  induction fuel as [|fuel IH]; intros i st; simpl.
  - destruct (nth_error (failed_emails st) i) as [[u f]|]; apply raw_only_refl.
  - destruct (nth_error (failed_emails st) i) as [[u f]|] eqn:E; simpl.
    + eapply raw_only_trans; [|apply IH].
      apply retry_one_raw_only. eapply nth_error_In; exact E.
    + apply raw_only_refl.
Qed.

End RetryFacts.

(** C10. The end-of-run retry writes only raw records: however far the
    retry loop runs, from any position of the queue and any state, the
    [email], [email_participant], [email_address] and
    [folder_uidvalidity] tables are what they were, and
    [downloaded_emails] has only gained rows whose [(uid, folder)] is
    a queued pair. *)
Theorem retry_pass_writes_only_raw_records (C : Capability) :
  forall fuel i (st : state C),
    let st' := fst (retry_loop C fuel i st) in
    email (conn st') = email (conn st)
    /\ email_participant (conn st') = email_participant (conn st)
    /\ email_address (conn st') = email_address (conn st)
    /\ folder_uidvalidity (conn st') = folder_uidvalidity (conn st)
    /\ exists added,
         downloaded_emails (conn st') = downloaded_emails (conn st) ++ added
         /\ forall r, In r added -> In (d_uid r, d_folder r) (failed_emails st').
Proof.
  intros fuel i st.
  destruct (retry_loop_raw_only C fuel i st) as (H1 & H2 & H3 & H4 & _ & _ & H7).
  cbv zeta. auto.
Qed.

Section RetryRequeue.

Let C := unsavable_inbox.
Let x : Z * string := (1%Z, "INBOX").

Lemma unsavable_retry_one (st : state C) :
  failed_emails (retry_one C 1 "INBOX" st) = failed_emails st ++ [x]
  /\ retries 1 "INBOX" (trace (retry_one C 1 "INBOX" st)) =
     S (retries 1 "INBOX" (trace st)).
Proof.
  unfold retry_one, retry_body, extract_email_data. unfold_m. simpl.
  split; [reflexivity|].
  unfold retries. rewrite !filter_app, !length_app. simpl. lia.
Qed.

Lemma unsavable_retry_loop fuel : forall i n (st : state C),
  failed_emails st = repeat x n -> i < n ->
  snd (retry_loop C fuel i st) = false
  /\ failed_emails (fst (retry_loop C fuel i st)) = repeat x (n + fuel)
  /\ retries 1 "INBOX" (trace (fst (retry_loop C fuel i st))) =
     retries 1 "INBOX" (trace st) + fuel.
Proof.
  induction fuel as [|fuel IH]; intros i n st Hq Hi; simpl;
    rewrite Hq, nth_error_repeat by exact Hi; simpl.
  - rewrite Hq, Nat.add_0_r, Nat.add_0_r. auto.
  - destruct (unsavable_retry_one st) as [Hf Hr].
    destruct (IH (S i) (S n) (retry_one C 1 "INBOX" st)) as (H1 & H2 & H3).
    + rewrite Hf, Hq. simpl. now rewrite repeat_cons.
    + lia.
    + rewrite H1, H2, H3, Hr. repeat split; [f_equal; lia | lia].
Qed.

End RetryRequeue.

(** C4. The end-of-run retry on a message that fails again: with one
    message whose attachments can never be written, the retry loop
    does not end within any number of iterations; each iteration
    retries the same message once more and appends it to
    [failed_emails] again. *)
Theorem retry_pass_requeues_a_message_that_fails_again :
  forall fuel,
    let r := main unsavable_inbox fuel empty_store 0 in
    fst r = StillRetrying
    /\ retries 1 "INBOX" (trace (snd r)) = fuel
    /\ failed_emails (snd r) = repeat (1%Z, "INBOX") (S fuel).
Proof.
  intros fuel. cbv zeta. unfold main.
  destruct (main_pass unsavable_inbox (initial_state unsavable_inbox empty_store 0))
    as [[e|e] st1] eqn:E; [|vm_compute in E; discriminate].
  assert (Hq : failed_emails st1 = repeat (1%Z, "INBOX") 1
               /\ retries 1 "INBOX" (trace st1) = 0).
  { vm_compute in E. injection E as _ <-. split; reflexivity. }
  destruct Hq as [Hq Hr].
  destruct (unsavable_retry_loop fuel 0 1 st1 Hq (Nat.lt_0_1)) as (H1 & H2 & H3).
  destruct (retry_loop unsavable_inbox fuel 0 st1) as [st2 fin]. simpl in *.
  subst fin. rewrite H2, H3, Hr. repeat split.
Qed.

(* ------------------------------------------------------------------ *)
(** ** Relations kept by every step of a run *)

Section Closure.

Context (C : Capability).

Variable R : state C -> state C -> Prop.
Variable allowed : event -> Prop.

Hypothesis R_refl : forall st, R st st.
Hypothesis R_trans : forall a b c, R a b -> R b c -> R a c.
Hypothesis R_world : forall st w, R st (set_world st w).
Hypothesis R_emit : forall st ev, allowed ev -> R st (emit ev st).
Hypothesis R_log_error : forall st u f, R st (log_error C u f st).
Hypothesis R_mark :
  forall st row, R st (set_conn st (mark_email_downloaded (conn st) row)).
Hypothesis R_insert_email :
  forall st u f sj dt tx ht att mid,
    R st (set_conn st (insert_email (conn st) u f sj dt tx ht att mid)).
Hypothesis R_link :
  forall st pk msg, R st (set_conn st (link_participants (conn st) pk msg)).
Hypothesis allowed_fetch : forall f c, allowed (EvFetch f c).

(** [keeps m]: every run of [m], raising or not, relates its two states. *)
Definition keeps {A} (m : M C A) : Prop :=
  forall st r st', m st = (r, st') -> R st st'.

Lemma keeps_ret {A} (a : A) : keeps (ret a).
Proof. intros st r st' H. injection H as _ <-. apply R_refl. Qed.

Lemma keeps_raise {A} e : keeps (@raise C A e).
Proof. intros st r st' H. injection H as _ <-. apply R_refl. Qed.

Lemma keeps_lift {A} (x : result A) : keeps (lift_result x).
Proof. intros st r st' H. injection H as _ <-. apply R_refl. Qed.

Lemma keeps_bind {A B} (m : M C A) (k : A -> M C B) :
  keeps m -> (forall a, keeps (k a)) -> keeps (bind m k).
Proof.
  intros Hm Hk st r st'. unfold bind.
  destruct (m st) as [[a|e] st1] eqn:E; intros H.
  - eapply R_trans; [eapply Hm; exact E | eapply Hk; exact H].
  - injection H as _ <-. eapply Hm; exact E.
Qed.

Lemma keeps_call {A} (op : World C -> result A * World C) : keeps (call op).
Proof.
  intros st r st'. unfold call. destruct (op (world st)) as [r0 w].
  intros H. injection H as _ <-. apply R_world.
Qed.

Lemma keeps_tell ev : allowed ev -> keeps (tell ev).
Proof. intros Ha st r st' H. injection H as _ <-. now apply R_emit. Qed.

Lemma keeps_fetch_m f c : keeps (fetch_m C f c).
Proof.
  unfold fetch_m. apply keeps_bind; [apply keeps_tell, allowed_fetch|].
  intros _. apply keeps_call.
Qed.

Lemma keeps_extract msg u f : keeps (extract_email_data C msg u f).
Proof.
  unfold extract_email_data. apply keeps_bind; [|intros paths; apply keeps_ret].
  destruct (msg_attachments msg); [apply keeps_ret | apply keeps_call].
Qed.

Lemma keeps_get_or_create_email u f msg d : keeps (get_or_create_email_m C u f msg d).
Proof.
  intros st r st'. unfold get_or_create_email_m, get_or_create_email.
  destruct (find _ _); intros H; injection H as _ <-; apply R_insert_email.
Qed.

Lemma keeps_process_message f msg : keeps (process_message C f msg).
Proof.
  unfold process_message.
  apply keeps_bind; [apply keeps_extract|]. intros d.
  apply keeps_bind.
  { intros st r st' H. injection H as _ <-. apply R_mark. }
  intros _. apply keeps_bind; [apply keeps_get_or_create_email|]. intros pk.
  intros st r st' H. injection H as _ <-. apply R_link.
Qed.

Lemma message_loop_keeps f ex msgs : forall st, R st (message_loop C f ex msgs st).
Proof.
  induction msgs as [|m msgs IH]; intros st; simpl; [apply R_refl|].
  destruct (mem_uid (uid m) ex); [apply IH|].
  destruct (process_message C f m st) as [[[]|e] st1] eqn:E;
    (eapply R_trans; [eapply keeps_process_message; exact E|]).
  - apply IH.
  - eapply R_trans; [apply R_log_error | apply IH].
Qed.

Lemma keeps_batch_loop f ex batches : keeps (batch_loop C f ex batches).
Proof.
  induction batches as [|b batches IH]; simpl; [apply keeps_ret|].
  destruct (forallb _ b); [exact IH|].
  apply keeps_bind; [apply keeps_fetch_m|]. intros msgs.
  apply keeps_bind; [|intros _; exact IH].
  intros st r st' H. injection H as _ <-. apply message_loop_keeps.
Qed.

(** A folder attempt after its opening log line. *)
Lemma folder_attempt_keeps f n st r st' :
  folder_attempt C f n st = (r, st') -> R (emit (EvAttempt f n) st) st'.
Proof.
  intros H. unfold folder_attempt in H.
  unfold bind at 1 in H. unfold tell at 1 in H. cbv beta iota in H.
  set (st0 := emit (EvAttempt f n) st) in *. clearbody st0.
  unfold bind at 1 in H.
  destruct (call (folder_set C f) st0) as [[[]|e] st1] eqn:E1;
    [|injection H as _ <-; eapply keeps_call; exact E1].
  eapply R_trans; [eapply keeps_call; exact E1|].
  unfold bind at 1 in H.
  destruct (fetch_m C f (fetch_criterion (get_max_uid (conn st1) f)) st1)
    as [[msgs|e] st2] eqn:E2;
    [|injection H as _ <-; eapply keeps_fetch_m; exact E2].
  eapply R_trans; [eapply keeps_fetch_m; exact E2|].
  unfold bind at 1, lift_result, split_into_batches in H.
  eapply keeps_batch_loop; exact H.
Qed.

Hypothesis allowed_attempt : forall f n, allowed (EvAttempt f n).
Hypothesis allowed_attempt_failed : forall f n, allowed (EvAttemptFailed f n).
Hypothesis allowed_sleep : forall n, allowed (EvSleep n).
Hypothesis allowed_retry_ok : forall u f, allowed (EvRetryOk u f).
Hypothesis allowed_retry_failed : forall u f, allowed (EvRetryFailed u f).
Hypothesis R_record : forall st f, R st (record_failed_folder C f st).
Hypothesis R_set_uidvalidity :
  forall st f v, get_uidvalidity (conn st) f = None ->
                 R st (set_conn st (set_uidvalidity (conn st) f v)).

Lemma keeps_folder_attempt f n : keeps (folder_attempt C f n).
Proof.
  intros st r st' H. eapply R_trans; [|eapply folder_attempt_keeps; exact H].
  apply R_emit, allowed_attempt.
Qed.

Lemma while_attempts_keeps fuel limit f : forall attempt st,
  R st (while_attempts C fuel limit attempt f st).
Proof.
  induction fuel as [|fuel IH]; intros attempt st; simpl; [apply R_refl|].
  destruct (attempt <? limit); [|apply R_refl].
  destruct (folder_attempt C f (attempt + 1) st) as [[[]|e] st1] eqn:E;
    (eapply R_trans; [eapply keeps_folder_attempt; exact E|]); [apply R_refl|].
  eapply R_trans; [apply R_emit, allowed_attempt_failed|].
  destruct (attempt + 1 =? limit).
  - eapply R_trans; [apply R_record | apply IH].
  - eapply R_trans; [apply R_emit, allowed_sleep | apply IH].
Qed.

Lemma keeps_ensure f : keeps (ensure_folder_and_uidvalidity C f).
Proof.
  unfold ensure_folder_and_uidvalidity.
  apply keeps_bind; [apply keeps_call|]. intros _.
  apply keeps_bind; [apply keeps_call|]. intros status.
  destruct (status_uidvalidity status) as [cur|]; [|apply keeps_raise].
  intros st r st'.
  destruct (get_uidvalidity (conn st) f) as [sv|] eqn:E.
  - destruct (negb _); intros H; injection H as _ <-; apply R_refl.
  - intros H; injection H as _ <-. now apply R_set_uidvalidity.
Qed.

Lemma keeps_folder_loop folders : keeps (folder_loop C folders).
Proof.
  induction folders as [|f folders IH]; cbn [folder_loop]; [apply keeps_ret|].
  destruct (in_skip_folders f); [exact IH|].
  intros st r st'.
  destruct (ensure_folder_and_uidvalidity C f st) as [[[]|e] st1] eqn:E.
  - intros H. eapply R_trans; [eapply keeps_ensure; exact E|].
    eapply R_trans; [apply while_attempts_keeps | eapply IH; exact H].
  - destruct e; intros H; injection H as _ <-; eapply keeps_ensure; exact E.
Qed.

Lemma keeps_main_pass : keeps (main_pass C).
Proof.
  unfold main_pass.
  apply keeps_bind; [apply keeps_call|]. intros _.
  apply keeps_bind; [apply keeps_call|]. intros folders.
  apply keeps_folder_loop.
Qed.

Lemma keeps_retry_body u f : keeps (retry_body C u f).
Proof.
  unfold retry_body.
  apply keeps_bind; [apply keeps_call|]. intros _.
  apply keeps_bind; [apply keeps_call|]. intros _.
  apply keeps_bind; [apply keeps_fetch_m|]. intros [|msg rest]; [apply keeps_raise|].
  apply keeps_bind; [apply keeps_extract|]. intros d.
  apply keeps_bind.
  { intros st r st' H. injection H as _ <-. apply R_mark. }
  intros _. apply keeps_tell, allowed_retry_ok.
Qed.

Lemma retry_one_keeps u f st : R st (retry_one C u f st).
Proof.
  unfold retry_one.
  destruct (retry_body C u f st) as [[[]|e] st1] eqn:E;
    (eapply R_trans; [eapply keeps_retry_body; exact E|]); [apply R_refl|].
  eapply R_trans; [apply R_emit, allowed_retry_failed | apply R_log_error].
Qed.

Lemma retry_loop_keeps fuel : forall i st, R st (fst (retry_loop C fuel i st)).
Proof.
  induction fuel as [|fuel IH]; intros i st; simpl;
    destruct (nth_error (failed_emails st) i) as [[u f]|]; simpl;
    try apply R_refl.
  eapply R_trans; [apply retry_one_keeps | apply IH].
Qed.

Lemma main_keeps fuel db w :
  R (initial_state C db w) (snd (main C fuel db w)).
Proof.
  unfold main.
  destruct (main_pass C (initial_state C db w)) as [[e|e] st1] eqn:E; simpl.
  - pose proof (retry_loop_keeps fuel 0 st1) as H.
    destruct (retry_loop C fuel 0 st1) as [st2 fin]. simpl in *.
    eapply R_trans; [eapply keeps_main_pass; exact E | exact H].
  - eapply keeps_main_pass; exact E.
Qed.

End Closure.

(* ------------------------------------------------------------------ *)
(** ** The store and the queues only grow *)

Lemma participant_eqb_eq p q : participant_eqb p q = true <-> p = q.
Proof.
  destruct p as [[pk1 id1] r1], q as [[pk2 id2] r2]. unfold participant_eqb.
  rewrite !andb_true_iff, !Nat.eqb_eq. split.
  - intros [[-> ->] Hr]. destruct r1, r2; simpl in Hr; congruence.
  - intros H. injection H as -> -> ->. repeat split. now destruct r2.
Qed.

Lemma insert_participant_nodup s p :
  NoDup (email_participant s) -> NoDup (email_participant (insert_participant s p)).
Proof.
  intros Hn. unfold insert_participant.
  destruct (existsb (participant_eqb p) (email_participant s)) eqn:E; simpl; [exact Hn|].
  apply NoDup_app; [exact Hn | repeat constructor; intros [] |].
  intros x Hx [Heq|[]]. subst x.
  assert (existsb (participant_eqb p) (email_participant s) = true).
  { apply existsb_exists. exists p. split; [exact Hx | now apply participant_eqb_eq]. }
  congruence.
Qed.

Lemma add_participant_nodup s pk e r :
  NoDup (email_participant s) -> NoDup (email_participant (add_participant s pk e r)).
Proof.
  intros Hn. unfold add_participant.
  destruct (get_or_create_email_address_frame s e) as (_ & _ & _ & H).
  cbv zeta in H.
  destruct (get_or_create_email_address s e) as [s1 [id|]]; simpl in H;
    rewrite <- H in Hn; [|exact Hn].
  destruct (id =? 0); [exact Hn | now apply insert_participant_nodup].
Qed.

Lemma add_participants_nodup addrs : forall s pk r,
  NoDup (email_participant s) ->
  NoDup (email_participant (add_participants s pk addrs r)).
Proof.
  unfold add_participants.
  induction addrs as [|a addrs IH]; intros s pk r Hn; simpl; [exact Hn|].
  apply IH. now apply add_participant_nodup.
Qed.

Lemma link_participants_nodup s pk msg :
  NoDup (email_participant s) ->
  NoDup (email_participant (link_participants s pk msg)).
Proof.
  intros Hn. unfold link_participants.
  repeat apply add_participants_nodup. now apply add_participant_nodup.
Qed.

Lemma get_uidvalidity_set s f v g :
  get_uidvalidity (set_uidvalidity s f v) g =
  if (g =? f)%string then Some v else get_uidvalidity s g.
Proof.
  unfold get_uidvalidity, set_uidvalidity. simpl.
  induction (folder_uidvalidity s) as [|[k x] l IH]; simpl.
  - rewrite (String.eqb_sym f g). now destruct (g =? f)%string.
  - destruct (String.eqb_spec k f) as [->|Hk]; simpl.
    + rewrite IH. rewrite (String.eqb_sym f g). now destruct (g =? f)%string.
    + destruct (String.eqb_spec k g) as [->|Hg]; simpl.
      * destruct (String.eqb_spec g f); [congruence | reflexivity].
      * exact IH.
Qed.

(** What a later store keeps of an earlier one. *)
Definition store_grows (s s' : store) : Prop :=
  (exists added, downloaded_emails s' = downloaded_emails s ++ added)
  /\ (forall f v, get_uidvalidity s f = Some v -> get_uidvalidity s' f = Some v)
  /\ (NoDup (email_participant s) -> NoDup (email_participant s')).

Lemma store_grows_refl s : store_grows s s.
Proof. repeat split; auto. exists []. now rewrite app_nil_r. Qed.

Lemma store_grows_trans a b c : store_grows a b -> store_grows b c -> store_grows a c.
Proof.
  intros ([x Hx] & Hu & Hn) ([y Hy] & Hu' & Hn'). repeat split; auto.
  exists (x ++ y). now rewrite Hy, Hx, app_assoc.
Qed.

Lemma store_grows_frame s s' :
  downloaded_emails s' = downloaded_emails s ->
  folder_uidvalidity s' = folder_uidvalidity s ->
  (NoDup (email_participant s) -> NoDup (email_participant s')) ->
  store_grows s s'.
Proof.
  intros Hd Hu Hn. repeat split; auto.
  - exists []. now rewrite app_nil_r.
  - unfold get_uidvalidity. now rewrite Hu.
Qed.

Lemma mark_email_downloaded_grows s row : store_grows s (mark_email_downloaded s row).
Proof.
  destruct (mark_email_downloaded_frame s row) as (F1 & _ & _ & F4). cbv zeta in *.
  repeat split.
  - destruct (mark_email_downloaded_rows s row) as [E|[_ E]]; rewrite E;
      [exists []; now rewrite app_nil_r | eexists; reflexivity].
  - unfold get_uidvalidity. now rewrite F1.
  - now rewrite F4.
Qed.

Lemma insert_email_grows s u f sj dt tx ht att mid :
  store_grows s (insert_email s u f sj dt tx ht att mid).
Proof. apply store_grows_frame; auto. Qed.

Lemma link_participants_grows s pk msg : store_grows s (link_participants s pk msg).
Proof.
  destruct (link_participants_frame s pk msg) as (F1 & F2 & _). cbv zeta in *.
  apply store_grows_frame; auto. apply link_participants_nodup.
Qed.

Lemma set_uidvalidity_grows s f v :
  get_uidvalidity s f = None -> store_grows s (set_uidvalidity s f v).
Proof.
  intros Hn. repeat split; auto.
  - exists []. simpl. now rewrite app_nil_r.
  - intros g x Hg. rewrite get_uidvalidity_set.
    destruct (String.eqb_spec g f) as [->|]; [congruence | exact Hg].
Qed.

Section Growth.

Context (C : Capability).

Definition grows (st st' : state C) : Prop :=
  store_grows (conn st) (conn st')
  /\ (exists q, failed_emails st' = failed_emails st ++ q)
  /\ (exists ff, failed_folders st' = failed_folders st ++ ff)
  /\ (exists d, trace st' = trace st ++ d).

Lemma grows_refl st : grows st st.
Proof.
  split; [apply store_grows_refl|].
  repeat split; exists []; now rewrite app_nil_r.
Qed.

Lemma grows_trans a b c : grows a b -> grows b c -> grows a c.
Proof.
  intros (S1 & [q1 Q1] & [f1 F1] & [d1 D1]) (S2 & [q2 Q2] & [f2 F2] & [d2 D2]).
  split; [|split; [|split]].
  - eapply store_grows_trans; eassumption.
  - exists (q1 ++ q2). now rewrite Q2, Q1, app_assoc.
  - exists (f1 ++ f2). now rewrite F2, F1, app_assoc.
  - exists (d1 ++ d2). now rewrite D2, D1, app_assoc.
Qed.

Lemma grows_conn st s :
  store_grows (conn st) s -> grows st (set_conn st s).
Proof.
  intros H. split; [exact H|].
  repeat split; simpl; exists []; now rewrite app_nil_r.
Qed.

Lemma grows_same_store (st st' : state C) q ff d :
  conn st' = conn st ->
  failed_emails st' = failed_emails st ++ q ->
  failed_folders st' = failed_folders st ++ ff ->
  trace st' = trace st ++ d ->
  grows st st'.
Proof.
  intros H1 H2 H3 H4. unfold grows. rewrite H1.
  split; [apply store_grows_refl|].
  split; [exists q; exact H2|]. split; [exists ff; exact H3 | exists d; exact H4].
Qed.

Definition any_event (ev : event) : Prop := True.

Lemma grows_world st w : grows st (set_world st w).
Proof.
  eapply grows_same_store with (q := []) (ff := []) (d := []);
    try reflexivity; simpl; now rewrite app_nil_r.
Qed.

Lemma grows_emit st ev : any_event ev -> grows st (emit ev st).
Proof.
  intros _. eapply grows_same_store with (q := []) (ff := []);
    try reflexivity; simpl; now rewrite app_nil_r.
Qed.

Lemma grows_log_error st u f : grows st (log_error C u f st).
Proof.
  eapply grows_same_store with (ff := []); try reflexivity;
    simpl; now rewrite app_nil_r.
Qed.

Lemma grows_mark st row :
  grows st (set_conn st (mark_email_downloaded (conn st) row)).
Proof. apply grows_conn, mark_email_downloaded_grows. Qed.

Lemma grows_insert_email st u f sj dt tx ht att mid :
  grows st (set_conn st (insert_email (conn st) u f sj dt tx ht att mid)).
Proof. apply grows_conn, insert_email_grows. Qed.

Lemma grows_link st pk msg :
  grows st (set_conn st (link_participants (conn st) pk msg)).
Proof. apply grows_conn, link_participants_grows. Qed.

Lemma grows_record st f : grows st (record_failed_folder C f st).
Proof.
  eapply grows_same_store with (q := []) (d := []); try reflexivity;
    simpl; now rewrite app_nil_r.
Qed.

Lemma grows_set_uidvalidity st f v :
  get_uidvalidity (conn st) f = None ->
  grows st (set_conn st (set_uidvalidity (conn st) f v)).
Proof. intros H. now apply grows_conn, set_uidvalidity_grows. Qed.

Ltac grows_instance :=
  solve [ exact grows_refl | exact grows_trans | exact grows_world
        | exact grows_emit | exact grows_log_error | exact grows_mark
        | exact grows_insert_email | exact grows_link | exact grows_record
        | exact grows_set_uidvalidity | intros; exact I ].

(** Whatever part of a run leads from [st] to [st'], [st'] extends
    [st]. *)
Lemma grows_process_message f msg st r st' :
  process_message C f msg st = (r, st') -> grows st st'.
Proof.
  revert st r st'. apply (@keeps_process_message C grows); grows_instance.
Qed.

Lemma grows_message_loop f ex msgs st : grows st (message_loop C f ex msgs st).
Proof. apply (@message_loop_keeps C grows); grows_instance. Qed.

Lemma grows_batch_loop f ex batches st r st' :
  batch_loop C f ex batches st = (r, st') -> grows st st'.
Proof.
  revert st r st'. apply (@keeps_batch_loop C grows any_event); grows_instance.
Qed.

Lemma grows_folder_attempt f n st r st' :
  folder_attempt C f n st = (r, st') -> grows st st'.
Proof.
  revert st r st'. apply (@keeps_folder_attempt C grows any_event); grows_instance.
Qed.

Lemma grows_while_attempts fuel limit f attempt st :
  grows st (while_attempts C fuel limit attempt f st).
Proof. apply (@while_attempts_keeps C grows any_event); grows_instance. Qed.

Lemma grows_ensure f st r st' :
  ensure_folder_and_uidvalidity C f st = (r, st') -> grows st st'.
Proof.
  revert st r st'. apply (@keeps_ensure C grows); grows_instance.
Qed.

Lemma grows_folder_loop folders st r st' :
  folder_loop C folders st = (r, st') -> grows st st'.
Proof.
  revert st r st'. apply (@keeps_folder_loop C grows any_event); grows_instance.
Qed.

Lemma grows_main_pass st r st' : main_pass C st = (r, st') -> grows st st'.
Proof.
  revert st r st'. apply (@keeps_main_pass C grows any_event); grows_instance.
Qed.

Lemma grows_retry_one u f st : grows st (retry_one C u f st).
Proof. apply (@retry_one_keeps C grows any_event); grows_instance. Qed.

Lemma grows_retry_loop fuel i st : grows st (fst (retry_loop C fuel i st)).
Proof. apply (@retry_loop_keeps C grows any_event); grows_instance. Qed.

Lemma grows_main fuel db w : grows (initial_state C db w) (snd (main C fuel db w)).
Proof. apply (@main_keeps C grows any_event); grows_instance. Qed.

End Growth.

(* ------------------------------------------------------------------ *)
(** ** The folder retry policy *)

Section RetryPolicy.

Context (C : Capability).

(** A step that neither touches [failed_folders] nor tells anything of
    the retry policy. *)
Definition quiet (st st' : state C) : Prop :=
  failed_folders st' = failed_folders st
  /\ exists d, trace st' = trace st ++ d /\ policy_events d = [].

Lemma quiet_refl st : quiet st st.
Proof. split; [reflexivity|]. exists []. now rewrite app_nil_r. Qed.

Lemma quiet_trans a b c : quiet a b -> quiet b c -> quiet a c.
Proof.
  intros (F1 & d1 & T1 & P1) (F2 & d2 & T2 & P2). split; [congruence|].
  exists (d1 ++ d2). split; [now rewrite T2, T1, app_assoc|].
  unfold policy_events in *. now rewrite filter_app, P1, P2.
Qed.

Lemma quiet_same (st st' : state C) :
  failed_folders st' = failed_folders st -> trace st' = trace st -> quiet st st'.
Proof.
  intros H1 H2. split; [exact H1|]. exists []. now rewrite H2, app_nil_r.
Qed.

Lemma quiet_emit st ev : is_policy_event ev = false -> quiet st (emit ev st).
Proof.
  intros H. split; [reflexivity|]. exists [ev]. split; [reflexivity|].
  unfold policy_events. simpl. now rewrite H.
Qed.

Lemma quiet_log_error st u f : quiet st (log_error C u f st).
Proof.
  split; [reflexivity|]. exists [EvLogError u f]. split; reflexivity.
Qed.

(** A folder attempt tells its opening line and nothing else of the
    policy. *)
Lemma folder_attempt_quiet f n st r st' :
  folder_attempt C f n st = (r, st') ->
  failed_folders st' = failed_folders st
  /\ exists d, trace st' = trace st ++ EvAttempt f n :: d /\ policy_events d = [].
Proof.
  intros H.
  assert (Q : quiet (emit (EvAttempt f n) st) st').
  { revert H.
    apply (@folder_attempt_keeps C quiet (fun ev => is_policy_event ev = false));
      solve [ exact quiet_refl | exact quiet_trans | exact quiet_emit
            | exact quiet_log_error
            | intros; apply quiet_same; reflexivity
            | intros; reflexivity ]. }
  destruct Q as (F & d & T & P). split; [exact F|].
  exists d. split; [|exact P]. rewrite T. simpl. now rewrite <- app_assoc.
Qed.

End RetryPolicy.

(** The bound on the iterations of the attempt loop is never what
    ends it. *)
Lemma while_attempts_fuel_enough (C : Capability) f (st : state C) extra :
  while_attempts C (S retry_limit + extra) retry_limit 0 f st =
  while_attempts C (S retry_limit) retry_limit 0 f st.
Proof.
  unfold retry_limit.
  cbn [while_attempts Nat.ltb Nat.leb Nat.eqb Nat.add].
  destruct (folder_attempt C f 1 st) as [[[]|e1] sa]; [reflexivity|].
  destruct (folder_attempt C f 2 _) as [[[]|e2] sb]; [reflexivity|].
  destruct (folder_attempt C f 3 _) as [[[]|e3] sc]; [reflexivity|].
  destruct extra; reflexivity.
Qed.

(** C6. The folder retry policy.  Once the validity check of a folder
    has passed, the folder is attempted; an attempt that raises,
    whatever the exception, is followed by a 5-second sleep and the
    next attempt, up to the third: an attempt that returns ends the
    loop with nothing recorded, a third attempt that raises is
    followed by no sleep and the folder is appended to
    [failed_folders]; in every case the folder loop goes on with the
    remaining folders. *)
Theorem folder_retry_policy (C : Capability) folder rest (st st1 : state C) :
  in_skip_folders folder = false ->
  ensure_folder_and_uidvalidity C folder st = (Ok tt, st1) ->
  let st2 := while_attempts C (S retry_limit) retry_limit 0 folder st1 in
  let failed n sa := emit (EvAttemptFailed folder n) sa in
  let slept n sa := emit (EvSleep 5) (failed n sa) in
  folder_loop C (folder :: rest) st = folder_loop C rest st2
  /\ exists d,
       trace st2 = trace st1 ++ d
       /\ ((exists sa,
               folder_attempt C folder 1 st1 = (Ok tt, sa)
               /\ st2 = sa
               /\ policy_events d = [EvAttempt folder 1]
               /\ failed_folders st2 = failed_folders st1)
           \/ (exists e1 sa sb,
                 folder_attempt C folder 1 st1 = (Raise e1, sa)
                 /\ folder_attempt C folder 2 (slept 1 sa) = (Ok tt, sb)
                 /\ st2 = sb
                 /\ policy_events d =
                      [EvAttempt folder 1; EvAttemptFailed folder 1; EvSleep 5;
                       EvAttempt folder 2]
                 /\ failed_folders st2 = failed_folders st1)
           \/ (exists e1 e2 sa sb sc,
                 folder_attempt C folder 1 st1 = (Raise e1, sa)
                 /\ folder_attempt C folder 2 (slept 1 sa) = (Raise e2, sb)
                 /\ folder_attempt C folder 3 (slept 2 sb) = (Ok tt, sc)
                 /\ st2 = sc
                 /\ policy_events d =
                      [EvAttempt folder 1; EvAttemptFailed folder 1; EvSleep 5;
                       EvAttempt folder 2; EvAttemptFailed folder 2; EvSleep 5;
                       EvAttempt folder 3]
                 /\ failed_folders st2 = failed_folders st1)
           \/ (exists e1 e2 e3 sa sb sc,
                 folder_attempt C folder 1 st1 = (Raise e1, sa)
                 /\ folder_attempt C folder 2 (slept 1 sa) = (Raise e2, sb)
                 /\ folder_attempt C folder 3 (slept 2 sb) = (Raise e3, sc)
                 /\ st2 = record_failed_folder C folder (failed 3 sc)
                 /\ policy_events d =
                      [EvAttempt folder 1; EvAttemptFailed folder 1; EvSleep 5;
                       EvAttempt folder 2; EvAttemptFailed folder 2; EvSleep 5;
                       EvAttempt folder 3; EvAttemptFailed folder 3]
                 /\ failed_folders st2 = failed_folders st1 ++ [folder])).
Proof.
  intros Hskip Hens. cbv zeta. split.
  { cbn [folder_loop]. now rewrite Hskip, Hens. }
  unfold retry_limit.
  cbn [while_attempts Nat.ltb Nat.leb Nat.eqb Nat.add].
  destruct (folder_attempt C folder 1 st1) as [[[]|e1] sa] eqn:E1;
    destruct (folder_attempt_quiet C folder 1 st1 _ _ E1) as (F1 & d1 & T1 & P1).
  { exists (EvAttempt folder 1 :: d1). split; [exact T1|]. left. exists sa.
    split; [reflexivity|]. split; [reflexivity|]. split; [|exact F1].
    unfold policy_events in *. simpl. now rewrite P1. }
  destruct (folder_attempt C folder 2 _) as [[[]|e2] sb] eqn:E2;
    destruct (folder_attempt_quiet C folder 2 _ _ _ E2) as (F2 & d2 & T2 & P2);
    simpl in T2, F2.
  { exists ((EvAttempt folder 1 :: d1) ++ [EvAttemptFailed folder 1] ++ [EvSleep 5]
            ++ EvAttempt folder 2 :: d2).
    split.
    - rewrite T2, T1. now rewrite <- !app_assoc.
    - right. left. exists e1, sa, sb.
      split; [reflexivity|]. split; [exact E2|]. split; [reflexivity|].
      split; [|congruence].
      unfold policy_events in *. simpl. rewrite !filter_app. simpl.
      now rewrite P1, P2. }
  destruct (folder_attempt C folder 3 _) as [[[]|e3] sc] eqn:E3;
    destruct (folder_attempt_quiet C folder 3 _ _ _ E3) as (F3 & d3 & T3 & P3);
    simpl in T3, F3.
  { exists ((EvAttempt folder 1 :: d1) ++ [EvAttemptFailed folder 1] ++ [EvSleep 5]
            ++ (EvAttempt folder 2 :: d2) ++ [EvAttemptFailed folder 2] ++ [EvSleep 5]
            ++ EvAttempt folder 3 :: d3).
    split.
    - rewrite T3, T2, T1. now rewrite <- !app_assoc.
    - right. right. left. exists e1, e2, sa, sb, sc.
      split; [reflexivity|]. split; [exact E2|]. split; [exact E3|].
      split; [reflexivity|]. split; [|congruence].
      unfold policy_events in *. simpl. rewrite !filter_app. simpl.
      rewrite !filter_app. simpl. now rewrite P1, P2, P3. }
  exists ((EvAttempt folder 1 :: d1) ++ [EvAttemptFailed folder 1] ++ [EvSleep 5]
          ++ (EvAttempt folder 2 :: d2) ++ [EvAttemptFailed folder 2] ++ [EvSleep 5]
          ++ (EvAttempt folder 3 :: d3) ++ [EvAttemptFailed folder 3]).
  split.
  - simpl trace. rewrite T3, T2, T1. now rewrite <- !app_assoc.
  - right. right. right. exists e1, e2, e3, sa, sb, sc.
    split; [reflexivity|]. split; [exact E2|]. split; [exact E3|].
    split; [reflexivity|]. split; [|simpl; congruence].
    unfold policy_events in *. simpl. rewrite !filter_app. simpl.
    rewrite !filter_app. simpl. rewrite !filter_app. simpl.
    now rewrite P1, P2, P3.
Qed.

(** The policy at work: every fetch on folder [A] raises; the run
    attempts [A] three times and goes on with [B]. *)
Lemma folder_retry_policy_witness :
  let st0 := set_world (initial_state failing_A empty_store 0) 2 in
  let st1 := snd (ensure_folder_and_uidvalidity failing_A "A" st0) in
  let st2 := while_attempts failing_A (S retry_limit) retry_limit 0 "A" st1 in
  in_skip_folders "A" = false
  /\ ensure_folder_and_uidvalidity failing_A "A" st0 = (Ok tt, st1)
  /\ folder_loop failing_A ["A"; "B"] st0 = folder_loop failing_A ["B"] st2
  /\ failed_folders st2 = ["A"]
  /\ map d_folder (downloaded_emails (conn (snd (folder_loop failing_A ["B"] st2))))
     = ["B"].
Proof.
  cbv zeta.
  split; [reflexivity|]. split; [vm_compute; reflexivity|].
  split; [|vm_compute; split; reflexivity].
  apply (folder_retry_policy failing_A "A" ["B"]); vm_compute; reflexivity.
Defined.

(* ------------------------------------------------------------------ *)
(** ** UIDVALIDITY skew *)

(** C2, as stated, fails.  On a UIDVALIDITY mismatch the check tells
    "Aborting backup." and raises "Backup halted.", but [main] leaves
    the folder loop with [break] and goes on to the end-of-run retry,
    which writes.  Folder [A]'s only message is queued during the main
    pass; folder [B]'s stored UIDVALIDITY (100) differs from the
    reported one (200) and the folder loop breaks with an empty
    [downloaded_emails]; the retry then stores the queued message. *)
Theorem uidvalidity_skew_then_retry_writes :
  let at_skew := main_pass skewed (initial_state skewed skewed_store 0) in
  let final := main skewed 5 skewed_store 0 in
  get_uidvalidity skewed_store "B" = Some 100%Z
  /\ status_uidvalidity (Scripted.mb_status skewed_mailbox "B") = Some 200%Z
  /\ fst at_skew = Ok LoopBreak
  /\ downloaded_emails (conn (snd at_skew)) = []
  /\ fst final = Completed LoopBreak
  /\ map d_uid (downloaded_emails (conn (snd final))) = [1%Z]
  /\ conn (snd final) <> conn (snd at_skew).
Proof.
  vm_compute. repeat split. discriminate.
Qed.

(** What the mismatch does stop.  When the stored UIDVALIDITY of a
    folder differs from the value its status reports, the folder loop
    ends at that folder: neither it nor any later folder is processed,
    no fetch is issued and the store, the queues and the trace are as
    they were.  What the run still does is the end-of-run retry, which
    only appends raw [downloaded_emails] rows for pairs already
    queued. *)
Lemma uidvalidity_skew_halts_folder_loop (C : Capability) folder rest
        (st : state C) w1 status w2 stored current :
  in_skip_folders folder = false ->
  folder_set C folder (world st) = (Ok tt, w1) ->
  folder_status C folder w1 = (Ok status, w2) ->
  status_uidvalidity status = Some current ->
  get_uidvalidity (conn st) folder = Some stored ->
  stored <> current ->
  folder_loop C (folder :: rest) st = (Ok LoopBreak, set_world st w2)
  /\ forall fuel,
       let st' := fst (retry_loop C fuel 0 (set_world st w2)) in
       email (conn st') = email (conn st)
       /\ email_participant (conn st') = email_participant (conn st)
       /\ email_address (conn st') = email_address (conn st)
       /\ folder_uidvalidity (conn st') = folder_uidvalidity (conn st)
       /\ exists added,
            downloaded_emails (conn st') = downloaded_emails (conn st) ++ added
            /\ forall r, In r added -> In (d_uid r, d_folder r) (failed_emails st').
Proof.
  intros Hskip Hset Hstatus Hcur Hstored Hne. split.
  - cbn [folder_loop]. rewrite Hskip.
    unfold ensure_folder_and_uidvalidity. unfold_m. rewrite Hset. simpl.
    rewrite Hstatus. simpl. rewrite Hcur. simpl. rewrite Hstored.
    destruct (Z.eqb_spec stored current) as [Heq|_]; [contradiction|].
    reflexivity.
  - intros fuel.
    destruct (retry_loop_raw_only C fuel 0 (set_world st w2))
      as (H1 & H2 & H3 & H4 & _ & _ & H7).
    cbv zeta. simpl in *. auto.
Qed.

Lemma uidvalidity_skew_halts_folder_loop_witness :
  let st_B :=
    while_attempts skewed (S retry_limit) retry_limit 0 "A"
      (snd (ensure_folder_and_uidvalidity skewed "A"
              (set_world (initial_state skewed skewed_store 0) 2))) in
  world st_B = 8
  /\ failed_emails st_B = [(1%Z, "A")]
  /\ folder_loop skewed ["B"] st_B = (Ok LoopBreak, set_world st_B 10).
Proof.
  cbv zeta. split; [reflexivity|]. split; [reflexivity|].
  apply (uidvalidity_skew_halts_folder_loop skewed "B" [] _ 9
           [("UIDVALIDITY", 200%Z)] 10 100%Z 200%Z);
    try (vm_compute; reflexivity).
  discriminate.
Defined.

(* ------------------------------------------------------------------ *)
(** ** Isolation of per-message failures *)

Lemma is_email_downloaded_app s u f :
  forall added s',
    downloaded_emails s' = downloaded_emails s ++ added ->
    is_email_downloaded s u f = true -> is_email_downloaded s' u f = true.
Proof.
  intros added s' H. unfold is_email_downloaded. rewrite H, existsb_app.
  intros ->. reflexivity.
Qed.

Lemma is_email_downloaded_grows s s' u f :
  store_grows s s' ->
  is_email_downloaded s u f = true -> is_email_downloaded s' u f = true.
Proof. intros ([added H] & _). now apply is_email_downloaded_app with added. Qed.

Lemma mark_email_downloaded_stored s row :
  is_email_downloaded (mark_email_downloaded s row) (d_uid row) (d_folder row) = true.
Proof.
  unfold mark_email_downloaded.
  destruct (is_email_downloaded s (d_uid row) (d_folder row)) eqn:E; [exact E|].
  unfold is_email_downloaded. simpl. rewrite existsb_app. simpl.
  unfold row_has_key. rewrite Z.eqb_refl, String.eqb_refl. simpl.
  now rewrite orb_true_r.
Qed.

Section Isolation.

Context (C : Capability).

Definition stored (st : state C) (u : Z) (f : string) : Prop :=
  is_email_downloaded (conn st) u f = true.

Definition queued (st : state C) (u : Z) (f : string) : Prop :=
  In (u, f) (failed_emails st).

Lemma stored_grows st st' u f : grows C st st' -> stored st u f -> stored st' u f.
Proof. intros (H & _). now apply is_email_downloaded_grows. Qed.

Lemma queued_grows st st' u f : grows C st st' -> queued st u f -> queued st' u f.
Proof.
  intros (_ & [q H] & _). unfold queued. rewrite H. intros Hq.
  apply in_or_app. now left.
Qed.

(** The extraction of [m] never raises: [m] has no attachment, or
    the world never refuses to write them. *)
Definition extractable (m : message) (f : string) : Prop :=
  forall st, exists d st', extract_email_data C m (uid m) f st = (Ok d, st').

(** One message: it is stored unless its extraction raised. *)
Lemma process_message_stored f m st r st' :
  process_message C f m st = (r, st') ->
  (r = Ok tt \/ extractable m f) -> stored st' (uid m) f.
Proof.
  unfold process_message. unfold bind at 1.
  destruct (extract_email_data C m (uid m) f st) as [[d|e] st1] eqn:E1.
  - destruct (extract_email_data_frame C _ _ _ _ _ _ E1) as (C1 & _).
    unfold bind at 1, update_conn at 1. cbv beta iota.
    set (st2 := set_conn st1 (mark_email_downloaded (conn st1)
                                (downloaded_of (uid m) f m d))).
    assert (S2 : stored st2 (uid m) f).
    { unfold stored, st2. simpl.
      apply (mark_email_downloaded_stored (conn st1) (downloaded_of (uid m) f m d)). }
    intros H _.
    assert (G : grows C st2 st').
    { unfold bind at 1, get_or_create_email_m, update_conn in H.
      destruct (get_or_create_email (conn st2) (uid m) f (subject m) (date m)
                  (text m) (html m) (first_attachment d) (message_id d))
        as [s3 [pk|]] eqn:E3; unfold get_or_create_email in E3;
        injection E3 as <- _; injection H as _ <-.
      - eapply grows_trans; [apply grows_insert_email|]. apply grows_link.
      - apply grows_insert_email. }
    eapply stored_grows; eassumption.
  - intros H [Hr|Hx].
    + injection H as <- _. discriminate.
    + destruct (Hx st) as (p & w' & Hp). congruence.
Qed.

Lemma message_loop_app f ex l1 : forall l2 st,
  message_loop C f ex (l1 ++ l2) st =
  message_loop C f ex l2 (message_loop C f ex l1 st).
Proof.
  induction l1 as [|m l1 IH]; intros l2 st; simpl; [reflexivity|].
  destruct (mem_uid (uid m) ex); [apply IH|].
  destruct (process_message C f m st) as [[[]|e] st1]; apply IH.
Qed.

(** Every message of a batch that is not already known ends up stored
    or queued; it is stored whenever its extraction cannot fail. *)
Lemma message_loop_each f ex msgs : forall st m,
  In m msgs -> mem_uid (uid m) ex = false ->
  let st' := message_loop C f ex msgs st in
  (stored st' (uid m) f \/ queued st' (uid m) f)
  /\ (extractable m f -> stored st' (uid m) f).
Proof.
  induction msgs as [|m0 msgs IH]; intros st m Hin Hex; [destruct Hin|].
  cbv zeta. cbn [message_loop].
  destruct Hin as [->|Hin].
  - rewrite Hex.
    destruct (process_message C f m st) as [[[]|e] st1] eqn:E.
    + assert (S1 : stored st1 (uid m) f)
        by (eapply process_message_stored; [exact E | now left]).
      assert (stored (message_loop C f ex msgs st1) (uid m) f)
        by (eapply stored_grows; [apply grows_message_loop | exact S1]).
      tauto.
    + split.
      * right. eapply queued_grows; [apply grows_message_loop|].
        unfold queued, log_error. simpl. apply in_or_app. right. now left.
      * intros Hx. eapply stored_grows; [apply grows_message_loop|].
        unfold stored, log_error. simpl.
        eapply process_message_stored; [exact E | now right].
  - destruct (mem_uid (uid m0) ex); [now apply IH|].
    destruct (process_message C f m0 st) as [[[]|e] st1]; now apply IH.
Qed.

End Isolation.

(** C5. Isolation inside a batch.  When the processing of message [m]
    raises, the exception does not leave the message loop: [m] is
    queued in [failed_emails] and the loop goes on with the messages
    after it.  Every other new message of the batch ends up stored in
    [downloaded_emails], or queued if its own processing raised, and
    is stored whenever the world accepts its attachments. *)
Theorem per_message_failure_is_isolated (C : Capability) folder existing
        pre m post (st : state C) e st_m :
  mem_uid (uid m) existing = false ->
  process_message C folder m (message_loop C folder existing pre st) = (Raise e, st_m) ->
  let final := message_loop C folder existing (pre ++ m :: post) st in
  final = message_loop C folder existing post (log_error C (uid m) folder st_m)
  /\ In (uid m, folder) (failed_emails final)
  /\ forall m',
       In m' (pre ++ post) -> mem_uid (uid m') existing = false ->
       (is_email_downloaded (conn final) (uid m') folder = true
        \/ In (uid m', folder) (failed_emails final))
       /\ (extractable C m' folder ->
           is_email_downloaded (conn final) (uid m') folder = true).
Proof.
  intros Hex Hraise. cbv zeta.
  assert (Hfinal : message_loop C folder existing (pre ++ m :: post) st =
                   message_loop C folder existing post (log_error C (uid m) folder st_m)).
  { rewrite message_loop_app. cbn [message_loop]. now rewrite Hex, Hraise. }
  split; [exact Hfinal|]. split.
  - rewrite Hfinal.
    apply (queued_grows C (log_error C (uid m) folder st_m)); [apply grows_message_loop|].
    unfold queued, log_error. simpl. apply in_or_app. right. now left.
  - intros m' Hin Hex'.
    apply (message_loop_each C folder existing (pre ++ m :: post) st m'); [|exact Hex'].
    apply in_app_or in Hin. apply in_or_app.
    destruct Hin as [H|H]; [now left | right; now right].
Qed.

Lemma per_message_failure_is_isolated_witness :
  let st := initial_state calm_inbox empty_store 0 in
  let m1 := Scripted.plain_message 1 "alice@example.com" None in
  let m2 := Scripted.plain_message 2 "bob@example.com" (Some "<m2@example.com>") in
  let final := message_loop calm_inbox "INBOX" [] mixed_batch st in
  fst (process_message calm_inbox "INBOX" m1 st) = Raise TypeError
  /\ In (1%Z, "INBOX") (failed_emails final)
  /\ is_email_downloaded (conn final) 2 "INBOX" = true.
Proof.
  cbv zeta.
  destruct (per_message_failure_is_isolated calm_inbox "INBOX" [] []
              (Scripted.plain_message 1 "alice@example.com" None)
              [Scripted.plain_message 2 "bob@example.com" (Some "<m2@example.com>")]
              (initial_state calm_inbox empty_store 0) TypeError
              (snd (process_message calm_inbox "INBOX"
                      (Scripted.plain_message 1 "alice@example.com" None)
                      (initial_state calm_inbox empty_store 0)))
              eq_refl eq_refl) as (_ & Hq & Hs).
  split; [reflexivity|]. split; [exact Hq|].
  apply (Hs (Scripted.plain_message 2 "bob@example.com" (Some "<m2@example.com>")));
    [left; reflexivity | reflexivity |].
  intros st. eexists. eexists. reflexivity.
Defined.

(* ------------------------------------------------------------------ *)
(** ** The largest stored UID *)

Local Open Scope Z_scope.

Lemma fold_left_max_ge l : forall a, a <= fold_left Z.max l a.
Proof.
  induction l as [|x l IH]; intros a; simpl; [lia|].
  specialize (IH (Z.max a x)). lia.
Qed.

Lemma fold_left_max_in l : forall a x, In x l -> x <= fold_left Z.max l a.
Proof.
  induction l as [|y l IH]; intros a x Hin; simpl; [destruct Hin|].
  destruct Hin as [->|Hin]; [|now apply IH].
  pose proof (fold_left_max_ge l (Z.max a x)). lia.
Qed.

Lemma fold_left_max_mem l : forall a, fold_left Z.max l a = a \/ In (fold_left Z.max l a) l.
Proof.
  induction l as [|y l IH]; intros a; simpl; [now left|].
  destruct (IH (Z.max a y)) as [H|H]; [|right; now right].
  rewrite H. destruct (Z.max_spec a y) as [[_ ->]|[_ ->]]; [right; now left | now left].
Qed.

Lemma max_list_ge l m : max_list l = Some m -> forall x, In x l -> x <= m.
Proof.
  destruct l as [|u r]; [discriminate|]. simpl. intros H x Hin. injection H as <-.
  destruct Hin as [->|Hin]; [apply fold_left_max_ge | now apply fold_left_max_in].
Qed.

Lemma max_list_in l m : max_list l = Some m -> In m l.
Proof.
  destruct l as [|u r]; [discriminate|]. simpl. intros H. injection H as <-.
  destruct (fold_left_max_mem r u) as [->|H]; [now left | now right].
Qed.

Lemma max_list_app l l' m :
  max_list l = Some m -> exists m', max_list (l ++ l') = Some m' /\ m <= m'.
Proof.
  destruct l as [|u r]; [discriminate|]. simpl. intros H. injection H as <-.
  eexists. split; [reflexivity|]. rewrite fold_left_app. apply fold_left_max_ge.
Qed.

Lemma uids_of_folder_app s s' added f :
  downloaded_emails s' = downloaded_emails s ++ added ->
  uids_of_folder s' f =
  uids_of_folder s f ++ map d_uid (filter (fun r => (d_folder r =? f)%string) added).
Proof. intros H. unfold uids_of_folder. now rewrite H, filter_app, map_app. Qed.

Lemma get_max_uid_grows s s' f m :
  store_grows s s' -> get_max_uid s f = Some m ->
  exists m', get_max_uid s' f = Some m' /\ m <= m'.
Proof.
  intros ([added H] & _) Hm. unfold get_max_uid in *.
  rewrite (uids_of_folder_app s s' added f H). now apply max_list_app.
Qed.

Lemma mem_uid_in u l : mem_uid u l = true <-> In u l.
Proof.
  unfold mem_uid. rewrite existsb_exists. split.
  - intros (x & Hx & E). apply Z.eqb_eq in E. now subst.
  - intros H. exists u. split; [exact H | apply Z.eqb_refl].
Qed.

Lemma chunks_subset fuel n : forall l b u,
  In b (chunks fuel n l) -> In u b -> In u l.
Proof.
  induction fuel as [|fuel IH]; intros l b u Hb Hu; simpl in Hb; [destruct Hb|].
  destruct l as [|x l]; [destruct Hb|].
  rewrite <- (firstn_skipn n (x :: l)). apply in_or_app.
  destruct Hb as [<-|Hb]; [now left | right; eapply IH; eassumption].
Qed.

Local Close Scope Z_scope.

(* ------------------------------------------------------------------ *)
(** ** Incremental fetch *)

(** The range [U+1:*] on a folder whose highest UID is [U]: the
    messages with UID [U], and there is one. *)
Lemma range_after_highest_uid msgs U :
  highest_uid msgs = Some U ->
  select (fetch_criterion (Some U)) msgs <> []
  /\ forall m, In m (select (fetch_criterion (Some U)) msgs) -> uid m = U.
Proof.
  intros H. unfold select. rewrite H. simpl. split.
  - pose proof (max_list_in _ _ H) as Hin. apply in_map_iff in Hin.
    destruct Hin as (m & Hu & Hm). intros E.
    assert (Hf : In m (filter (fun m0 => (Z.min (U + 1) U <=? uid m0)%Z) msgs)).
    { apply filter_In. split; [exact Hm|]. apply Z.leb_le. lia. }
    rewrite E in Hf. destruct Hf.
  - intros m Hm. apply filter_In in Hm. destruct Hm as [Hm Hle].
    apply Z.leb_le in Hle.
    pose proof (max_list_ge _ _ H (uid m) (in_map uid _ _ Hm)). lia.
Qed.

(** C3, as stated, fails.  For a folder with max-known-uid [U] the run
    asks for the UID range [U+1:*] and tells "Only fetching UIDs >
    U"; but the range always holds the folder's highest UID, so once
    the folder is up to date the server answers with the message of
    UID [U], which is fetched again on every run (and then skipped as
    already stored).  On folder [Sent] with messages 50 to 53 all
    stored, the run requests [54:*] and is handed message 53. *)
Theorem incremental_fetch_fetches_highest_uid_again :
  (forall (C : Capability) mb f U w l w',
      serves C mb ->
      highest_uid (Scripted.mb_messages mb f) = Some U ->
      fetch C f (fetch_criterion (Some U)) w = (Ok l, w') ->
      l <> [] /\ forall m, In m l -> uid m = U)
  /\ let db := conn (snd (main sent 5 sent_store 0)) in
     let run := main sent 5 db 0 in
     get_max_uid db "Sent" = Some 53%Z
     /\ highest_uid (Scripted.mb_messages sent_mailbox "Sent") = Some 53%Z
     /\ fst run = Completed LoopDone
     /\ fetches (trace (snd run)) = [EvFetch "Sent" (CUidFrom 54)]
     /\ (forall w,
           fetch sent "Sent" (CUidFrom 54) w
           = (Ok [Scripted.plain_message 53 "me@example.com" (Some "<m53@example.com>")],
              S w))
     /\ conn (snd run) = db.
Proof.
  split.
  - intros C mb f U w l w' (_ & _ & Hfetch) HU Hf.
    apply Hfetch in Hf. subst l. now apply range_after_highest_uid.
  - cbv zeta. split; [vm_compute; reflexivity|]. split; [vm_compute; reflexivity|].
    split; [vm_compute; reflexivity|]. split; [vm_compute; reflexivity|].
    split; [intros w; reflexivity | vm_compute; reflexivity].
Qed.

(* ------------------------------------------------------------------ *)
(** ** Idempotence of the sync run *)

Lemma is_email_downloaded_uids s u f :
  is_email_downloaded s u f = true <-> In u (uids_of_folder s f).
Proof.
  unfold is_email_downloaded, uids_of_folder. rewrite existsb_exists, in_map_iff.
  split.
  - intros (r & Hr & Hk). unfold row_has_key in Hk. apply andb_true_iff in Hk.
    destruct Hk as [Hu Hf]. apply Z.eqb_eq in Hu.
    exists r. split; [exact Hu|]. apply filter_In. now split.
  - intros (r & Hu & Hr). apply filter_In in Hr. destruct Hr as [Hr Hf].
    exists r. split; [exact Hr|]. unfold row_has_key.
    now rewrite Hu, Z.eqb_refl, Hf.
Qed.

Lemma chunks_cover n : forall fuel l u,
  List.length l <= fuel -> In u l ->
  exists b, In b (chunks fuel (S n) l) /\ In u b.
Proof.
  induction fuel as [|fuel IH]; intros l u Hlen Hin.
  - destruct l; [destruct Hin | simpl in Hlen; lia].
  - destruct l as [|x l]; [destruct Hin|].
    cbn [chunks].
    rewrite <- (firstn_skipn (S n) (x :: l)) in Hin. apply in_app_or in Hin.
    destruct Hin as [Hin|Hin].
    + exists (firstn (S n) (x :: l)). split; [now left | exact Hin].
    + destruct (IH (skipn (S n) (x :: l)) u) as (b & Hb & Hu); [|exact Hin|].
      * rewrite length_skipn. simpl in *. lia.
      * exists b. split; [now right | exact Hu].
Qed.

Section SecondRun.

Context (C : Capability) (mb : Scripted.mailbox).
Hypothesis mailbox_unchanged : serves C mb.

(** The store agrees with the mailbox on folder [f]: the recorded
    UIDVALIDITY is the reported one, and whatever the next fetch
    predicate selects is already stored. *)
Definition validity_recorded (s : store) (f : string) : Prop :=
  forall v, status_uidvalidity (Scripted.mb_status mb f) = Some v ->
            get_uidvalidity s f = Some v.

Definition covered (s : store) (f : string) : Prop :=
  forall m,
    In m (select (fetch_criterion (get_max_uid s f)) (Scripted.mb_messages mb f)) ->
    is_email_downloaded s (uid m) f = true.

(** The validity check of folder [f] cannot pass: the status of [f]
    reports no UIDVALIDITY, or one that differs from the recorded
    value. *)
Definition halts (s : store) (f : string) : Prop :=
  match status_uidvalidity (Scripted.mb_status mb f) with
  | None => True
  | Some current =>
      exists stored, get_uidvalidity s f = Some stored /\ stored <> current
  end.

(** The folders, in the order of the folder loop, ask for nothing
    more: each is on the denylist, or agrees with the mailbox (with
    [cov] for "what the next fetch selects is there"), up to the end
    of the list or to a folder at which the loop halts. *)
Inductive settled (s : store) (cov : string -> Prop) : list string -> Prop :=
| settled_nil : settled s cov []
| settled_skip f rest :
    in_skip_folders f = true -> settled s cov rest -> settled s cov (f :: rest)
| settled_done f rest :
    in_skip_folders f = false -> validity_recorded s f -> cov f ->
    settled s cov rest -> settled s cov (f :: rest)
| settled_halt f rest :
    in_skip_folders f = false -> halts s f -> settled s cov (f :: rest).

Definition synced (s : store) : Prop :=
  settled s (covered s) (Scripted.mb_folders mb).

Lemma batch_loop_all_known f ex batches : forall st,
  (forall b u, In b batches -> In u b -> mem_uid u ex = true) ->
  batch_loop C f ex batches st = (Ok tt, st).
Proof.
  induction batches as [|b batches IH]; intros st H; simpl; [reflexivity|].
  assert (E : forallb (fun u => mem_uid u ex) b = true).
  { apply forallb_forall. intros u Hu. apply (H b u); [now left | exact Hu]. }
  rewrite E. apply IH. intros b' u Hb. apply H. now right.
Qed.

Lemma folder_attempt_synced f n st r st' :
  covered (conn st) f ->
  folder_attempt C f n st = (r, st') ->
  conn st' = conn st /\ failed_emails st' = failed_emails st.
Proof.
  intros Hc H. unfold folder_attempt in H.
  unfold bind at 1 in H. unfold tell at 1 in H. cbv beta iota in H.
  unfold bind at 1 in H.
  destruct (call (folder_set C f) (emit (EvAttempt f n) st)) as [[[]|e] st1] eqn:E1;
    destruct (call_frame C _ _ _ _ E1) as (C1 & Q1 & _); simpl in C1, Q1;
    [|injection H as _ <-; now split].
  unfold bind at 1 in H. unfold fetch_m in H. unfold bind at 1 in H.
  unfold tell at 1 in H. cbv beta iota in H.
  destruct (call (fetch C f (fetch_criterion (get_max_uid (conn st1) f)))
              (emit (EvFetch f (fetch_criterion (get_max_uid (conn st1) f))) st1))
    as [[msgs|e] st2] eqn:E2;
    destruct (call_frame C _ _ _ _ E2) as (C2 & Q2 & _ & _ & F2); simpl in C2, Q2, F2;
    [|injection H as _ <-; split; congruence].
  unfold bind at 1, lift_result, split_into_batches in H.
  rewrite batch_loop_all_known in H.
  - injection H as _ <-. split; congruence.
  - intros b u Hb Hu.
    apply chunks_subset with (u := u) in Hb; [|exact Hu].
    apply in_map_iff in Hb. destruct Hb as (m & <- & Hm).
    destruct mailbox_unchanged as (_ & _ & Hfetch).
    apply Hfetch in F2. subst msgs.
    apply mem_uid_in. unfold get_existing_uids.
    apply is_email_downloaded_uids. rewrite C2, C1. apply Hc.
    now rewrite <- C1.
Qed.

Lemma while_attempts_synced fuel limit f : forall attempt st,
  covered (conn st) f ->
  let st' := while_attempts C fuel limit attempt f st in
  conn st' = conn st /\ failed_emails st' = failed_emails st.
Proof.
  induction fuel as [|fuel IH]; intros attempt st Hc; simpl; [now split|].
  destruct (attempt <? limit); [|now split].
  destruct (folder_attempt C f (attempt + 1) st) as [[[]|e] st1] eqn:E;
    destruct (folder_attempt_synced f _ st _ _ Hc E) as [C1 Q1]; [now split|].
  destruct (attempt + 1 =? limit).
  - destruct (IH (attempt + 1)
                (record_failed_folder C f (emit (EvAttemptFailed f (attempt + 1)) st1)))
      as [C2 Q2]; [simpl; now rewrite C1|].
    simpl in *. split; congruence.
  - destruct (IH (attempt + 1)
                (emit (EvSleep 5) (emit (EvAttemptFailed f (attempt + 1)) st1)))
      as [C2 Q2]; [simpl; now rewrite C1|].
    simpl in *. split; congruence.
Qed.

Lemma ensure_synced f st r st' :
  validity_recorded (conn st) f ->
  ensure_folder_and_uidvalidity C f st = (r, st') ->
  conn st' = conn st /\ failed_emails st' = failed_emails st.
Proof.
  intros Hv. unfold ensure_folder_and_uidvalidity.
  unfold bind at 1.
  destruct (call (folder_set C f) st) as [[[]|e] st1] eqn:E1;
    destruct (call_frame C _ _ _ _ E1) as (C1 & Q1 & _);
    [|intros H; injection H as _ <-; now split].
  unfold bind at 1.
  destruct (call (folder_status C f) st1) as [[status|e] st2] eqn:E2;
    destruct (call_frame C _ _ _ _ E2) as (C2 & Q2 & _ & _ & F2);
    [|intros H; injection H as _ <-; split; congruence].
  destruct mailbox_unchanged as (_ & Hstatus & _).
  apply Hstatus in F2. subst status.
  destruct (status_uidvalidity (Scripted.mb_status mb f)) as [cur|] eqn:Ecur.
  - rewrite C2, C1, (Hv cur Ecur). rewrite Z.eqb_refl. simpl.
    intros H; injection H as _ <-. split; congruence.
  - unfold raise. intros H; injection H as _ <-. split; congruence.
Qed.

(** At a folder where the loop halts the check raises, whatever the
    world does, and writes nothing. *)
Lemma ensure_halts f st r st' :
  halts (conn st) f ->
  ensure_folder_and_uidvalidity C f st = (r, st') ->
  (exists e, r = Raise e)
  /\ conn st' = conn st /\ failed_emails st' = failed_emails st.
Proof.
  intros Hh. unfold ensure_folder_and_uidvalidity.
  unfold bind at 1.
  destruct (call (folder_set C f) st) as [[[]|e] st1] eqn:E1;
    destruct (call_frame C _ _ _ _ E1) as (C1 & Q1 & _);
    [|intros H; injection H as <- <-; split; [now exists e | now split]].
  unfold bind at 1.
  destruct (call (folder_status C f) st1) as [[status|e] st2] eqn:E2;
    destruct (call_frame C _ _ _ _ E2) as (C2 & Q2 & _ & _ & F2);
    [|intros H; injection H as <- <-; split; [now exists e | split; congruence]].
  destruct mailbox_unchanged as (_ & Hstatus & _).
  apply Hstatus in F2. subst status. unfold halts in Hh.
  destruct (status_uidvalidity (Scripted.mb_status mb f)) as [cur|] eqn:Ecur.
  - destruct Hh as (sv & Hsv & Hne). rewrite C2, C1, Hsv.
    destruct (Z.eqb_spec sv cur) as [Heq|_]; [contradiction|]. simpl.
    intros H; injection H as <- <-. split; [now exists RuntimeError | split; congruence].
  - unfold raise. intros H; injection H as <- <-.
    split; [now exists RuntimeError | split; congruence].
Qed.

Lemma folder_loop_settled folders : forall st r st',
  settled (conn st) (covered (conn st)) folders ->
  folder_loop C folders st = (r, st') ->
  conn st' = conn st /\ failed_emails st' = failed_emails st.
Proof.
  induction folders as [|f folders IH]; intros st r st' Hs; cbn [folder_loop].
  - intros H. injection H as _ <-. now split.
  - inversion Hs as [|f0 rest0 Hskip Hrest|f0 rest0 Hskip Hv Hc Hrest|f0 rest0 Hskip Hh];
      subst; rewrite Hskip.
    + now apply IH.
    + destruct (ensure_folder_and_uidvalidity C f st) as [[[]|e] st1] eqn:E;
        destruct (ensure_synced f st _ _ Hv E) as [C1 Q1].
      * destruct (while_attempts_synced (S retry_limit) retry_limit f 0 st1) as [C2 Q2];
          [now rewrite C1|].
        intros H. apply IH in H.
        -- destruct H as [C3 Q3]. split; congruence.
        -- now rewrite C2, C1.
      * destruct e; intros H; injection H as _ <-; now split.
    + destruct (ensure_folder_and_uidvalidity C f st) as [r1 st1] eqn:E.
      destruct (ensure_halts f st _ _ Hh E) as ((e & ->) & C1 & Q1).
      destruct e; intros H; injection H as _ <-; now split.
Qed.

(** A run on a store that agrees with the mailbox changes nothing in
    the store, whatever the world does meanwhile. *)
Lemma main_synced fuel db w : synced db -> conn (snd (main C fuel db w)) = db.
Proof.
  intros Hs. unfold main, main_pass. unfold bind at 1.
  destruct (call (login C) (initial_state C db w)) as [[[]|e] st1] eqn:E1;
    destruct (call_frame C _ _ _ _ E1) as (C1 & Q1 & _); simpl in C1, Q1;
    [|simpl; exact C1].
  unfold bind at 1.
  destruct (call (folder_list C) st1) as [[l|e] st2] eqn:E2;
    destruct (call_frame C _ _ _ _ E2) as (C2 & Q2 & _ & _ & F2);
    [|simpl; congruence].
  destruct mailbox_unchanged as (Hlist & _).
  apply Hlist in F2. subst l.
  assert (Hs2 : settled (conn st2) (covered (conn st2)) (Scripted.mb_folders mb))
    by (rewrite C2, C1; exact Hs).
  destruct (folder_loop C (Scripted.mb_folders mb) st2) as [[x|e] st3] eqn:E3;
    destruct (folder_loop_settled _ st2 _ _ Hs2 E3) as [C3 Q3];
    [|simpl; congruence].
  assert (Q : failed_emails st3 = []) by congruence.
  destruct fuel; simpl; rewrite Q; simpl; congruence.
Qed.

End SecondRun.

Section FirstRun.

Context (C : Capability) (mb : Scripted.mailbox).
Hypothesis mailbox_unchanged : serves C mb.

(** Whatever the next fetch predicate of folder [f] selects is stored,
    or at least queued for the end-of-run retry. *)
Definition covered_or_queued (st : state C) (f : string) : Prop :=
  forall m,
    In m (select (fetch_criterion (get_max_uid (conn st) f))
                 (Scripted.mb_messages mb f)) ->
    stored C st (uid m) f \/ queued C st (uid m) f.

Lemma select_criterion_shrinks s s' f msgs m :
  store_grows s s' ->
  In m (select (fetch_criterion (get_max_uid s' f)) msgs) ->
  In m (select (fetch_criterion (get_max_uid s f)) msgs).
Proof.
  intros G. unfold select. rewrite !filter_In. intros [Hin Hm]. split; [exact Hin|].
  destruct (get_max_uid s f) as [U|] eqn:E; [|reflexivity].
  destruct (get_max_uid_grows s s' f U G E) as (U' & E' & Hle).
  rewrite E' in Hm. simpl in *.
  destruct (highest_uid msgs) as [h|]; [|discriminate].
  apply Z.leb_le in Hm. apply Z.leb_le. lia.
Qed.

Lemma covered_or_queued_grows st st' f :
  grows C st st' -> covered_or_queued st f -> covered_or_queued st' f.
Proof.
  intros G H m Hm.
  apply (select_criterion_shrinks (conn st) (conn st')) in Hm; [|apply G].
  destruct (H m Hm) as [K|K];
    [left; eapply stored_grows | right; eapply queued_grows]; eassumption.
Qed.

Lemma validity_recorded_grows s s' f :
  store_grows s s' -> validity_recorded mb s f -> validity_recorded mb s' f.
Proof. intros (_ & Hu & _) H v Hv. apply Hu. now apply H. Qed.

Lemma halts_grows s s' f : store_grows s s' -> halts mb s f -> halts mb s' f.
Proof.
  intros (_ & Hu & _). unfold halts.
  destruct (status_uidvalidity (Scripted.mb_status mb f)) as [cur|]; [|auto].
  intros (sv & Hsv & Hne). exists sv. split; [now apply Hu | exact Hne].
Qed.

Lemma settled_grows st st' folders :
  grows C st st' ->
  settled mb (conn st) (covered_or_queued st) folders ->
  settled mb (conn st') (covered_or_queued st') folders.
Proof.
  intros G H. induction H as [|f rest Hskip _ IH|f rest Hskip Hv Hc _ IH|f rest Hskip Hh].
  - constructor.
  - now apply settled_skip.
  - apply settled_done; [exact Hskip | | | exact IH].
    + eapply validity_recorded_grows; [apply G | exact Hv].
    + eapply covered_or_queued_grows; eassumption.
  - apply settled_halt; [exact Hskip|]. eapply halts_grows; [apply G | exact Hh].
Qed.

Lemma settled_impl s (cov cov' : string -> Prop) folders :
  (forall f, cov f -> cov' f) -> settled mb s cov folders -> settled mb s cov' folders.
Proof.
  intros Hi H. induction H as [|f rest Hskip _ IH|f rest Hskip Hv Hc _ IH|f rest Hskip Hh].
  - constructor.
  - now apply settled_skip.
  - apply settled_done; auto.
  - now apply settled_halt.
Qed.

Lemma fetch_m_serves f c st r st' :
  fetch_m C f c st = (r, st') ->
  conn st' = conn st /\ failed_emails st' = failed_emails st
  /\ forall l, r = Ok l -> l = select c (Scripted.mb_messages mb f).
Proof.
  unfold fetch_m. unfold bind at 1. unfold tell at 1. cbv beta iota. intros H.
  destruct (call_frame C _ _ _ _ H) as (C1 & Q1 & _ & _ & F).
  repeat split; [exact C1 | exact Q1|].
  intros l ->. destruct mailbox_unchanged as (_ & _ & Hfetch).
  eapply Hfetch. exact F.
Qed.

Lemma batch_loop_covers f ex batches : forall st st',
  (forall u, mem_uid u ex = true -> stored C st u f) ->
  batch_loop C f ex batches st = (Ok tt, st') ->
  forall b m, In b batches -> In m (Scripted.mb_messages mb f) -> In (uid m) b ->
              stored C st' (uid m) f \/ queued C st' (uid m) f.
Proof.
  induction batches as [|b0 batches IH]; intros st st' Hex H b m Hb Hm Hu;
    [destruct Hb|].
  cbn [batch_loop] in H.
  destruct (forallb (fun u => mem_uid u ex) b0) eqn:Eall.
  - destruct Hb as [<-|Hb]; [|eapply IH; eassumption].
    left. eapply stored_grows; [eapply grows_batch_loop; exact H|].
    apply Hex. rewrite forallb_forall in Eall. now apply Eall.
  - unfold bind at 1 in H.
    destruct (fetch_m C f (CUidList b0) st) as [[msgs|e] st1] eqn:E1; [|discriminate].
    destruct (fetch_m_serves _ _ _ _ _ E1) as (C1 & Q1 & Hsel).
    specialize (Hsel msgs eq_refl).
    unfold bind at 1 in H. cbv beta iota in H.
    set (st2 := message_loop C f ex msgs st1) in *.
    assert (G2 : grows C st2 st') by (eapply grows_batch_loop; exact H).
    assert (Hex1 : forall u, mem_uid u ex = true -> stored C st1 u f).
    { intros u Hk. unfold stored. rewrite C1. now apply Hex. }
    assert (Hex2 : forall u, mem_uid u ex = true -> stored C st2 u f).
    { intros u Hk. eapply stored_grows; [apply grows_message_loop | now apply Hex1]. }
    destruct Hb as [<-|Hb]; [|eapply (IH st2); eassumption].
    destruct (mem_uid (uid m) ex) eqn:Ek.
    + left. eapply stored_grows; [exact G2 | now apply Hex2].
    + assert (Hin : In m msgs).
      { subst msgs. unfold select. apply filter_In. split; [exact Hm|].
        simpl. now apply mem_uid_in. }
      destruct (message_loop_each C f ex msgs st1 m Hin Ek) as [[K|K] _].
      * left. eapply stored_grows; eassumption.
      * right. eapply queued_grows; eassumption.
Qed.

Lemma folder_attempt_covers f n st st' :
  folder_attempt C f n st = (Ok tt, st') -> covered_or_queued st' f.
Proof.
  intros H.
  assert (G : grows C st st') by (eapply grows_folder_attempt; exact H).
  unfold folder_attempt in H.
  unfold bind at 1 in H. unfold tell at 1 in H. cbv beta iota in H.
  unfold bind at 1 in H.
  destruct (call (folder_set C f) (emit (EvAttempt f n) st)) as [[[]|e] st1] eqn:E1;
    [|discriminate].
  destruct (call_frame C _ _ _ _ E1) as (C1 & Q1 & _); simpl in C1, Q1.
  unfold bind at 1 in H.
  destruct (fetch_m C f (fetch_criterion (get_max_uid (conn st1) f)) st1)
    as [[msgs|e] st2] eqn:E2; [|discriminate].
  destruct (fetch_m_serves _ _ _ _ _ E2) as (C2 & Q2 & Hsel).
  specialize (Hsel msgs eq_refl).
  unfold bind at 1, lift_result, split_into_batches in H.
  intros m Hm.
  apply (select_criterion_shrinks (conn st) (conn st')) in Hm; [|apply G].
  rewrite <- C1, <- Hsel in Hm.
  destruct (chunks_cover 9 (List.length (map uid msgs)) (map uid msgs) (uid m))
    as (b & Hb & Hu); [lia | now apply in_map|].
  eapply batch_loop_covers; [|exact H | exact Hb | | exact Hu].
  - intros u Hk. unfold stored. apply is_email_downloaded_uids.
    now apply mem_uid_in.
  - rewrite Hsel in Hm. unfold select in Hm. apply filter_In in Hm. tauto.
Qed.

Lemma while_attempts_covers f st :
  let st' := while_attempts C (S retry_limit) retry_limit 0 f st in
  covered_or_queued st' f \/ failed_folders st' = failed_folders st ++ [f].
Proof.
  unfold retry_limit. cbn [while_attempts Nat.ltb Nat.leb Nat.eqb Nat.add].
  destruct (folder_attempt C f 1 st) as [[[]|e1] sa] eqn:E1;
    [left; eapply folder_attempt_covers; exact E1|].
  destruct (folder_attempt_quiet C f 1 st _ _ E1) as (F1 & _).
  destruct (folder_attempt C f 2 _) as [[[]|e2] sb] eqn:E2;
    [left; eapply folder_attempt_covers; exact E2|].
  destruct (folder_attempt_quiet C f 2 _ _ _ E2) as (F2 & _).
  destruct (folder_attempt C f 3 _) as [[[]|e3] sc] eqn:E3;
    [left; eapply folder_attempt_covers; exact E3|].
  destruct (folder_attempt_quiet C f 3 _ _ _ E3) as (F3 & _).
  right. simpl in *. congruence.
Qed.

Lemma ensure_records f st st' :
  ensure_folder_and_uidvalidity C f st = (Ok tt, st') ->
  validity_recorded mb (conn st') f.
Proof.
  unfold ensure_folder_and_uidvalidity.
  unfold bind at 1.
  destruct (call (folder_set C f) st) as [[[]|e] st1] eqn:E1; [|discriminate].
  unfold bind at 1.
  destruct (call (folder_status C f) st1) as [[status|e] st2] eqn:E2; [|discriminate].
  destruct (call_frame C _ _ _ _ E2) as (_ & _ & _ & _ & F2).
  destruct mailbox_unchanged as (_ & Hstatus & _).
  apply Hstatus in F2. subst status.
  destruct (status_uidvalidity (Scripted.mb_status mb f)) as [cur|] eqn:Ecur;
    [|discriminate].
  destruct (get_uidvalidity (conn st2) f) as [sv|] eqn:Esv.
  - destruct (Z.eqb_spec sv cur) as [->|Hne]; simpl; [|discriminate].
    intros H. injection H as <-. intros v Hv. congruence.
  - intros H. injection H as <-. intros v Hv. simpl.
    rewrite get_uidvalidity_set, String.eqb_refl. congruence.
Qed.

(** A [RuntimeError] of the validity check that is the check's own
    (the mail library raising none in select and status) means that
    the check cannot pass on this store. *)
Lemma ensure_runtime_error_halts f st st' :
  raises_no_runtime_error C ->
  ensure_folder_and_uidvalidity C f st = (Raise RuntimeError, st') ->
  halts mb (conn st') f.
Proof.
  intros [Hset Hstat]. unfold ensure_folder_and_uidvalidity.
  unfold bind at 1.
  destruct (call (folder_set C f) st) as [[[]|e] st1] eqn:E1;
    destruct (call_frame C _ _ _ _ E1) as (C1 & _ & _ & _ & F1).
  2: { intros H. injection H as -> _. exfalso. eapply Hset. exact F1. }
  unfold bind at 1.
  destruct (call (folder_status C f) st1) as [[status|e] st2] eqn:E2;
    destruct (call_frame C _ _ _ _ E2) as (C2 & _ & _ & _ & F2).
  2: { intros H. injection H as -> _. exfalso. eapply Hstat. exact F2. }
  destruct mailbox_unchanged as (_ & Hstatus & _).
  apply Hstatus in F2. subst status. unfold halts.
  destruct (status_uidvalidity (Scripted.mb_status mb f)) as [cur|] eqn:Ecur;
    [|intros _; exact I].
  destruct (get_uidvalidity (conn st2) f) as [sv|] eqn:Esv; [|discriminate].
  destruct (Z.eqb_spec sv cur) as [->|Hne]; simpl; [discriminate|].
  intros H. injection H as <-. exists sv. now split.
Qed.

Lemma app_eq_self {A} (l x : list A) : l ++ x = l -> x = [].
Proof.
  intros H. apply (app_inv_head l). now rewrite app_nil_r.
Qed.

Lemma folder_loop_settles folders : forall st x st',
  folder_loop C folders st = (Ok x, st') ->
  failed_folders st' = failed_folders st ->
  x = LoopDone \/ raises_no_runtime_error C ->
  settled mb (conn st') (covered_or_queued st') folders.
Proof.
  induction folders as [|g folders IH]; intros st x st' H Hff Hx; [constructor|].
  cbn [folder_loop] in H.
  destruct (in_skip_folders g) eqn:Eg.
  { apply settled_skip; [exact Eg | eapply IH; eassumption]. }
  destruct (ensure_folder_and_uidvalidity C g st) as [[[]|e] st1] eqn:E1.
  - set (st2 := while_attempts C (S retry_limit) retry_limit 0 g st1) in *.
    pose proof (grows_ensure C g st _ _ E1) as G1.
    pose proof (grows_while_attempts C (S retry_limit) retry_limit g 0 st1) as G2.
    fold st2 in G2.
    pose proof (grows_folder_loop C folders st2 _ _ H) as G3.
    destruct G1 as (_ & _ & [a Ha] & _).
    destruct G2 as (S2 & Q2 & [b Hb] & T2).
    destruct G3 as (S3 & Q3 & [c Hc] & T3).
    assert (Hnil : a = [] /\ b = [] /\ c = []).
    { rewrite Hc, Hb, Ha, <- !app_assoc in Hff. apply app_eq_self in Hff.
      apply app_eq_nil in Hff. destruct Hff as [-> Hff].
      apply app_eq_nil in Hff. tauto. }
    destruct Hnil as (-> & -> & ->). rewrite app_nil_r in Ha, Hb, Hc.
    assert (G23 : grows C st2 st').
    { split; [exact S3|]. split; [exact Q3|].
      split; [exists []; now rewrite app_nil_r|]. exact T3. }
    apply settled_done; [exact Eg | | |eapply (IH st2); eassumption].
    + eapply validity_recorded_grows; [apply G23|].
      eapply validity_recorded_grows; [exact S2|].
      eapply ensure_records; exact E1.
    + eapply covered_or_queued_grows; [exact G23|].
      destruct (while_attempts_covers g st1) as [K|K]; [exact K|].
      fold st2 in K. rewrite Hb in K. symmetry in K. apply app_eq_self in K.
      discriminate.
  - destruct e; try discriminate. injection H as <- <-.
    destruct Hx as [Hx|Hx]; [discriminate|].
    apply settled_halt; [exact Eg|]. eapply ensure_runtime_error_halts; eassumption.
Qed.

(** After a run that completed with no failed folder, the folders of
    the mailbox are settled, with what the next fetch selects stored
    or queued. *)
Lemma main_settles fuel db w x st1 :
  main C fuel db w = (Completed x, st1) ->
  failed_folders st1 = [] ->
  x = LoopDone \/ raises_no_runtime_error C ->
  settled mb (conn st1) (covered_or_queued st1) (Scripted.mb_folders mb).
Proof.
  unfold main. intros H Hff Hx.
  destruct (main_pass C (initial_state C db w)) as [[y|e] stm] eqn:E; [|discriminate].
  pose proof (grows_retry_loop C fuel 0 stm) as G.
  destruct (retry_loop C fuel 0 stm) as [st2 fin]. simpl in G.
  destruct fin; [|discriminate]. injection H as -> ->.
  assert (Hffm : failed_folders stm = []).
  { destruct G as (_ & _ & [c Hc] & _). rewrite Hff in Hc.
    symmetry in Hc. apply app_eq_nil in Hc. tauto. }
  unfold main_pass in E. unfold bind at 1 in E.
  destruct (call (login C) (initial_state C db w)) as [[[]|e] sa] eqn:E1;
    [|discriminate].
  destruct (call_frame C _ _ _ _ E1) as (_ & _ & Fa & _). simpl in Fa.
  unfold bind at 1 in E.
  destruct (call (folder_list C) sa) as [[l|e] sb] eqn:E2; [|discriminate].
  destruct (call_frame C _ _ _ _ E2) as (_ & _ & Fb & _ & F2).
  destruct mailbox_unchanged as (Hlist & _).
  apply Hlist in F2. subst l.
  eapply settled_grows; [exact G|].
  eapply folder_loop_settles; [exact E | congruence | exact Hx].
Qed.

End FirstRun.

Section RetryEnds.

Context (C : Capability).

Lemma retry_body_ok_stored u f st st' :
  retry_body C u f st = (Ok tt, st') -> stored C st' u f.
Proof.
  intros H.
  destruct (retry_body_cases C u f st _ _ H)
    as (_ & _ & _ & [(e & K & _)|(_ & msg & d & K)]); [discriminate|].
  unfold stored. rewrite K.
  apply (mark_email_downloaded_stored (conn st) (downloaded_of u f msg d)).
Qed.

Lemma nth_error_prefix {A} (l q : list A) j x :
  nth_error l j = Some x -> nth_error (l ++ q) j = Some x.
Proof.
  intros H. rewrite nth_error_app1; [exact H|].
  apply nth_error_Some. congruence.
Qed.

(** When the retry loop has ended, every queued pair from position
    [i] on is stored: a retry that failed put the pair back in the
    queue, so the last retry of each pair succeeded. *)
Lemma retry_loop_finished_stored fuel : forall i st st',
  retry_loop C fuel i st = (st', true) ->
  forall j u f, i <= j -> nth_error (failed_emails st') j = Some (u, f) ->
                stored C st' u f.
Proof.
  induction fuel as [|fuel IH]; intros i st st' H j u f Hij Hj; simpl in H.
  - destruct (nth_error (failed_emails st) i) as [[u0 f0]|] eqn:E; [discriminate|].
    injection H as <-. apply nth_error_None in E.
    assert (nth_error (failed_emails st) j = None) by (apply nth_error_None; lia).
    congruence.
  - destruct (nth_error (failed_emails st) i) as [[u0 f0]|] eqn:E.
    2: { injection H as <-. apply nth_error_None in E.
         assert (nth_error (failed_emails st) j = None) by (apply nth_error_None; lia).
         congruence. }
    pose proof (grows_retry_loop C fuel (S i) (retry_one C u0 f0 st)) as G.
    rewrite H in G. simpl in G.
    destruct (Nat.eq_dec j i) as [->|Hne].
    2: { apply (IH _ _ _ H j); [lia | exact Hj]. }
    assert (Hq : In (u0, f0) (failed_emails st)) by (eapply nth_error_In; exact E).
    pose proof (grows_retry_one C u0 f0 st) as G1.
    assert (Hsame : (u, f) = (u0, f0)).
    { destruct G as (_ & [q Q] & _). destruct G1 as (_ & [q1 Q1] & _).
      rewrite Q, Q1, <- app_assoc in Hj.
      rewrite (nth_error_prefix _ (q1 ++ q) _ _ E) in Hj. congruence. }
    injection Hsame as -> ->.
    unfold retry_one in *.
    destruct (retry_body C u0 f0 st) as [[[]|e] st1] eqn:Eb.
    + eapply stored_grows; [exact G|]. eapply retry_body_ok_stored; exact Eb.
    + destruct (retry_body_raw_only C u0 f0 st _ _ Hq Eb) as [_ Qb].
      apply (IH _ _ _ H (List.length (failed_emails st))).
      * apply Nat.le_succ_l. apply nth_error_Some. congruence.
      * destruct G as (_ & [q Q] & _). rewrite Q. apply nth_error_prefix.
        simpl. rewrite Qb. rewrite nth_error_app2 by lia.
        now rewrite Nat.sub_diag.
Qed.

Lemma main_completed_stored fuel db w x st1 :
  main C fuel db w = (Completed x, st1) ->
  forall u f, In (u, f) (failed_emails st1) -> stored C st1 u f.
Proof.
  unfold main.
  destruct (main_pass C (initial_state C db w)) as [[y|e] stm]; [|discriminate].
  destruct (retry_loop C fuel 0 stm) as [st2 fin] eqn:E.
  destruct fin; [|discriminate]. intros H. injection H as _ <-.
  intros u f Hin. apply In_nth_error in Hin. destruct Hin as [j Hj].
  eapply retry_loop_finished_stored; [exact E | apply Nat.le_0_l | exact Hj].
Qed.

End RetryEnds.

Lemma scripted_serves mb faults : serves (Scripted.capability mb faults) mb.
Proof.
  repeat split; simpl; unfold Scripted.answer; intros;
    match goal with
    | H : (if ?b then _ else _, _) = _ |- _ => destruct b; [discriminate|]
    end; congruence.
Qed.

Lemma scripted_raises_no_runtime_error mb faults :
  raises_no_runtime_error (Scripted.capability mb faults).
Proof.
  split; intros f w w'; simpl; unfold Scripted.answer;
    destruct (faults w _); discriminate.
Qed.

(** C1, as stated, fails: the mailbox is the same in both runs, but a
    first run that did not get through leaves work to the second.
    With [flaky], every fetch of the first run raises: the first run
    gives folder [A] up after three attempts and stores nothing, the
    second run stores the message.  With [interrupted], the first run
    queues the message of [A] and is then cut short by an exception of
    the status call on [B], before the queue is retried; the second
    run stores the message.  With [select_raises_at_first], the mail
    library's select raises a [RuntimeError] of its own on [A], which
    the run takes for a failed validity check; the second run stores
    the message. *)
Lemma second_run_resumes_after_incomplete_first_run :
  (let first := main flaky 5 empty_store 0 in
   let second := main flaky 5 (conn (snd first)) 100 in
   fst first = Completed LoopDone
   /\ failed_folders (snd first) = ["A"]
   /\ downloaded_emails (conn (snd first)) = []
   /\ fst second = Completed LoopDone
   /\ map d_uid (downloaded_emails (conn (snd second))) = [1%Z]
   /\ conn (snd second) <> conn (snd first))
  /\ (let first := main interrupted 5 empty_store 0 in
      let second := main interrupted 5 (conn (snd first)) 100 in
      fst first = ConnectionFailed
      /\ failed_folders (snd first) = []
      /\ failed_emails (snd first) = [(1%Z, "A")]
      /\ downloaded_emails (conn (snd first)) = []
      /\ fst second = Completed LoopDone
      /\ map d_uid (downloaded_emails (conn (snd second))) = [1%Z]
      /\ conn (snd second) <> conn (snd first))
  /\ (let first := main select_raises_at_first 5 empty_store 0 in
      let second := main select_raises_at_first 5 (conn (snd first)) 100 in
      fst first = Completed LoopBreak
      /\ failed_folders (snd first) = []
      /\ downloaded_emails (conn (snd first)) = []
      /\ fst second = Completed LoopDone
      /\ map d_uid (downloaded_emails (conn (snd second))) = [1%Z]
      /\ conn (snd second) <> conn (snd first)).
Proof.
  split; [|split]; vm_compute; repeat split; discriminate.
Qed.

(** C1, amended. Idempotence after a complete run.  Against a mailbox
    that does not change, if a first run ran to its end (no exception
    left the main pass and the retry loop ended) and recorded no
    failed folder, then a second run leaves the store as the first
    left it, whatever the world does during the second run: no row of
    [downloaded_emails], [email], [email_address] or
    [email_participant] is added; and the participation triples,
    unique before the first run, are unique after it.  This holds as
    well when the first run stopped at a UIDVALIDITY mismatch, the
    halt being the check's own (the mail library raising no
    [RuntimeError] in select and status). *)
Theorem sync_is_idempotent_after_clean_run (C : Capability) mb fuel1 db0 w0 x st1 :
  serves C mb ->
  main C fuel1 db0 w0 = (Completed x, st1) ->
  failed_folders st1 = [] ->
  x = LoopDone \/ raises_no_runtime_error C ->
  (NoDup (email_participant db0) -> NoDup (email_participant (conn st1)))
  /\ forall fuel2 w1, conn (snd (main C fuel2 (conn st1) w1)) = conn st1.
Proof.
  intros Hserves Hrun Hff Hx. split.
  - pose proof (grows_main C fuel1 db0 w0) as G. rewrite Hrun in G.
    destruct G as ((_ & _ & Hn) & _). exact Hn.
  - intros fuel2 w1. apply (main_synced C mb Hserves).
    unfold synced.
    apply (settled_impl mb (conn st1) (covered_or_queued C mb st1)).
    + intros f K m Hm. destruct (K m Hm) as [S|Q]; [exact S|].
      eapply main_completed_stored; eassumption.
    + eapply main_settles; eassumption.
Qed.

Lemma sync_is_idempotent_after_clean_run_witness :
  (let st1 := snd (main sent 5 sent_store 0) in
   main sent 5 sent_store 0 = (Completed LoopDone, st1)
   /\ failed_folders st1 = []
   /\ map d_uid (downloaded_emails (conn st1)) = [50; 51; 52; 53]%Z
   /\ forall fuel2 w1, conn (snd (main sent fuel2 (conn st1) w1)) = conn st1)
  /\ (let st1 := snd (main skewed 5 skewed_store 0) in
      main skewed 5 skewed_store 0 = (Completed LoopBreak, st1)
      /\ failed_folders st1 = []
      /\ map d_uid (downloaded_emails (conn st1)) = [1%Z]
      /\ forall fuel2 w1, conn (snd (main skewed fuel2 (conn st1) w1)) = conn st1).
Proof.
  cbv zeta. split.
  - split; [vm_compute; reflexivity|]. split; [reflexivity|].
    split; [vm_compute; reflexivity|].
    apply (sync_is_idempotent_after_clean_run sent sent_mailbox 5 sent_store 0 LoopDone).
    + apply scripted_serves.
    + vm_compute. reflexivity.
    + reflexivity.
    + now left.
  - split; [vm_compute; reflexivity|]. split; [reflexivity|].
    split; [vm_compute; reflexivity|].
    apply (sync_is_idempotent_after_clean_run skewed skewed_mailbox 5 skewed_store 0
             LoopBreak).
    + apply scripted_serves.
    + vm_compute. reflexivity.
    + reflexivity.
    + right. apply scripted_raises_no_runtime_error.
Defined.

(* ================================================================== *)
(** * Further properties of the code *)

(* ------------------------------------------------------------------ *)
(** ** Batches *)

Lemma chunks_partition n : forall fuel l,
  List.length l <= fuel ->
  List.concat (chunks fuel (S n) l) = l
  /\ Forall (fun b => b <> [] /\ List.length b <= S n) (chunks fuel (S n) l)
  /\ forall i, S i < List.length (chunks fuel (S n) l) ->
               List.length (nth i (chunks fuel (S n) l) []) = S n.
Proof.
  induction fuel as [|fuel IH]; intros l Hlen.
  - destruct l; [|simpl in Hlen; lia]. simpl. repeat split; [constructor | intros; lia].
  - destruct l as [|x l]; [simpl; repeat split; [constructor | intros; lia]|].
    cbn [chunks].
    destruct (IH (skipn (S n) (x :: l))) as (Hc & Hf & Hn).
    { rewrite length_skipn. simpl in *. lia. }
    split; [|split].
    + cbn [List.concat]. rewrite Hc. apply firstn_skipn.
    + constructor; [|exact Hf]. split; [simpl; discriminate|].
      rewrite length_firstn. lia.
    + intros i Hi. cbn [List.length] in Hi. destruct i as [|i].
      * cbn [nth]. rewrite length_firstn.
        destruct (chunks fuel (S n) (skipn (S n) (x :: l))) as [|b bs] eqn:E;
          [simpl in Hi; lia|].
        assert (Hne : skipn (S n) (x :: l) <> []).
        { intros Hnil. rewrite Hnil in E. destruct fuel; discriminate. }
        assert (S n < List.length (x :: l)).
        { destruct (Nat.lt_ge_cases (S n) (List.length (x :: l))) as [H|H]; [exact H|].
          exfalso. apply Hne. apply skipn_all2. exact H. }
        lia.
      * cbn [nth]. apply Hn. lia.
Qed.

(** X1. [split_into_batches] with a positive batch size cuts the list
    into consecutive pieces: their concatenation is the list, no piece
    is empty or longer than the batch size, and every piece but the
    last has exactly the batch size.  With batch size 0 it raises
    [ValueError]. *)
Theorem split_into_batches_partitions (uids : list Z) (n : nat) :
  split_into_batches uids 0 = Raise ValueError
  /\ exists batches,
       split_into_batches uids (S n) = Ok batches
       /\ List.concat batches = uids
       /\ Forall (fun b => b <> [] /\ List.length b <= S n) batches
       /\ forall i, S i < List.length batches ->
                    List.length (nth i batches []) = S n.
Proof.
  split; [reflexivity|].
  exists (chunks (List.length uids) (S n) uids). split; [reflexivity|].
  apply chunks_partition. apply Nat.le_refl.
Qed.

(* ------------------------------------------------------------------ *)
(** ** The raw table *)

(** X2. [get_max_uid] is [None] exactly when the folder has no row;
    otherwise it is the UID of a stored row of the folder and no
    stored UID of the folder exceeds it. *)
Theorem get_max_uid_is_the_largest_stored (s : store) (f : string) :
  (get_max_uid s f = None <->
   forall r, In r (downloaded_emails s) -> d_folder r <> f)
  /\ forall m, get_max_uid s f = Some m ->
               is_email_downloaded s m f = true
               /\ forall u, is_email_downloaded s u f = true -> (u <= m)%Z.
Proof.
  split.
  - unfold get_max_uid, uids_of_folder. split.
    + intros H r Hr Hf.
      assert (Hin : In (d_uid r)
                       (map d_uid (filter (fun r => (d_folder r =? f)%string)
                                          (downloaded_emails s)))).
      { apply in_map. apply filter_In. split; [exact Hr | now apply String.eqb_eq]. }
      destruct (map d_uid _); [destruct Hin | discriminate].
    + intros H.
      destruct (filter (fun r => (d_folder r =? f)%string) (downloaded_emails s))
        as [|r l] eqn:E; [reflexivity|].
      assert (Hr : In r (filter (fun r => (d_folder r =? f)%string) (downloaded_emails s)))
        by (rewrite E; now left).
      apply filter_In in Hr. destruct Hr as [Hr Hf]. apply String.eqb_eq in Hf.
      now destruct (H r Hr).
  - intros m Hm. unfold get_max_uid in Hm. split.
    + apply is_email_downloaded_uids. now apply max_list_in.
    + intros u Hu. apply is_email_downloaded_uids in Hu.
      eapply max_list_ge; eassumption.
Qed.

Lemma is_email_downloaded_keys s u f :
  is_email_downloaded s u f = true <-> In (u, f) (map row_key (downloaded_emails s)).
Proof.
  unfold is_email_downloaded. rewrite existsb_exists, in_map_iff. split.
  - intros (r & Hr & Hk). unfold row_has_key in Hk. apply andb_true_iff in Hk.
    destruct Hk as [Hu Hf]. apply Z.eqb_eq in Hu. apply String.eqb_eq in Hf.
    exists r. split; [unfold row_key; congruence | exact Hr].
  - intros (r & Hk & Hr). unfold row_key in Hk. injection Hk as <- <-.
    exists r. split; [exact Hr|]. unfold row_has_key.
    now rewrite Z.eqb_refl, String.eqb_refl.
Qed.

(** X3. [mark_email_downloaded] is an insert-if-absent under
    [(uid, folder)]: when the key is present the store is left as it
    is, whatever the other fields of the new record (the first record
    wins); afterwards the key is present; a second insert under the
    same key changes nothing; membership of every other key is as
    before; and keys that were unique stay unique. *)
Theorem mark_email_downloaded_inserts_if_absent (s : store) (r r' : downloaded_row) :
  (is_email_downloaded s (d_uid r) (d_folder r) = true -> mark_email_downloaded s r = s)
  /\ is_email_downloaded (mark_email_downloaded s r) (d_uid r) (d_folder r) = true
  /\ (row_key r' = row_key r ->
      mark_email_downloaded (mark_email_downloaded s r) r' = mark_email_downloaded s r)
  /\ (forall u f, (u, f) <> row_key r ->
        is_email_downloaded (mark_email_downloaded s r) u f = is_email_downloaded s u f)
  /\ (NoDup (map row_key (downloaded_emails s)) ->
      NoDup (map row_key (downloaded_emails (mark_email_downloaded s r)))).
Proof.
  split; [|split; [|split; [|split]]].
  - intros H. unfold mark_email_downloaded. now rewrite H.
  - apply mark_email_downloaded_stored.
  - intros Hk. unfold row_key in Hk. injection Hk as Hu Hf.
    unfold mark_email_downloaded at 1.
    rewrite Hu, Hf. now rewrite mark_email_downloaded_stored.
  - intros u f Hne. unfold mark_email_downloaded.
    destruct (is_email_downloaded s (d_uid r) (d_folder r)); [reflexivity|].
    unfold is_email_downloaded. simpl. rewrite existsb_app. simpl.
    unfold row_has_key at 2.
    destruct (Z.eqb_spec (d_uid r) u) as [Eu|Eu];
      destruct (String.eqb_spec (d_folder r) f) as [Ef|Ef]; simpl;
      try now rewrite orb_false_r.
    exfalso. apply Hne. unfold row_key. congruence.
  - intros Hn. unfold mark_email_downloaded.
    destruct (is_email_downloaded s (d_uid r) (d_folder r)) eqn:E; [exact Hn|].
    simpl. rewrite map_app. simpl. apply NoDup_app; [exact Hn | repeat constructor; intros [] |].
    intros k Hk [<-|[]].
    apply is_email_downloaded_keys in Hk. congruence.
Qed.

(* ------------------------------------------------------------------ *)
(** ** The validity table *)

(** X4. [set_uidvalidity] then [get_uidvalidity]: the folder reads
    the value just set, every other folder reads what it read before,
    and the table holds exactly one row for the folder, whatever it
    held. *)
Theorem set_uidvalidity_round_trip (s : store) (f : string) (v : Z) :
  get_uidvalidity (set_uidvalidity s f v) f = Some v
  /\ (forall g, g <> f ->
        get_uidvalidity (set_uidvalidity s f v) g = get_uidvalidity s g)
  /\ filter (fun p => (fst p =? f)%string)
            (folder_uidvalidity (set_uidvalidity s f v)) = [(f, v)]
  /\ (forall v', set_uidvalidity (set_uidvalidity s f v) f v' = set_uidvalidity s f v').
Proof.
  split; [|split; [|split]].
  - now rewrite get_uidvalidity_set, String.eqb_refl.
  - intros g Hg. rewrite get_uidvalidity_set.
    destruct (String.eqb_spec g f); [contradiction | reflexivity].
  - simpl. rewrite filter_app. simpl. rewrite String.eqb_refl.
    induction (folder_uidvalidity s) as [|[k x] l IH]; [reflexivity|].
    simpl. destruct (String.eqb_spec k f) as [->|Hk]; simpl; [exact IH|].
    destruct (String.eqb_spec k f); [contradiction | exact IH].
  - intros v'. unfold set_uidvalidity. simpl. f_equal.
    rewrite filter_app. simpl. rewrite String.eqb_refl. simpl.
    rewrite app_nil_r. f_equal.
    induction (folder_uidvalidity s) as [|[k x] l IH]; [reflexivity|].
    simpl. destruct (String.eqb_spec k f) as [->|Hk]; simpl; [exact IH|].
    destruct (String.eqb_spec k f); [contradiction|]. simpl. now rewrite IH.
Qed.

(* ------------------------------------------------------------------ *)
(** ** Address identities *)

Lemma find_app_found {A} (p : A -> bool) l l' x :
  find p l = Some x -> find p (l ++ l') = Some x.
Proof.
  induction l as [|a l IH]; simpl; [discriminate|].
  destruct (p a); [auto | exact IH].
Qed.

Lemma find_app_not_found {A} (p : A -> bool) l l' :
  find p l = None -> find p (l ++ l') = find p l'.
Proof.
  induction l as [|a l IH]; simpl; [reflexivity|].
  destruct (p a); [discriminate | exact IH].
Qed.

Lemma find_all_false {A} (p : A -> bool) l :
  (forall x, p x = false) -> find p l = None.
Proof.
  intros H. induction l as [|a l IH]; simpl; [reflexivity|]. now rewrite H.
Qed.

Lemma next_key_fresh keys : ~ In (next_key keys) keys.
Proof.
  unfold next_key. intros H.
  assert (Forall (fun k => k <= list_max keys) keys) by (now apply list_max_le).
  rewrite Forall_forall in H0. specialize (H0 _ H). lia.
Qed.

(** Resolving an address whose normal form is [e]: what the table
    answers afterwards. *)
Lemma get_or_create_email_address_resolved s raw s1 id :
  get_or_create_email_address s (Some raw) = (s1, Some id) ->
  exists p, find (fun p => (snd p =? PyStr.lower (PyStr.strip raw))%string)
                 (email_address s1) = Some p /\ fst p = id.
Proof.
  unfold get_or_create_email_address.
  destruct (negb (PyStr.truthy raw)); [discriminate|].
  destruct (find _ (email_address s)) as [p|] eqn:E; intros H; injection H as <- <-.
  - exists p. split; [exact E | reflexivity].
  - exists (next_key (map fst (email_address s)), PyStr.lower (PyStr.strip raw)).
    split; [|reflexivity]. simpl.
    rewrite (find_app_not_found _ _ _ E). simpl. now rewrite String.eqb_refl.
Qed.

Lemma get_or_create_email_address_again s' raw p :
  PyStr.truthy raw = true ->
  find (fun p => (snd p =? PyStr.lower (PyStr.strip raw))%string) (email_address s')
  = Some p ->
  get_or_create_email_address s' (Some raw) = (s', Some (fst p)).
Proof.
  intros Ht Hf. unfold get_or_create_email_address. rewrite Ht. simpl. now rewrite Hf.
Qed.

(** X5. Address identities are keyed by the trimmed, lowercased
    address: two raw strings with the same normal form resolve to the
    same identity, and the second resolution leaves the store as it
    is.  [None] and the empty string resolve to nothing and write
    nothing. *)
Theorem address_identity_is_the_normal_form (s : store) (raw1 raw2 : string) :
  PyStr.truthy raw1 = true ->
  PyStr.truthy raw2 = true ->
  PyStr.lower (PyStr.strip raw1) = PyStr.lower (PyStr.strip raw2) ->
  let (s1, id1) := get_or_create_email_address s (Some raw1) in
  let (s2, id2) := get_or_create_email_address s1 (Some raw2) in
  s2 = s1 /\ id2 = id1 /\ id1 <> None
  /\ In (PyStr.lower (PyStr.strip raw1)) (addresses s1)
  /\ get_or_create_email_address s None = (s, None)
  /\ get_or_create_email_address s (Some "") = (s, None).
Proof.
  intros T1 T2 Hn.
  destruct (get_or_create_email_address s (Some raw1)) as [s1 id1] eqn:E1.
  assert (Hid : exists id, id1 = Some id).
  { unfold get_or_create_email_address in E1. rewrite T1 in E1. simpl in E1.
    destruct (find _ _); injection E1 as _ <-; eauto. }
  destruct Hid as [id ->].
  destruct (get_or_create_email_address_resolved _ _ _ _ E1) as (p & Hp & Hid).
  rewrite Hn in Hp.
  rewrite (get_or_create_email_address_again s1 raw2 p T2 Hp).
  repeat split; try congruence.
  rewrite Hn. eapply find_some_in. exact Hp.
Qed.

Lemma address_identity_is_the_normal_form_witness :
  let (s1, id1) := get_or_create_email_address empty_store (Some " Bob@Ex.com") in
  let (s2, id2) := get_or_create_email_address s1 (Some "bob@ex.COM  ") in
  s2 = s1 /\ id2 = id1 /\ id1 = Some 1 /\ addresses s1 = ["bob@ex.com"].
Proof.
  pose proof (address_identity_is_the_normal_form empty_store " Bob@Ex.com"
                "bob@ex.COM  " eq_refl eq_refl eq_refl) as H.
  destruct (get_or_create_email_address empty_store (Some " Bob@Ex.com")) as [s1 id1] eqn:E1.
  destruct (get_or_create_email_address s1 (Some "bob@ex.COM  ")) as [s2 id2] eqn:E2.
  destruct H as (H1 & H2 & _).
  vm_compute in E1. injection E1 as <- <-.
  repeat split; assumption.
Defined.

Lemma add_participant_linked s pk e r : linked (add_participant s pk e r) pk e r.
Proof.
  unfold linked.
  unfold add_participant at 2 3.
  destruct (get_or_create_email_address s e) as [s1 [id|]] eqn:E.
  2: { assert (s1 = s).
       { unfold get_or_create_email_address in E. destruct e as [raw|];
           [destruct (negb (PyStr.truthy raw)); [|destruct (find _ _); discriminate]|];
           now injection E as <-. }
       subst s1. unfold add_participant. now rewrite E. }
  destruct e as [raw|]; [|discriminate].
  assert (Ht : PyStr.truthy raw = true).
  { unfold get_or_create_email_address in E.
    destruct (PyStr.truthy raw); [reflexivity | discriminate]. }
  destruct (get_or_create_email_address_resolved _ _ _ _ E) as (p & Hp & Hid).
  subst id.
  destruct (fst p =? 0) eqn:Ez.
  - unfold add_participant.
    rewrite (get_or_create_email_address_again s1 raw p Ht Hp). now rewrite Ez.
  - unfold add_participant.
    rewrite (get_or_create_email_address_again _ raw p Ht)
      by (now rewrite insert_participant_addresses).
    rewrite Ez.
    unfold insert_participant at 1.
    assert (Hin : existsb (participant_eqb (pk, fst p, r))
                    (email_participant (insert_participant s1 (pk, fst p, r))) = true).
    { unfold insert_participant.
      destruct (existsb _ (email_participant s1)) eqn:Ex; [exact Ex|].
      apply existsb_exists. exists (pk, fst p, r). split.
      - simpl. apply in_or_app. right. now left.
      - now apply participant_eqb_eq. }
    now rewrite Hin.
Qed.

(** X6. [add_participant] is idempotent: linking the same address to
    the same message under the same role a second time leaves the
    store as the first call left it. *)
Theorem add_participant_is_idempotent (s : store) (pk : nat) (e : option string)
        (r : role) :
  add_participant (add_participant s pk e r) pk e r = add_participant s pk e r.
Proof. exact (add_participant_linked s pk e r). Qed.

(* ------------------------------------------------------------------ *)
(** ** The [email] table of [main.py] *)

Lemma find_app_last {A} (p : A -> bool) l x :
  p x = true -> find p (l ++ [x]) <> None.
Proof.
  intros Hx. induction l as [|a l IH]; simpl.
  - now rewrite Hx.
  - destruct (p a); [discriminate | exact IH].
Qed.

Lemma find_split {A} (p : A -> bool) l e :
  find p l = Some e ->
  exists before after,
    l = before ++ e :: after /\ p e = true /\ forall x, In x before -> p x = false.
Proof.
  induction l as [|a l IH]; simpl; [discriminate|].
  destruct (p a) eqn:Ea.
  - intros H. injection H as <-. exists [], l. split; [reflexivity|].
    split; [exact Ea | intros x []].
  - intros H. destruct (IH H) as (before & after & -> & He & Hb).
    exists (a :: before), after. split; [reflexivity|]. split; [exact He|].
    intros x [<-|Hx]; [exact Ea | now apply Hb].
Qed.

(** The [WHERE] clause of the lookup, read as a property of a row. *)
Lemma lookup_matches_spec u folder mid x :
  (e_uid x =? u)%Z && (e_folder x =? folder)%string
  && sql_eq_opt (e_message_id x) (Some mid) = true
  <-> e_uid x = u /\ e_folder x = folder /\ e_message_id x = Some mid.
Proof.
  rewrite !andb_true_iff, Z.eqb_eq, String.eqb_eq.
  destruct (e_message_id x) as [m|]; simpl.
  - rewrite String.eqb_eq. split.
    + intros [[-> ->] ->]. auto.
    + intros (-> & -> & H). injection H as ->. auto.
  - split; [intros [_ H]; discriminate | intros (_ & _ & H); discriminate].
Qed.

(** X7. [get_or_create_email] of [main.py] adds a row on every call,
    also when the same message is already there: the [email] table
    gains at its end one row with the values given and a fresh key,
    and nothing else changes.  With a message id it answers the key
    of the oldest row of that [(uid, folder, message_id)], the same on
    a second call; without one it answers nothing, the row having been
    added all the same. *)
Theorem get_or_create_email_always_inserts (s : store) (u : Z)
        (folder sj dt tx ht : string) (att : option string) (mid : string) :
  let (s1, r1) := get_or_create_email s u folder sj dt tx ht att (Some mid) in
  let (s2, r2) := get_or_create_email s1 u folder sj dt tx ht att (Some mid) in
  let (s3, r3) := get_or_create_email s u folder sj dt tx ht att None in
  let added (a b : store) (m : option string) :=
    exists row,
      email b = email a ++ [row]
      /\ ~ In (e_pk row) (map e_pk (email a))
      /\ e_uid row = u /\ e_folder row = folder /\ e_subject row = sj
      /\ e_date row = dt /\ e_body_text row = tx /\ e_body_html row = ht
      /\ e_attachment_dir row = att /\ e_message_id row = m
      /\ downloaded_emails b = downloaded_emails a
      /\ folder_uidvalidity b = folder_uidvalidity a
      /\ email_address b = email_address a
      /\ email_participant b = email_participant a in
  added s s1 (Some mid)
  /\ added s1 s2 (Some mid)
  /\ added s s3 None
  /\ (exists before e after,
        email s1 = before ++ e :: after
        /\ (e_uid e = u /\ e_folder e = folder /\ e_message_id e = Some mid)
        /\ (forall x, In x before ->
               ~ (e_uid x = u /\ e_folder x = folder /\ e_message_id x = Some mid))
        /\ r1 = Some (e_pk e) /\ r2 = Some (e_pk e))
  /\ r3 = None.
Proof.
  unfold get_or_create_email. cbv zeta.
  set (p := fun e => (e_uid e =? u)%Z && (e_folder e =? folder)%string
                     && sql_eq_opt (e_message_id e) (Some mid)).
  set (s1 := insert_email s u folder sj dt tx ht att (Some mid)).
  assert (Hadded : forall a m,
             exists row,
               email (insert_email a u folder sj dt tx ht att m) = email a ++ [row]
               /\ ~ In (e_pk row) (map e_pk (email a))
               /\ e_uid row = u /\ e_folder row = folder /\ e_subject row = sj
               /\ e_date row = dt /\ e_body_text row = tx /\ e_body_html row = ht
               /\ e_attachment_dir row = att /\ e_message_id row = m
               /\ downloaded_emails (insert_email a u folder sj dt tx ht att m)
                  = downloaded_emails a
               /\ folder_uidvalidity (insert_email a u folder sj dt tx ht att m)
                  = folder_uidvalidity a
               /\ email_address (insert_email a u folder sj dt tx ht att m)
                  = email_address a
               /\ email_participant (insert_email a u folder sj dt tx ht att m)
                  = email_participant a).
  { intros a m. eexists. split; [reflexivity|]. simpl.
    split; [apply next_key_fresh|]. auto 15. }
  assert (Hfound : exists e, find p (email s1) = Some e).
  { destruct (find p (email s1)) as [e|] eqn:E; [eauto|]. exfalso.
    revert E. simpl. apply find_app_last. unfold p. simpl.
    now rewrite Z.eqb_refl, !String.eqb_refl. }
  destruct Hfound as [e He]. rewrite He.
  assert (He2 : find p (email (insert_email s1 u folder sj dt tx ht att (Some mid)))
                = Some e).
  { simpl. now apply find_app_found. }
  rewrite He2.
  assert (Hnone : find (fun e => (e_uid e =? u)%Z && (e_folder e =? folder)%string
                                 && sql_eq_opt (e_message_id e) None)
                       (email (insert_email s u folder sj dt tx ht att None)) = None).
  { apply find_all_false. intros x. destruct (e_message_id x); simpl;
      now rewrite andb_false_r. }
  rewrite Hnone.
  split; [apply Hadded|]. split; [apply Hadded|]. split; [apply Hadded|].
  split; [|reflexivity].
  destruct (find_split p _ e He) as (before & after & Hl & Hp & Hb).
  exists before, e, after. split; [exact Hl|].
  split; [now apply lookup_matches_spec|].
  split; [|now split].
  intros x Hx Hm. apply lookup_matches_spec in Hm.
  specialize (Hb x Hx). unfold p in Hb. congruence.
Qed.

(* ------------------------------------------------------------------ *)
(** ** Recipient text *)

Lemma re_split_not_nil s : PyStr.re_split s <> [].
Proof.
  induction s as [|c s IH]; simpl; [discriminate|].
  destruct (PyStr.is_delim c); [discriminate|].
  destruct (PyStr.re_split s); [contradiction | discriminate].
Qed.

Lemma re_split_no_delim s : forall p, In p (PyStr.re_split s) -> all_chars not_delim p = true.
Proof.
  induction s as [|c s IH]; simpl; intros p Hp.
  - destruct Hp as [<-|[]]. reflexivity.
  - destruct (PyStr.is_delim c) eqn:Ec.
    + destruct Hp as [<-|Hp]; [reflexivity | now apply IH].
    + destruct (PyStr.re_split s) as [|q qs] eqn:E; [now destruct (re_split_not_nil s)|].
      destruct Hp as [<-|Hp].
      * simpl. unfold not_delim at 1. rewrite Ec. simpl. apply IH. now left.
      * apply IH. now right.
Qed.

Lemma lstrip_all_chars p s : all_chars p s = true -> all_chars p (PyStr.lstrip s) = true.
Proof.
  induction s as [|c s IH]; simpl; [auto|]. intros H.
  apply andb_true_iff in H. destruct H as [Hc Hs].
  destruct (PyStr.is_space c); [auto|]. simpl. now rewrite Hc, Hs.
Qed.

Lemma rstrip_all_chars p s : all_chars p s = true -> all_chars p (PyStr.rstrip s) = true.
Proof.
  induction s as [|c s IH]; simpl; [auto|]. intros H.
  apply andb_true_iff in H. destruct H as [Hc Hs]. specialize (IH Hs).
  destruct (PyStr.rstrip s) as [|d r].
  - destruct (PyStr.is_space c); [reflexivity|]. simpl. now rewrite Hc.
  - cbn [all_chars]. rewrite Hc. exact IH.
Qed.

Lemma lstrip_starts_clean s : starts_clean (PyStr.lstrip s).
Proof.
  induction s as [|c s IH]; simpl; [exact I|].
  destruct (PyStr.is_space c) eqn:E; [exact IH | exact E].
Qed.

Lemma lstrip_clean s : starts_clean s -> PyStr.lstrip s = s.
Proof. destruct s as [|c s]; simpl; [auto|]. now intros ->. Qed.

Lemma rstrip_starts_clean s : starts_clean s -> starts_clean (PyStr.rstrip s).
Proof.
  destruct s as [|c s]; simpl; [auto|]. intros Hc.
  destruct (PyStr.rstrip s); [now rewrite Hc | exact Hc].
Qed.

Lemma rstrip_idempotent s : PyStr.rstrip (PyStr.rstrip s) = PyStr.rstrip s.
Proof.
  induction s as [|c s IH]; simpl; [reflexivity|].
  destruct (PyStr.rstrip s) as [|d r] eqn:E.
  - destruct (PyStr.is_space c) eqn:Ec; simpl; [reflexivity | now rewrite Ec].
  - change (PyStr.rstrip (String c (String d r)))
      with (match PyStr.rstrip (String d r) with
            | EmptyString =>
                if PyStr.is_space c then EmptyString else String c EmptyString
            | r' => String c r'
            end).
    now rewrite IH.
Qed.

Lemma strip_idempotent s : PyStr.strip (PyStr.strip s) = PyStr.strip s.
Proof.
  unfold PyStr.strip.
  rewrite (lstrip_clean (PyStr.rstrip (PyStr.lstrip s)))
    by (apply rstrip_starts_clean, lstrip_starts_clean).
  apply rstrip_idempotent.
Qed.

Lemma lower_char_facts c :
  PyStr.lower_char (PyStr.lower_char c) = PyStr.lower_char c
  /\ PyStr.is_space (PyStr.lower_char c) = PyStr.is_space c
  /\ PyStr.is_delim (PyStr.lower_char c) = PyStr.is_delim c.
Proof.
  destruct c as [b0 b1 b2 b3 b4 b5 b6 b7];
    destruct b0, b1, b2, b3, b4, b5, b6, b7; vm_compute; repeat split.
Qed.

Lemma lower_idempotent s : PyStr.lower (PyStr.lower s) = PyStr.lower s.
Proof.
  induction s as [|c s IH]; simpl; [reflexivity|].
  destruct (lower_char_facts c) as (H & _). now rewrite H, IH.
Qed.

Lemma lstrip_lower s : PyStr.lstrip (PyStr.lower s) = PyStr.lower (PyStr.lstrip s).
Proof.
  induction s as [|c s IH]; simpl; [reflexivity|].
  destruct (lower_char_facts c) as (_ & H & _). rewrite H.
  destruct (PyStr.is_space c); [exact IH | reflexivity].
Qed.

Lemma rstrip_lower s : PyStr.rstrip (PyStr.lower s) = PyStr.lower (PyStr.rstrip s).
Proof.
  induction s as [|c s IH]; simpl; [reflexivity|].
  destruct (lower_char_facts c) as (_ & H & _). rewrite IH, H.
  destruct (PyStr.rstrip s); simpl; [|reflexivity].
  destruct (PyStr.is_space c); reflexivity.
Qed.

Lemma strip_lower s : PyStr.strip (PyStr.lower s) = PyStr.lower (PyStr.strip s).
Proof. unfold PyStr.strip. now rewrite lstrip_lower, rstrip_lower. Qed.

Lemma all_chars_lower s :
  all_chars not_delim s = true -> all_chars not_delim (PyStr.lower s) = true.
Proof.
  induction s as [|c s IH]; simpl; [auto|]. intros H.
  apply andb_true_iff in H. destruct H as [Hc Hs].
  destruct (lower_char_facts c) as (_ & _ & Hd).
  unfold not_delim in *. now rewrite Hd, Hc, IH.
Qed.

Lemma truthy_not_empty s : PyStr.truthy s = true <-> s <> "".
Proof. destruct s; simpl; split; congruence. Qed.

Lemma split_strip_clean s e :
  In e (split_strip s) ->
  e <> "" /\ PyStr.strip e = e /\ all_chars not_delim e = true.
Proof.
  unfold split_strip. intros H. apply in_map_iff in H.
  destruct H as (p & <- & Hp). apply filter_In in Hp. destruct Hp as [Hp Ht].
  split; [now apply truthy_not_empty|]. split; [apply strip_idempotent|].
  unfold PyStr.strip. apply rstrip_all_chars, lstrip_all_chars.
  eapply re_split_no_delim. exact Hp.
Qed.

(** X8. What [parse_recipients] returns, of [main.py] and of the
    backfill script: no entry is empty, none has white space at
    either end, none contains a comma or a semicolon; the script's
    entries are lowercase as well.  A value that is neither a string
    nor a list parses to nothing. *)
Theorem parse_recipients_entries_are_clean :
  (forall r e, In e (parse_recipients r) ->
     e <> "" /\ PyStr.strip e = e /\ all_chars not_delim e = true)
  /\ (forall s e, In e (Migration.parse_recipients s) ->
        e <> "" /\ PyStr.strip e = e /\ all_chars not_delim e = true
        /\ PyStr.lower e = e)
  /\ (forall l, parse_recipients (RecTuple l) = [])
  /\ parse_recipients RecNone = [] /\ Migration.parse_recipients None = [].
Proof.
  split; [|split; [|repeat split]].
  - intros r e. unfold parse_recipients.
    destruct (negb (rec_truthy r)); [intros []|].
    destruct r as [|s|l|l]; try (intros []).
    + apply split_strip_clean.
    + intros H. apply in_flat_map in H. destruct H as (x & _ & H).
      eapply split_strip_clean. exact H.
  - intros s e. unfold Migration.parse_recipients.
    destruct s as [s|]; [|intros []].
    destruct (negb (PyStr.truthy s)); [intros []|].
    intros H. apply in_map_iff in H. destruct H as (p & <- & Hp).
    assert (Hc : In (PyStr.strip p) (split_strip s)).
    { unfold split_strip. apply in_map. exact Hp. }
    destruct (split_strip_clean _ _ Hc) as (H1 & H2 & H3).
    repeat split.
    + intros H0. apply H1. destruct (PyStr.strip p); [reflexivity | discriminate].
    + rewrite strip_lower. now rewrite H2.
    + now apply all_chars_lower.
    + apply lower_idempotent.
  - intros l. unfold parse_recipients. now destruct (negb _).
Qed.

Lemma re_split_app_delim x d t :
  PyStr.is_delim d = true ->
  PyStr.re_split (x ++ String d t)%string = PyStr.re_split x ++ PyStr.re_split t.
Proof.
  intros Hd. induction x as [|c x IH]; simpl.
  - now rewrite Hd.
  - rewrite IH. destruct (PyStr.is_delim c); [reflexivity|].
    destruct (PyStr.re_split x) as [|p ps] eqn:E; [now destruct (re_split_not_nil x)|].
    reflexivity.
Qed.

Lemma split_strip_app_delim x d t :
  PyStr.is_delim d = true ->
  split_strip (x ++ String d t)%string = split_strip x ++ split_strip t.
Proof.
  intros Hd. unfold split_strip.
  now rewrite re_split_app_delim, filter_app, map_app.
Qed.

Lemma split_strip_space t : split_strip (String " " t) = split_strip t.
Proof.
  unfold split_strip. cbn [PyStr.re_split].
  change (PyStr.is_delim " ") with false. cbv iota.
  destruct (PyStr.re_split t) as [|p ps] eqn:E; [now destruct (re_split_not_nil t)|].
  cbn [filter].
  assert (Hs : PyStr.strip (String " " p) = PyStr.strip p) by reflexivity.
  rewrite Hs. destruct (PyStr.truthy (PyStr.strip p)); [|reflexivity].
  cbn [map]. now rewrite Hs.
Qed.

Lemma split_strip_join l : split_strip (PyStr.join ", " l) = flat_map split_strip l.
Proof.
  induction l as [|x l IH]; [reflexivity|].
  destruct l as [|y l].
  - simpl. now rewrite app_nil_r.
  - change (PyStr.join ", " (x :: y :: l))
      with (x ++ String "," (String " " (PyStr.join ", " (y :: l))))%string.
    rewrite split_strip_app_delim by reflexivity.
    rewrite split_strip_space, IH. reflexivity.
Qed.

Lemma parse_recipients_str s : parse_recipients (RecStr s) = split_strip s.
Proof. destruct s; reflexivity. Qed.

Lemma parse_recipients_list l : parse_recipients (RecList l) = flat_map split_strip l.
Proof. destruct l; reflexivity. Qed.

(** X9. The recipient text [main] stores, read back.  For every list
    of addresses, parsing the [", "]-joined text gives what parsing
    the list gives, and the backfill script's parser gives the same
    addresses lowercased.  This holds for the text stored for a tuple
    as well, which [parse_recipients] itself does not parse. *)
Theorem stored_recipient_text_reads_back (l : list string) :
  parse_recipients (RecStr (join_recipients (RecList l))) = parse_recipients (RecList l)
  /\ Migration.parse_recipients (Some (join_recipients (RecList l)))
     = map PyStr.lower (parse_recipients (RecList l))
  /\ join_recipients (RecTuple l) = join_recipients (RecList l)
  /\ Migration.parse_recipients (Some (join_recipients (RecTuple l)))
     = map PyStr.lower (flat_map split_strip l).
Proof.
  assert (Hj : join_recipients (RecList l) = PyStr.join ", " l).
  { unfold join_recipients, rec_items. now destruct l. }
  assert (Ht : join_recipients (RecTuple l) = PyStr.join ", " l).
  { unfold join_recipients, rec_items. now destruct l. }
  assert (Hm : forall s, Migration.parse_recipients (Some s)
                         = map PyStr.lower (split_strip s)).
  { intros s. unfold Migration.parse_recipients, split_strip.
    destruct s; [reflexivity|]. simpl negb. cbv iota. now rewrite map_map. }
  rewrite Ht, Hj, parse_recipients_str, parse_recipients_list, !Hm, split_strip_join.
  repeat split.
Qed.

(* ------------------------------------------------------------------ *)
(** ** Invariants of a run *)

Section Invariants.

Context (C : Capability).

(** [Inv] is a property of the run's state, [P] a property of the
    folders the run works on; the hypotheses say that each elementary
    step keeps [Inv] when it concerns a folder with [P]. *)
Variable Inv : state C -> Prop.
Variable P : string -> Prop.

Definition event_ok (ev : event) : Prop :=
  match ev with
  | EvFetch f _ | EvAttempt f _ | EvAttemptFailed f _
  | EvLogError _ f | EvRetryOk _ f | EvRetryFailed _ f => P f
  | EvSleep _ => True
  end.

Hypothesis P_not_skipped : forall f, in_skip_folders f = false -> P f.
Hypothesis Inv_world : forall st w, Inv st -> Inv (set_world st w).
Hypothesis Inv_emit : forall st ev, event_ok ev -> Inv st -> Inv (emit ev st).
Hypothesis Inv_log_error : forall st u f, P f -> Inv st -> Inv (log_error C u f st).
Hypothesis Inv_record : forall st f, P f -> Inv st -> Inv (record_failed_folder C f st).
Hypothesis Inv_process :
  forall f msg st r st',
    P f -> Inv st -> process_message C f msg st = (r, st') -> Inv st'.
Hypothesis Inv_mark :
  forall st u f msg d,
    P f -> Inv st ->
    Inv (set_conn st (mark_email_downloaded (conn st) (downloaded_of u f msg d))).
Hypothesis Inv_set_uidvalidity :
  forall st f v,
    P f -> Inv st -> get_uidvalidity (conn st) f = None ->
    Inv (set_conn st (set_uidvalidity (conn st) f v)).
Hypothesis Inv_queue : forall st u f, Inv st -> In (u, f) (failed_emails st) -> P f.

Lemma inv_call {A} (op : World C -> result A * World C) st r st' :
  Inv st -> call op st = (r, st') -> Inv st'.
Proof.
  unfold call. destruct (op (world st)) as [r0 w]. intros H E.
  injection E as _ <-. now apply Inv_world.
Qed.

Lemma inv_fetch_m f c st r st' :
  P f -> Inv st -> fetch_m C f c st = (r, st') -> Inv st'.
Proof.
  intros Hf H. unfold fetch_m. unfold bind at 1. unfold tell at 1. cbv beta iota.
  apply inv_call. now apply Inv_emit.
Qed.

Lemma inv_extract msg u f st r st' :
  Inv st -> extract_email_data C msg u f st = (r, st') -> Inv st'.
Proof.
  intros H. unfold extract_email_data. unfold bind at 1.
  destruct (msg_attachments msg).
  - unfold ret. intros E. injection E as _ <-. exact H.
  - destruct (call (save_attachments C msg u f) st) as [[p|e] st1] eqn:E1;
      unfold ret; intros E; injection E as _ <-; eapply inv_call; eassumption.
Qed.

Lemma inv_message_loop f ex msgs : forall st,
  P f -> Inv st -> Inv (message_loop C f ex msgs st).
Proof.
  induction msgs as [|m msgs IH]; intros st Hf H; simpl; [exact H|].
  destruct (mem_uid (uid m) ex); [now apply IH|].
  destruct (process_message C f m st) as [[[]|e] st1] eqn:E;
    pose proof (Inv_process _ _ _ _ _ Hf H E) as H1.
  - now apply IH.
  - apply IH; [exact Hf|]. now apply Inv_log_error.
Qed.

Lemma inv_batch_loop f ex batches : forall st r st',
  P f -> Inv st -> batch_loop C f ex batches st = (r, st') -> Inv st'.
Proof.
  induction batches as [|b batches IH]; intros st r st' Hf H; simpl.
  - intros E. injection E as _ <-. exact H.
  - destruct (forallb _ b); [now apply IH|].
    unfold bind at 1.
    destruct (fetch_m C f (CUidList b) st) as [[msgs|e] st1] eqn:E1; intros E;
      pose proof (inv_fetch_m _ _ _ _ _ Hf H E1) as H1.
    + unfold bind at 1 in E. cbv beta iota in E.
      eapply IH; [exact Hf | | exact E]. now apply inv_message_loop.
    + injection E as _ <-. exact H1.
Qed.

Lemma inv_folder_attempt f n st r st' :
  P f -> Inv st -> folder_attempt C f n st = (r, st') -> Inv st'.
Proof.
  intros Hf H E. unfold folder_attempt in E.
  unfold bind at 1 in E. unfold tell at 1 in E. cbv beta iota in E.
  assert (H0 : Inv (emit (EvAttempt f n) st)) by (now apply Inv_emit).
  unfold bind at 1 in E.
  destruct (call (folder_set C f) (emit (EvAttempt f n) st)) as [[[]|e] st1] eqn:E1;
    pose proof (inv_call _ _ _ _ H0 E1) as H1;
    [|injection E as _ <-; exact H1].
  unfold bind at 1 in E.
  destruct (fetch_m C f (fetch_criterion (get_max_uid (conn st1) f)) st1)
    as [[msgs|e] st2] eqn:E2;
    pose proof (inv_fetch_m _ _ _ _ _ Hf H1 E2) as H2;
    [|injection E as _ <-; exact H2].
  unfold bind at 1, lift_result, split_into_batches in E.
  eapply inv_batch_loop; eassumption.
Qed.

Lemma inv_while_attempts fuel limit f : forall attempt st,
  P f -> Inv st -> Inv (while_attempts C fuel limit attempt f st).
Proof.
  induction fuel as [|fuel IH]; intros attempt st Hf H; simpl; [exact H|].
  destruct (attempt <? limit); [|exact H].
  destruct (folder_attempt C f (attempt + 1) st) as [[[]|e] st1] eqn:E;
    pose proof (inv_folder_attempt _ _ _ _ _ Hf H E) as H1; [exact H1|].
  destruct (attempt + 1 =? limit); apply IH; try exact Hf.
  - apply Inv_record; [exact Hf|]. now apply Inv_emit.
  - apply Inv_emit; [exact I|]. now apply Inv_emit.
Qed.

Lemma inv_ensure f st r st' :
  P f -> Inv st -> ensure_folder_and_uidvalidity C f st = (r, st') -> Inv st'.
Proof.
  intros Hf H. unfold ensure_folder_and_uidvalidity. unfold bind at 1.
  destruct (call (folder_set C f) st) as [[[]|e] st1] eqn:E1;
    pose proof (inv_call _ _ _ _ H E1) as H1;
    [|intros E; injection E as _ <-; exact H1].
  unfold bind at 1.
  destruct (call (folder_status C f) st1) as [[status|e] st2] eqn:E2;
    pose proof (inv_call _ _ _ _ H1 E2) as H2;
    [|intros E; injection E as _ <-; exact H2].
  destruct (status_uidvalidity status) as [cur|];
    [|unfold raise; intros E; injection E as _ <-; exact H2].
  destruct (get_uidvalidity (conn st2) f) as [sv|] eqn:Ev.
  - destruct (negb _); intros E; injection E as _ <-; exact H2.
  - intros E; injection E as _ <-. now apply Inv_set_uidvalidity.
Qed.

Lemma inv_folder_loop folders : forall st r st',
  Inv st -> folder_loop C folders st = (r, st') -> Inv st'.
Proof.
  induction folders as [|f folders IH]; intros st r st' H; cbn [folder_loop].
  - intros E. injection E as _ <-. exact H.
  - destruct (in_skip_folders f) eqn:Es; [now apply IH|].
    pose proof (P_not_skipped f Es) as Hf.
    destruct (ensure_folder_and_uidvalidity C f st) as [[[]|e] st1] eqn:E1;
      pose proof (inv_ensure _ _ _ _ Hf H E1) as H1.
    + apply IH. now apply inv_while_attempts.
    + destruct e; intros E; injection E as _ <-; exact H1.
Qed.

Lemma inv_main_pass st r st' : Inv st -> main_pass C st = (r, st') -> Inv st'.
Proof.
  intros H. unfold main_pass. unfold bind at 1.
  destruct (call (login C) st) as [[[]|e] st1] eqn:E1;
    pose proof (inv_call _ _ _ _ H E1) as H1;
    [|intros E; injection E as _ <-; exact H1].
  unfold bind at 1.
  destruct (call (folder_list C) st1) as [[l|e] st2] eqn:E2;
    pose proof (inv_call _ _ _ _ H1 E2) as H2;
    [|intros E; injection E as _ <-; exact H2].
  now apply inv_folder_loop.
Qed.

Lemma inv_retry_body u f st r st' :
  P f -> Inv st -> retry_body C u f st = (r, st') -> Inv st'.
Proof.
  intros Hf H. unfold retry_body. unfold bind at 1.
  destruct (call (login C) st) as [[[]|e] st1] eqn:E1;
    pose proof (inv_call _ _ _ _ H E1) as H1;
    [|intros E; injection E as _ <-; exact H1].
  unfold bind at 1.
  destruct (call (folder_set C f) st1) as [[[]|e] st2] eqn:E2;
    pose proof (inv_call _ _ _ _ H1 E2) as H2;
    [|intros E; injection E as _ <-; exact H2].
  unfold bind at 1.
  destruct (fetch_m C f (CUidList [u]) st2) as [[msgs|e] st3] eqn:E3;
    pose proof (inv_fetch_m _ _ _ _ _ Hf H2 E3) as H3;
    [|intros E; injection E as _ <-; exact H3].
  destruct msgs as [|msg rest];
    [unfold raise; intros E; injection E as _ <-; exact H3|].
  unfold bind at 1.
  destruct (extract_email_data C msg u f st3) as [[d|e] st4] eqn:E4;
    pose proof (inv_extract _ _ _ _ _ _ H3 E4) as H4;
    [|intros E; injection E as _ <-; exact H4].
  unfold bind at 1, update_conn, tell. intros E. injection E as _ <-.
  apply Inv_emit; [exact Hf|]. now apply Inv_mark.
Qed.

Lemma inv_retry_one u f st :
  Inv st -> In (u, f) (failed_emails st) -> Inv (retry_one C u f st).
Proof.
  intros H Hq. pose proof (Inv_queue _ _ _ H Hq) as Hf. unfold retry_one.
  destruct (retry_body C u f st) as [[[]|e] st1] eqn:E;
    pose proof (inv_retry_body _ _ _ _ _ Hf H E) as H1; [exact H1|].
  apply Inv_log_error; [exact Hf|]. now apply Inv_emit.
Qed.

Lemma inv_retry_loop fuel : forall i st,
  Inv st -> Inv (fst (retry_loop C fuel i st)).
Proof.
  induction fuel as [|fuel IH]; intros i st H; simpl;
    destruct (nth_error (failed_emails st) i) as [[u f]|] eqn:E; simpl;
    try exact H.
  apply IH. apply inv_retry_one; [exact H|]. eapply nth_error_In; exact E.
Qed.

Lemma inv_main fuel db w :
  Inv (initial_state C db w) -> Inv (snd (main C fuel db w)).
Proof.
  intros H. unfold main.
  destruct (main_pass C (initial_state C db w)) as [[e|e] st1] eqn:E; simpl;
    pose proof (inv_main_pass _ _ _ H E) as H1; [|exact H1].
  pose proof (inv_retry_loop fuel 0 st1 H1) as H2.
  now destruct (retry_loop C fuel 0 st1).
Qed.

End Invariants.

(* ------------------------------------------------------------------ *)
(** ** Consistency of the store *)

Lemma consistent_empty : consistent empty_store.
Proof. constructor; simpl; try constructor; try tauto; intros; contradiction. Qed.

Lemma NoDup_snoc {A} (l : list A) x : NoDup l -> ~ In x l -> NoDup (l ++ [x]).
Proof.
  intros Hn Hx. apply NoDup_app; [exact Hn | repeat constructor; intros [] |].
  intros a Ha [<-|[]]. contradiction.
Qed.

Lemma consistent_mark s row : consistent s -> consistent (mark_email_downloaded s row).
Proof.
  intros H. unfold mark_email_downloaded.
  destruct (is_email_downloaded s (d_uid row) (d_folder row)) eqn:E; [exact H|].
  destruct H. constructor; simpl; try assumption.
  - rewrite map_app. simpl. apply NoDup_snoc; [assumption|].
    intros Hk. apply is_email_downloaded_keys in Hk. congruence.
  - intros e He. unfold is_email_downloaded. simpl. rewrite existsb_app.
    specialize (email_has_raw0 e He). unfold is_email_downloaded in email_has_raw0.
    now rewrite email_has_raw0.
Qed.

Lemma consistent_insert_email s u f sj dt tx ht att mid :
  consistent s -> is_email_downloaded s u f = true ->
  consistent (insert_email s u f sj dt tx ht att mid).
Proof.
  intros H Hs. destruct H. constructor; simpl; try assumption.
  - rewrite map_app. simpl. apply NoDup_snoc; [assumption | apply next_key_fresh].
  - intros e He. apply in_app_or in He. destruct He as [He|[<-|[]]].
    + now apply email_has_raw0.
    + exact Hs.
  - intros pk id r Hp. destruct (participants_refer0 pk id r Hp) as [H1 H2].
    split; [|exact H2]. rewrite map_app. apply in_or_app. now left.
Qed.

Lemma normal_form_is_normal raw :
  PyStr.lower (PyStr.strip (PyStr.lower (PyStr.strip raw))) = PyStr.lower (PyStr.strip raw).
Proof. now rewrite strip_lower, strip_idempotent, lower_idempotent. Qed.

Lemma consistent_get_or_create_email_address s e :
  consistent s -> consistent (fst (get_or_create_email_address s e)).
Proof.
  intros H. unfold get_or_create_email_address.
  destruct e as [raw|]; [|exact H].
  destruct (negb (PyStr.truthy raw)); [exact H|].
  destruct (find _ (email_address s)) as [p|] eqn:E; [exact H|].
  destruct H. constructor; simpl; try assumption.
  - rewrite map_app. simpl. apply NoDup_snoc; [assumption | apply next_key_fresh].
  - rewrite map_app. simpl. intros Hin. apply in_app_or in Hin.
    destruct Hin as [Hin|[Hin|[]]]; [contradiction | discriminate].
  - unfold addresses. simpl. rewrite map_app. simpl.
    apply NoDup_snoc; [assumption|]. now apply find_none_not_in.
  - unfold addresses. simpl. rewrite map_app. simpl. intros a Ha.
    apply in_app_or in Ha. destruct Ha as [Ha|[<-|[]]].
    + now apply addresses_normal0.
    + apply normal_form_is_normal.
  - intros pk id r Hp. destruct (participants_refer0 pk id r Hp) as [H1 H2].
    split; [exact H1|]. rewrite map_app. apply in_or_app. now left.
Qed.

Lemma consistent_insert_participant s pk id r :
  consistent s -> In pk (map e_pk (email s)) -> In id (map fst (email_address s)) ->
  consistent (insert_participant s (pk, id, r)).
Proof.
  intros H Hpk Hid.
  pose proof (insert_participant_nodup s (pk, id, r) (participants_unique s H)) as Hn.
  unfold insert_participant in *.
  destruct (existsb _ (email_participant s)); [exact H|].
  destruct H. constructor; simpl; try assumption.
  intros pk' id' r' Hp. apply in_app_or in Hp.
  destruct Hp as [Hp|[Hp|[]]]; [now apply (participants_refer0 pk' id' r')|].
  injection Hp as <- <- <-. now split.
Qed.

Lemma get_or_create_email_address_email s e :
  email (fst (get_or_create_email_address s e)) = email s.
Proof. now destruct (get_or_create_email_address_frame s e) as (_ & _ & H & _). Qed.

Lemma consistent_add_participant s pk e r :
  consistent s -> In pk (map e_pk (email s)) -> consistent (add_participant s pk e r).
Proof.
  intros H Hpk. unfold add_participant.
  pose proof (consistent_get_or_create_email_address s e H) as H1.
  pose proof (get_or_create_email_address_email s e) as He.
  destruct (get_or_create_email_address s e) as [s1 [id|]] eqn:E; simpl in *;
    [|exact H1].
  destruct (id =? 0); [exact H1|].
  apply consistent_insert_participant; [exact H1 | now rewrite He|].
  destruct e as [raw|]; [|discriminate].
  destruct (get_or_create_email_address_resolved _ _ _ _ E) as (p & Hp & <-).
  apply in_map. eapply find_some. exact Hp.
Qed.

Lemma add_participant_email s pk e r : email (add_participant s pk e r) = email s.
Proof. now destruct (add_participant_frame s pk e r) as (_ & _ & H). Qed.

Lemma consistent_add_participants addrs : forall s pk r,
  consistent s -> In pk (map e_pk (email s)) ->
  consistent (add_participants s pk addrs r)
  /\ email (add_participants s pk addrs r) = email s.
Proof.
  unfold add_participants.
  induction addrs as [|a addrs IH]; intros s pk r H Hpk; simpl; [now split|].
  destruct (IH (add_participant s pk (Some a) r) pk r) as [H1 H2].
  - now apply consistent_add_participant.
  - now rewrite add_participant_email.
  - split; [exact H1|]. now rewrite H2, add_participant_email.
Qed.

Lemma consistent_link_participants s pk msg :
  consistent s -> In pk (map e_pk (email s)) ->
  consistent (link_participants s pk msg).
Proof.
  intros H Hpk. unfold link_participants.
  assert (H0 : consistent (add_participant s pk (Some (from_ msg)) RFrom)
               /\ email (add_participant s pk (Some (from_ msg)) RFrom) = email s)
    by (split; [now apply consistent_add_participant | apply add_participant_email]).
  destruct H0 as [H0 E0].
  destruct (consistent_add_participants (parse_recipients (to msg)) _ pk RTo H0)
    as [H1 E1]; [now rewrite E0|].
  destruct (consistent_add_participants (parse_recipients (cc msg)) _ pk RCc H1)
    as [H2 E2]; [now rewrite E1, E0|].
  destruct (consistent_add_participants (parse_recipients (bcc msg)) _ pk RBcc H2)
    as [H3 E3]; [now rewrite E2, E1, E0|].
  exact H3.
Qed.

Lemma consistent_set_uidvalidity s f v :
  consistent s -> consistent (set_uidvalidity s f v).
Proof.
  intros H. destruct H. constructor; simpl; try assumption.
  rewrite map_app. simpl. apply NoDup_snoc.
  - clear - validity_keys_unique0.
    induction (folder_uidvalidity s) as [|[k x] l IH]; simpl; [constructor|].
    inversion validity_keys_unique0 as [|? ? Hn Hl]; subst.
    destruct (negb (k =? f)%string); [|now apply IH].
    simpl. constructor; [|now apply IH].
    intros Hin. apply Hn. apply in_map_iff in Hin. destruct Hin as (p & Hp & Hin).
    apply filter_In in Hin. apply in_map_iff. exists p. tauto.
  - intros Hin. apply in_map_iff in Hin. destruct Hin as (p & Hp & Hin).
    apply filter_In in Hin. destruct Hin as [_ Hin].
    rewrite Hp, String.eqb_refl in Hin. discriminate.
Qed.

Lemma consistent_process_message (C : Capability) f msg (st : state C) r st' :
  consistent (conn st) -> process_message C f msg st = (r, st') -> consistent (conn st').
Proof.
  intros H. unfold process_message. unfold bind at 1.
  destruct (extract_email_data C msg (uid msg) f st) as [[d|e] st1] eqn:E1;
    destruct (extract_email_data_frame C _ _ _ _ _ _ E1) as (C1 & _);
    [|intros E; injection E as _ <-; now rewrite C1].
  unfold bind at 1, update_conn at 1. cbv beta iota.
  unfold bind at 1, get_or_create_email_m, get_or_create_email, update_conn.
  cbn [conn set_conn].
  set (s2 := mark_email_downloaded (conn st1) (downloaded_of (uid msg) f msg d)).
  assert (H2 : consistent s2) by (apply consistent_mark; now rewrite C1).
  assert (H3 : consistent (insert_email s2 (uid msg) f (subject msg) (date msg)
                             (text msg) (html msg) (first_attachment d) (message_id d))).
  { apply consistent_insert_email; [exact H2|].
    apply (mark_email_downloaded_stored (conn st1) (downloaded_of (uid msg) f msg d)). }
  destruct (find _ _) as [e|] eqn:Ef; intros E; injection E as _ <-; simpl.
  - apply consistent_link_participants; [exact H3|].
    apply in_map. eapply find_some. exact Ef.
  - exact H3.
Qed.

(** X10. A run keeps the store consistent: from a consistent store
    (the empty one, for instance), whatever the mail capability
    answers or raises and however far the retry loop gets, [main]
    leaves unique [(uid, folder)] keys, unique folder keys, unique
    non-zero address identities, unique addresses in trimmed lowercase
    form, unique [email_pk], unique participation triples, every
    [email] row backed by a raw row of the same [(uid, folder)], and
    every participation pointing at an existing [email] row and
    address. *)
Theorem main_keeps_the_store_consistent (C : Capability) fuel db w :
  consistent db -> consistent (conn (snd (main C fuel db w))).
Proof.
  intros H.
  apply (inv_main C (fun st => consistent (conn st)) (fun _ => True));
    try (intros; exact I); try (intros; assumption).
  - intros f msg st r st' _. apply consistent_process_message.
  - intros st u f msg d _. apply consistent_mark.
  - intros st f v _ Hc _. now apply consistent_set_uidvalidity.
Qed.

Lemma main_keeps_the_store_consistent_witness :
  consistent empty_store
  /\ consistent (conn (snd (main calm_inbox 5 empty_store 0)))
  /\ map row_key (downloaded_emails (conn (snd (main calm_inbox 5 empty_store 0))))
     = [(1%Z, "INBOX"); (2%Z, "INBOX")].
Proof.
  split; [apply consistent_empty|].
  split; [apply main_keeps_the_store_consistent; apply consistent_empty|].
  vm_compute. reflexivity.
Defined.

(* ------------------------------------------------------------------ *)
(** ** Folders on the denylist *)

Lemma folder_view_frame s s' f :
  downloaded_emails s' = downloaded_emails s ->
  folder_uidvalidity s' = folder_uidvalidity s ->
  email s' = email s ->
  folder_view s' f = folder_view s f.
Proof. intros H1 H2 H3. unfold folder_view, get_uidvalidity. now rewrite H1, H2, H3. Qed.

Lemma folder_view_mark s row f :
  d_folder row <> f -> folder_view (mark_email_downloaded s row) f = folder_view s f.
Proof.
  intros Hf. destruct (mark_email_downloaded_frame s row) as (F1 & _ & F3 & _).
  cbv zeta in *. unfold folder_view, get_uidvalidity. rewrite F1, F3.
  destruct (mark_email_downloaded_rows s row) as [E|[_ E]]; rewrite E; [reflexivity|].
  rewrite filter_app. simpl.
  destruct (String.eqb_spec (d_folder row) f); [contradiction|]. now rewrite app_nil_r.
Qed.

Lemma folder_view_insert_email s u g sj dt tx ht att mid f :
  g <> f -> folder_view (insert_email s u g sj dt tx ht att mid) f = folder_view s f.
Proof.
  intros Hf. unfold folder_view, get_uidvalidity. simpl. rewrite filter_app. simpl.
  destruct (String.eqb_spec g f); [contradiction|]. now rewrite app_nil_r.
Qed.

Lemma folder_view_link s pk msg f :
  folder_view (link_participants s pk msg) f = folder_view s f.
Proof.
  destruct (link_participants_frame s pk msg) as (F1 & F2 & F3).
  now apply folder_view_frame.
Qed.

Lemma folder_view_set_uidvalidity s g v f :
  g <> f -> folder_view (set_uidvalidity s g v) f = folder_view s f.
Proof.
  intros Hf. unfold folder_view. rewrite get_uidvalidity_set.
  destruct (String.eqb_spec f g); [congruence | reflexivity].
Qed.

Lemma process_message_frame (C : Capability) g msg (st : state C) r st' :
  process_message C g msg st = (r, st') ->
  failed_emails st' = failed_emails st /\ failed_folders st' = failed_folders st
  /\ trace st' = trace st
  /\ forall f, g <> f -> folder_view (conn st') f = folder_view (conn st) f.
Proof.
  unfold process_message. unfold bind at 1.
  destruct (extract_email_data C msg (uid msg) g st) as [[d|e] st1] eqn:E1;
    destruct (extract_email_data_frame C _ _ _ _ _ _ E1) as (C1 & C2 & C3 & C4);
    [|intros E; injection E as _ <-; rewrite C1; auto].
  unfold bind at 1, update_conn at 1. cbv beta iota.
  unfold bind at 1, get_or_create_email_m, get_or_create_email, update_conn.
  cbn [conn set_conn].
  destruct (find _ _) as [e|]; intros E; injection E as _ <-; simpl;
    (split; [exact C2 | split; [exact C3 | split; [exact C4|]]]); intros f Hf;
    rewrite ?folder_view_link, folder_view_insert_email, folder_view_mark, C1;
    auto.
Qed.

(** X12. A folder on the denylist (its lowercased name is one of
    [skip_folders]) is left alone by a whole run, whatever the server
    lists and answers: its raw rows, [email] rows and recorded
    UIDVALIDITY are those of the initial store, no message of it is
    queued for retry, it is not recorded as a failed folder, and no
    fetch, attempt, error or retry event names it. *)
Theorem denylisted_folder_is_left_alone (C : Capability) fuel db w f :
  in_skip_folders f = true ->
  untouched C f db (snd (main C fuel db w)).
Proof.
  intros Hskip.
  apply (inv_main C (untouched C f db) (fun g => g <> f)).
  - intros g Hg ->. congruence.
  - intros st w' H. exact H.
  - intros st ev Hev (H1 & H2 & H3 & H4). unfold untouched. simpl.
    split; [exact H1 | split; [exact H2 | split; [exact H3|]]].
    apply Forall_app. split; [exact H4|]. constructor; [|constructor].
    destruct ev; simpl in *; congruence.
  - intros st u g Hg (H1 & H2 & H3 & H4). unfold untouched. simpl.
    split; [exact H1 | split; [| split; [exact H3|]]].
    + intros u' Hin. apply in_app_or in Hin. destruct Hin as [Hin|[Hin|[]]].
      * now apply (H2 u').
      * congruence.
    + apply Forall_app. split; [exact H4|]. constructor; [|constructor].
      simpl. congruence.
  - intros st g Hg (H1 & H2 & H3 & H4). unfold untouched. simpl.
    split; [exact H1 | split; [exact H2 | split; [|exact H4]]].
    intros Hin. apply in_app_or in Hin. destruct Hin as [Hin|[Hin|[]]]; auto.
  - intros g msg st r st' Hg (H1 & H2 & H3 & H4) E.
    destruct (process_message_frame C g msg st r st' E) as (F1 & F2 & F3 & F4).
    unfold untouched. rewrite F1, F2, F3, (F4 f Hg). auto.
  - intros st u g msg d Hg (H1 & H2 & H3 & H4). unfold untouched. simpl.
    rewrite folder_view_mark; auto.
  - intros st g v Hg (H1 & H2 & H3 & H4) _. unfold untouched. simpl.
    rewrite folder_view_set_uidvalidity; auto.
  - intros st u g (_ & H2 & _) Hin ->. now apply (H2 u).
  - unfold untouched. simpl. split; [reflexivity|]. split; [tauto|]. split; [tauto|].
    constructor.
Qed.

Lemma denylisted_folder_is_left_alone_witness :
  in_skip_folders "Trash" = true
  /\ untouched (Scripted.capability inbox_and_trash Scripted.no_faults) "Trash"
       empty_store
       (snd (main (Scripted.capability inbox_and_trash Scripted.no_faults) 5
               empty_store 0))
  /\ uids_of_folder
       (conn (snd (main (Scripted.capability inbox_and_trash Scripted.no_faults) 5
                     empty_store 0))) "INBOX" = [1%Z].
Proof.
  split; [reflexivity|].
  split; [now apply denylisted_folder_is_left_alone|].
  vm_compute. reflexivity.
Defined.

(* ------------------------------------------------------------------ *)
(** ** Tables only grow *)

Lemma extends_refl s : extends s s.
Proof.
  unfold extends.
  split; [|split; [|split; [|split]]]; try (exists []; now rewrite app_nil_r); auto.
Qed.

Lemma extends_trans s1 s2 s3 : extends s1 s2 -> extends s2 s3 -> extends s1 s3.
Proof.
  intros ([a Ha] & [b Hb] & [c Hc] & [d Hd] & Hv)
         ([a' Ha'] & [b' Hb'] & [c' Hc'] & [d' Hd'] & Hv').
  unfold extends.
  split; [|split; [|split; [|split]]].
  - exists (a ++ a'). now rewrite Ha', Ha, app_assoc.
  - exists (b ++ b'). now rewrite Hb', Hb, app_assoc.
  - exists (c ++ c'). now rewrite Hc', Hc, app_assoc.
  - exists (d ++ d'). now rewrite Hd', Hd, app_assoc.
  - auto.
Qed.

Lemma extends_by s s' a b c d :
  downloaded_emails s' = downloaded_emails s ++ a ->
  email_address s' = email_address s ++ b ->
  email s' = email s ++ c ->
  email_participant s' = email_participant s ++ d ->
  folder_uidvalidity s' = folder_uidvalidity s ->
  extends s s'.
Proof.
  intros Ha Hb Hc Hd Hv. unfold extends.
  split; [|split; [|split; [|split]]]; eauto.
  intros f v. unfold get_uidvalidity. now rewrite Hv.
Qed.

Lemma extends_mark s row : extends s (mark_email_downloaded s row).
Proof.
  unfold mark_email_downloaded. destruct (is_email_downloaded _ _ _);
    [apply extends_refl|].
  apply extends_by with (a := [row]) (b := []) (c := []) (d := []);
    simpl; now rewrite ?app_nil_r.
Qed.

Lemma extends_insert_email s u f sj dt tx ht att mid :
  extends s (insert_email s u f sj dt tx ht att mid).
Proof.
  eapply extends_by with (a := []) (b := []) (d := []);
    simpl; try reflexivity; now rewrite app_nil_r.
Qed.

Lemma extends_get_or_create_email_address s e :
  extends s (fst (get_or_create_email_address s e)).
Proof.
  unfold get_or_create_email_address. destruct e as [raw|]; [|apply extends_refl].
  destruct (negb _); [apply extends_refl|].
  destruct (find _ _); [apply extends_refl|].
  eapply extends_by with (a := []) (c := []) (d := []);
    simpl; try reflexivity; now rewrite app_nil_r.
Qed.

Lemma extends_insert_participant s p : extends s (insert_participant s p).
Proof.
  unfold insert_participant. destruct (existsb _ _); [apply extends_refl|].
  eapply extends_by with (a := []) (b := []) (c := []);
    simpl; try reflexivity; now rewrite app_nil_r.
Qed.

Lemma extends_add_participant s pk e r : extends s (add_participant s pk e r).
Proof.
  unfold add_participant.
  pose proof (extends_get_or_create_email_address s e) as H.
  destruct (get_or_create_email_address s e) as [s1 [id|]]; simpl in H; [|exact H].
  destruct (id =? 0); [exact H|].
  eapply extends_trans; [exact H | apply extends_insert_participant].
Qed.

Lemma extends_add_participants addrs : forall s pk r,
  extends s (add_participants s pk addrs r).
Proof.
  unfold add_participants.
  induction addrs as [|a addrs IH]; intros s pk r; simpl; [apply extends_refl|].
  eapply extends_trans; [apply extends_add_participant | apply IH].
Qed.

Lemma extends_link_participants s pk msg : extends s (link_participants s pk msg).
Proof.
  unfold link_participants.
  eapply extends_trans; [apply extends_add_participant|].
  eapply extends_trans; [apply extends_add_participants|].
  eapply extends_trans; [apply extends_add_participants|].
  apply extends_add_participants.
Qed.

Lemma extends_set_uidvalidity s f v :
  get_uidvalidity s f = None -> extends s (set_uidvalidity s f v).
Proof.
  intros Hn. unfold extends.
  split; [|split; [|split; [|split]]];
    try (exists []; simpl; now rewrite app_nil_r).
  intros g x Hg. rewrite get_uidvalidity_set.
  destruct (String.eqb_spec g f) as [->|]; [congruence | exact Hg].
Qed.

Lemma extends_process_message (C : Capability) f msg (st : state C) r st' :
  process_message C f msg st = (r, st') -> extends (conn st) (conn st').
Proof.
  unfold process_message. unfold bind at 1.
  destruct (extract_email_data C msg (uid msg) f st) as [[d|e] st1] eqn:E1;
    destruct (extract_email_data_frame C _ _ _ _ _ _ E1) as (C1 & _);
    [|intros E; injection E as _ <-; rewrite C1; apply extends_refl].
  unfold bind at 1, update_conn at 1. cbv beta iota.
  unfold bind at 1, get_or_create_email_m, get_or_create_email, update_conn.
  cbn [conn set_conn]. rewrite C1.
  destruct (find _ _) as [e|]; intros E; injection E as _ <-; simpl.
  - eapply extends_trans; [apply extends_mark|].
    eapply extends_trans; [apply extends_insert_email|].
    apply extends_link_participants.
  - eapply extends_trans; [apply extends_mark | apply extends_insert_email].
Qed.

(** X13. A run only appends.  Whatever the server does, the store
    after [main] holds every row the initial store held, in place and
    unchanged, in [downloaded_emails], [email_address], [email] and
    [email_participant], and every UIDVALIDITY the initial store
    recorded is still recorded with the same value. *)
Theorem main_only_appends (C : Capability) fuel db w :
  extends db (conn (snd (main C fuel db w))).
Proof.
  apply (inv_main C (fun st => extends db (conn st)) (fun _ => True));
    try (intros; exact I); try (intros; assumption).
  - intros f msg st r st' _ H E. eapply extends_trans; [exact H|].
    eapply extends_process_message. exact E.
  - intros st u f msg d _ H. simpl. eapply extends_trans; [exact H|].
    apply extends_mark.
  - intros st f v _ H Hn. simpl. eapply extends_trans; [exact H|].
    now apply extends_set_uidvalidity.
  - apply extends_refl.
Qed.

(* ------------------------------------------------------------------ *)
(** ** The backfill pass, run again *)

Lemma linked_extends s s' pk e r : linked s pk e r -> extends s s' -> linked s' pk e r.
Proof.
  unfold linked. intros H (_ & [b Hb] & _ & [d Hd] & _).
  unfold add_participant, get_or_create_email_address in *.
  destruct e as [raw|]; [|reflexivity].
  destruct (negb (PyStr.truthy raw)); [reflexivity|].
  destruct (find _ (email_address s)) as [p|] eqn:Ef.
  - rewrite Hb. rewrite (find_app_found _ _ b _ Ef).
    destruct (fst p =? 0); [reflexivity|].
    unfold insert_participant in *.
    destruct (existsb _ (email_participant s)) eqn:Ex.
    + rewrite Hd, existsb_app, Ex. reflexivity.
    + exfalso. apply (f_equal email_participant) in H. simpl in H.
      apply (f_equal (@List.length _)) in H. rewrite length_app in H. simpl in H. lia.
  - exfalso. simpl in H. unfold insert_participant in H.
    match type of H with
    | (if ?c then _ else _) = _ => destruct c
    end; apply (f_equal email_address) in H; simpl in H;
      apply (f_equal (@List.length _)) in H; rewrite length_app in H; simpl in H; lia.
Qed.

Lemma add_participants_linked addrs : forall s pk r,
  Forall (fun a => linked (add_participants s pk addrs r) pk (Some a) r) addrs.
Proof.
  induction addrs as [|a addrs IH]; intros s pk r; [constructor|].
  constructor.
  - apply linked_extends with (s := add_participant s pk (Some a) r).
    + apply add_participant_linked.
    + apply (extends_add_participants addrs (add_participant s pk (Some a) r) pk r).
  - apply (IH (add_participant s pk (Some a) r) pk r).
Qed.

Lemma add_participants_on_linked addrs : forall s pk r,
  Forall (fun a => linked s pk (Some a) r) addrs -> add_participants s pk addrs r = s.
Proof.
  unfold add_participants.
  induction addrs as [|a addrs IH]; intros s pk r H; simpl; [reflexivity|].
  inversion H as [|? ? Ha Hr]; subst. unfold linked in Ha. rewrite Ha. now apply IH.
Qed.

Lemma Forall_linked_extends s s' pk r l :
  extends s s' ->
  Forall (fun a => linked s pk (Some a) r) l -> Forall (fun a => linked s' pk (Some a) r) l.
Proof.
  intros He H. eapply Forall_impl; [|exact H]. intros a Ha.
  exact (linked_extends s s' pk (Some a) r Ha He).
Qed.

Lemma migrated_extends s s' row : migrated s row -> extends s s' -> migrated s' row.
Proof.
  intros (e & Hf & H1 & H2 & H3 & H4) He. exists e.
  pose proof He as (_ & _ & [c Hc] & _).
  split; [rewrite Hc; now apply find_app_found|].
  split; [eapply linked_extends; eassumption|].
  split; [eapply Forall_linked_extends; eassumption|].
  split; eapply Forall_linked_extends; eassumption.
Qed.

Lemma migrate_row_extends s row s' : Migration.migrate_row s row = Ok s' -> extends s s'.
Proof.
  unfold Migration.migrate_row, Migration.get_or_create_email.
  destruct (find _ _) as [e|]; [|discriminate]. intros H. injection H as <-.
  eapply extends_trans; [apply extends_insert_email|].
  eapply extends_trans; [apply extends_add_participant|].
  eapply extends_trans; [apply extends_add_participants|].
  eapply extends_trans; [apply extends_add_participants|].
  apply extends_add_participants.
Qed.

Lemma migrate_row_migrated s row s' :
  Migration.migrate_row s row = Ok s' -> migrated s' row.
Proof.
  unfold Migration.migrate_row, Migration.get_or_create_email.
  set (s1 := insert_email s (d_uid row) (d_folder row) (d_subject row) (d_date row)
               (d_body_text row) (d_body_html row) (d_attachment_dir row) None).
  fold (same_key row).
  destruct (find (same_key row) (email s1)) as [e|] eqn:Ef; [|discriminate].
  intros H. injection H as <-.
  set (s2 := add_participant s1 (e_pk e) (d_sender row) RFrom).
  set (s3 := add_participants s2 (e_pk e) (Migration.parse_recipients (d_recipients row)) RTo).
  set (s4 := add_participants s3 (e_pk e) (Migration.parse_recipients (d_cc row)) RCc).
  set (s5 := add_participants s4 (e_pk e) (Migration.parse_recipients (d_bcc row)) RBcc).
  assert (E12 : extends s1 s2) by apply extends_add_participant.
  assert (E23 : extends s2 s3) by apply extends_add_participants.
  assert (E34 : extends s3 s4) by apply extends_add_participants.
  assert (E45 : extends s4 s5) by apply extends_add_participants.
  assert (E35 : extends s3 s5) by (eapply extends_trans; eassumption).
  assert (E25 : extends s2 s5) by (eapply extends_trans; eassumption).
  assert (E15 : extends s1 s5) by (eapply extends_trans; eassumption).
  exists e.
  split; [destruct E15 as (_ & _ & [c Hc] & _); rewrite Hc; now apply find_app_found|].
  split; [eapply linked_extends; [apply add_participant_linked | exact E25]|].
  split; [eapply Forall_linked_extends; [exact E35 | apply add_participants_linked]|].
  split; [eapply Forall_linked_extends; [exact E45 | apply add_participants_linked]|].
  apply add_participants_linked.
Qed.

Lemma migrate_row_on_migrated s row :
  migrated s row ->
  Migration.migrate_row s row =
  Ok (insert_email s (d_uid row) (d_folder row) (d_subject row) (d_date row)
        (d_body_text row) (d_body_html row) (d_attachment_dir row) None).
Proof.
  intros Hm.
  pose proof (migrated_extends s _ row Hm
                (extends_insert_email s (d_uid row) (d_folder row) (d_subject row)
                   (d_date row) (d_body_text row) (d_body_html row)
                   (d_attachment_dir row) None)) as (e & Hf & H1 & H2 & H3 & H4).
  unfold Migration.migrate_row, Migration.get_or_create_email.
  fold (same_key row). rewrite Hf.
  unfold linked in H1. rewrite H1.
  rewrite (add_participants_on_linked _ _ _ _ H2).
  rewrite (add_participants_on_linked _ _ _ _ H3).
  now rewrite (add_participants_on_linked _ _ _ _ H4).
Qed.

Lemma migrate_rows_migrated rows : forall s s',
  Migration.migrate_rows rows s = Ok s' ->
  extends s s' /\ forall row, In row rows -> migrated s' row.
Proof.
  induction rows as [|row rows IH]; intros s s' H; simpl in H.
  - injection H as <-. split; [apply extends_refl | intros ? []].
  - destruct (Migration.migrate_row s row) as [s1|] eqn:E1; [|discriminate].
    destruct (IH s1 s' H) as [He Hall].
    split; [eapply extends_trans; [eapply migrate_row_extends; exact E1 | exact He]|].
    intros r [<-|Hr]; [|now apply Hall].
    eapply migrated_extends; [eapply migrate_row_migrated; exact E1 | exact He].
Qed.

Lemma migrate_rows_on_migrated rows : forall s,
  (forall row, In row rows -> migrated s row) ->
  exists s', Migration.migrate_rows rows s = Ok s'
    /\ downloaded_emails s' = downloaded_emails s
    /\ folder_uidvalidity s' = folder_uidvalidity s
    /\ email_address s' = email_address s
    /\ email_participant s' = email_participant s
    /\ List.length (email s') = List.length (email s) + List.length rows.
Proof.
  induction rows as [|row rows IH]; intros s H; simpl.
  - exists s. rewrite Nat.add_0_r. auto 6.
  - rewrite (migrate_row_on_migrated s row (H row (or_introl eq_refl))).
    set (s1 := insert_email _ _ _ _ _ _ _ _ _).
    destruct (IH s1) as (s' & E & D & V & A & P & L).
    + intros r Hr. eapply migrated_extends; [apply H; now right|].
      apply extends_insert_email.
    + exists s'. split; [exact E|]. rewrite D, V, A, P, L. unfold s1. simpl.
      rewrite length_app. simpl. repeat split; lia.
Qed.

(* ------------------------------------------------------------------ *)
(** ** A run that is cut short *)

Lemma no_retry_refl (C : Capability) (st : state C) : no_retry C st st.
Proof. exists []. now rewrite app_nil_r. Qed.

Lemma no_retry_trans (C : Capability) (a b c : state C) :
  no_retry C a b -> no_retry C b c -> no_retry C a c.
Proof.
  intros (d1 & T1 & F1) (d2 & T2 & F2). exists (d1 ++ d2).
  split; [now rewrite T2, T1, app_assoc | now rewrite filter_app, F1, F2].
Qed.

Lemma no_retry_same (C : Capability) (st st' : state C) :
  trace st' = trace st -> no_retry C st st'.
Proof. intros H. exists []. now rewrite app_nil_r. Qed.

Lemma main_pass_no_retry (C : Capability) st r st' :
  main_pass C st = (r, st') -> no_retry C st st'.
Proof.
  revert st r st'.
  apply (@keeps_main_pass C (no_retry C) (fun ev => is_retry_event ev = false));
    try (intros; reflexivity);
    try (intros; apply no_retry_same; reflexivity);
    try apply no_retry_refl; try apply no_retry_trans.
  - intros st ev Hev. exists [ev]. simpl. now rewrite Hev.
  - intros st u f. exists [EvLogError u f]. split; reflexivity.
Qed.

(** X15. When an exception leaves the main pass, the run stops there:
    [main] reports a failed connection, its final state is the state
    the main pass left, with the queue as it stood, and the trace
    holds no retry event: the messages queued so far are not retried.
    Conversely [main] reports a failed connection only then. *)
Theorem aborted_run_retries_nothing (C : Capability) fuel db w :
  (forall e st,
      main_pass C (initial_state C db w) = (Raise e, st) ->
      main C fuel db w = (ConnectionFailed, st)
      /\ filter is_retry_event (trace st) = [])
  /\ (forall st,
        main C fuel db w = (ConnectionFailed, st) ->
        exists e, main_pass C (initial_state C db w) = (Raise e, st)).
Proof.
  split.
  - intros e st E. unfold main. rewrite E. split; [reflexivity|].
    destruct (main_pass_no_retry C _ _ _ E) as (d & T & F).
    rewrite T. simpl. exact F.
  - intros st. unfold main.
    destruct (main_pass C (initial_state C db w)) as [[x|e] st1] eqn:E.
    + destruct (retry_loop C fuel 0 st1) as [st2 fin]. destruct fin; discriminate.
    + intros H. injection H as <-. now exists e.
Qed.

Lemma aborted_run_retries_nothing_witness :
  main_pass cut_short (initial_state cut_short empty_store 0)
  = (Raise OtherError, snd (main cut_short 5 empty_store 0))
  /\ main cut_short 5 empty_store 0
     = (ConnectionFailed, snd (main cut_short 5 empty_store 0))
  /\ failed_emails (snd (main cut_short 5 empty_store 0)) = [(1%Z, "A")]
  /\ filter is_retry_event (trace (snd (main cut_short 5 empty_store 0))) = [].
Proof.
  assert (H : main_pass cut_short (initial_state cut_short empty_store 0)
              = (Raise OtherError, snd (main cut_short 5 empty_store 0)))
    by (vm_compute; reflexivity).
  split; [exact H|].
  destruct (proj1 (aborted_run_retries_nothing cut_short 5 empty_store 0) _ _ H)
    as [H1 H2].
  split; [exact H1|]. split; [vm_compute; reflexivity | exact H2].
Defined.

(* ------------------------------------------------------------------ *)
(** ** One message of the main pass *)

(** X16. The two ways a message fails in the main pass.  When
    [process_message] raises, the queues and the trace are untouched
    and either the writing of the attachments raised, in which case
    nothing was written to the store, or the message has no
    [Message-ID] header, the exception is the [TypeError] of
    [fetchone()[0]], and the store has gained the raw row and an
    [email] row but no participant. *)
Theorem process_message_fails_in_two_ways (C : Capability) f msg (st : state C) e st' :
  process_message C f msg st = (Raise e, st') ->
  failed_emails st' = failed_emails st
  /\ failed_folders st' = failed_folders st /\ trace st' = trace st
  /\ ((msg_attachments msg <> []
       /\ save_attachments C msg (uid msg) f (world st) = (Raise e, world st')
       /\ conn st' = conn st)
      \/ (header_message_id msg = None /\ e = TypeError
          /\ exists d,
               conn st' =
               insert_email
                 (mark_email_downloaded (conn st) (downloaded_of (uid msg) f msg d))
                 (uid msg) f (subject msg) (date msg) (text msg) (html msg)
                 (first_attachment d) None)).
Proof.
  unfold process_message. unfold bind at 1.
  destruct (extract_email_data C msg (uid msg) f st) as [[d|e1] st1] eqn:E1;
    destruct (extract_email_data_frame C _ _ _ _ _ _ E1) as (C1 & C2 & C3 & C4).
  - assert (Hd : message_id d = header_message_id msg).
    { unfold extract_email_data in E1. unfold bind at 1 in E1.
      destruct (match msg_attachments msg with
                | [] => ret []
                | _ :: _ => call (save_attachments C msg (uid msg) f)
                end st) as [[p|e2] st2]; [|discriminate].
      unfold ret in E1. now injection E1 as <- _. }
    unfold bind at 1, update_conn at 1. cbv beta iota.
    unfold bind at 1, get_or_create_email_m, get_or_create_email, update_conn.
    cbn [conn set_conn].
    destruct (find _ _) as [x|] eqn:Ef; [discriminate|].
    intros H. injection H as <- <-. simpl.
    split; [exact C2 | split; [exact C3 | split; [exact C4|]]].
    right. destruct (message_id d) as [mid|] eqn:Em.
    + exfalso. revert Ef. simpl. apply find_app_last. simpl.
      now rewrite Z.eqb_refl, !String.eqb_refl.
    + split; [now rewrite <- Hd|]. split; [reflexivity|].
      exists d. now rewrite C1.
  - intros H. injection H as <- <-.
    split; [exact C2 | split; [exact C3 | split; [exact C4|]]]. left.
    unfold extract_email_data in E1. unfold bind at 1 in E1.
    destruct (msg_attachments msg) as [|a l]; [discriminate|].
    split; [discriminate|].
    destruct (call (save_attachments C msg (uid msg) f) st) as [[p|e2] st2] eqn:E2;
      [discriminate|].
    injection E1 as <- <-.
    destruct (call_frame C _ _ _ _ E2) as (_ & _ & _ & _ & Hw). auto.
Qed.

Lemma process_message_fails_in_two_ways_witness :
  process_message calm_inbox "INBOX" (Scripted.plain_message 1 "alice@example.com" None)
    (initial_state calm_inbox empty_store 0)
  = (Raise TypeError,
     snd (process_message calm_inbox "INBOX"
            (Scripted.plain_message 1 "alice@example.com" None)
            (initial_state calm_inbox empty_store 0)))
  /\ failed_emails
       (snd (process_message calm_inbox "INBOX"
               (Scripted.plain_message 1 "alice@example.com" None)
               (initial_state calm_inbox empty_store 0))) = [].
Proof.
  assert (H : process_message calm_inbox "INBOX"
                (Scripted.plain_message 1 "alice@example.com" None)
                (initial_state calm_inbox empty_store 0)
              = (Raise TypeError,
                 snd (process_message calm_inbox "INBOX"
                        (Scripted.plain_message 1 "alice@example.com" None)
                        (initial_state calm_inbox empty_store 0))))
    by (vm_compute; reflexivity).
  split; [exact H|].
  exact (proj1 (process_message_fails_in_two_ways calm_inbox _ _ _ _ _ H)).
Defined.

(** X17. A run that completes has stored every message it queued:
    each pair still listed in [failed_emails] when [main] returns
    [Completed] has its raw row in [downloaded_emails]. *)
Theorem completed_run_has_stored_its_queue (C : Capability) fuel db w x st :
  main C fuel db w = (Completed x, st) ->
  forall u f, In (u, f) (failed_emails st) -> is_email_downloaded (conn st) u f = true.
Proof. intros H u f Hin. exact (main_completed_stored C fuel db w x st H u f Hin). Qed.

Lemma completed_run_has_stored_its_queue_witness :
  main skewed 5 skewed_store 0 = (Completed LoopBreak, snd (main skewed 5 skewed_store 0))
  /\ In (1%Z, "A") (failed_emails (snd (main skewed 5 skewed_store 0)))
  /\ is_email_downloaded (conn (snd (main skewed 5 skewed_store 0))) 1 "A" = true.
Proof.
  assert (H : main skewed 5 skewed_store 0
              = (Completed LoopBreak, snd (main skewed 5 skewed_store 0)))
    by (vm_compute; reflexivity).
  assert (Hin : In (1%Z, "A") (failed_emails (snd (main skewed 5 skewed_store 0))))
    by (vm_compute; left; reflexivity).
  split; [exact H|]. split; [exact Hin|].
  exact (completed_run_has_stored_its_queue skewed 5 skewed_store 0 _ _ H 1%Z "A" Hin).
Defined.

(* ------------------------------------------------------------------ *)
(** ** Which batches are requested *)

Lemma fetches_app a b : fetches (a ++ b) = fetches a ++ fetches b.
Proof. apply filter_app. Qed.

Lemma message_loop_fetches (C : Capability) f ex msgs : forall st,
  fetches (trace (message_loop C f ex msgs st)) = fetches (trace st).
Proof.
  induction msgs as [|m msgs IH]; intros st; simpl; [reflexivity|].
  destruct (mem_uid (uid m) ex); [apply IH|].
  destruct (process_message C f m st) as [[[]|e] st1] eqn:E;
    destruct (process_message_frame C f m st _ st1 E) as (_ & _ & T & _);
    rewrite IH.
  - now rewrite T.
  - simpl. rewrite fetches_app, T. simpl. now rewrite app_nil_r.
Qed.

Lemma filter_nil_iff {A} (p : A -> bool) l :
  filter p l = [] <-> forall x, In x l -> p x = false.
Proof.
  induction l as [|a l IH]; simpl; [tauto|].
  destruct (p a) eqn:E; split.
  - discriminate.
  - intros H. specialize (H a (or_introl eq_refl)). congruence.
  - intros H x [<-|Hx]; [exact E | now apply IH].
  - intros H. apply IH. auto.
Qed.

Lemma nothing_missing s f batches :
  log_missing_uids s f (List.concat batches) = None
  <-> filter (has_missing (get_existing_uids s f)) batches = [].
Proof.
  unfold log_missing_uids, get_existing_uids.
  set (ex := uids_of_folder s f).
  assert (H : filter (fun u => negb (mem_uid u ex)) (List.concat batches) = []
              <-> filter (has_missing ex) batches = []).
  { rewrite !filter_nil_iff. unfold has_missing. split.
    - intros H b Hb. apply negb_false_iff. apply forallb_forall. intros u Hu.
      apply negb_false_iff. apply H. apply in_concat. eauto.
    - intros H u Hu. apply in_concat in Hu. destruct Hu as (b & Hb & Hu).
      specialize (H b Hb). apply negb_false_iff in H.
      apply negb_false_iff. revert u Hu. now apply forallb_forall. }
  rewrite <- H. destruct (filter _ (List.concat batches)); split; congruence.
Qed.

Lemma fetch_m_frame (C : Capability) f c (st : state C) r st' :
  fetch_m C f c st = (r, st') ->
  conn st' = conn st /\ failed_emails st' = failed_emails st
  /\ failed_folders st' = failed_folders st
  /\ trace st' = trace st ++ [EvFetch f c]
  /\ fetch C f c (world st) = (r, world st').
Proof.
  unfold fetch_m. unfold bind at 1, tell at 1. cbv beta iota. intros E.
  destruct (call_frame C _ _ _ _ E) as (H1 & H2 & H3 & H4 & H5). auto.
Qed.

Lemma batch_loop_requests (C : Capability) f ex batches : forall (st : state C) r st',
  batch_loop C f ex batches st = (r, st') ->
  exists requested rest,
    filter (has_missing ex) batches = requested ++ rest
    /\ fetches (trace st') = fetches (trace st) ++ map (fun b => EvFetch f (CUidList b)) requested
    /\ match r with
       | Ok _ => rest = [] /\ Forall (answered C f) requested
       | Raise e =>
           exists done last w,
             requested = done ++ [last]
             /\ Forall (answered C f) done
             /\ fetch C f (CUidList last) w = (Raise e, world st')
       end.
Proof.
  induction batches as [|b batches IH]; intros st r st' H; cbn [batch_loop] in H.
  - injection H as <- <-. exists [], []. simpl. rewrite app_nil_r. auto.
  - cbn [filter]. unfold has_missing at 1.
    destruct (forallb (fun u => mem_uid u ex) b) eqn:Eb; cbn [negb]; [now apply IH|].
    unfold bind at 1 in H.
    destruct (fetch_m C f (CUidList b) st) as [[msgs|e] st1] eqn:E1;
      destruct (fetch_m_frame C _ _ _ _ _ E1) as (_ & _ & _ & T1 & W1).
    + unfold bind at 1 in H. cbv beta iota in H.
      destruct (IH _ _ _ H) as (done & rest & H1 & H2 & H3).
      assert (Hb : answered C f b) by (exists (world st), msgs, (world st1); exact W1).
      exists (b :: done), rest. split; [simpl; now rewrite H1|].
      split.
      * rewrite H2, message_loop_fetches, T1, fetches_app. simpl.
        now rewrite <- app_assoc.
      * destruct r as [x|e].
        -- destruct H3 as [H3 H4]. split; [exact H3 | now constructor].
        -- destruct H3 as (d & last & w & H3 & H4 & H5).
           exists (b :: d), last, w. split; [now rewrite H3|].
           split; [now constructor | exact H5].
    + injection H as <- <-.
      exists [b], (filter (has_missing ex) batches).
      split; [reflexivity|]. split; [now rewrite T1, fetches_app|].
      exists [], b, (world st). split; [reflexivity|]. split; [constructor | exact W1].
Qed.

(** X18. Which batches the batch loop asks the server for.  With
    [existing_uids] read from the store as the attempt does, the
    loop's fetch requests are, in order and once each, the batches
    that hold at least one UID without a raw row; batches whose UIDs
    are all stored are never requested.  The loop goes on as long as
    the requests are answered: when it returns, every such batch has
    been requested and answered; when it raises, the exception is the
    one the server raised on the last request, all requests before it
    having been answered, and the batches after it are left out.  No
    batch at all is requested exactly when [log_missing_uids] finds
    nothing to report for the same UIDs. *)
Theorem batch_loop_requests_batches_with_missing_uids
        (C : Capability) (f : string) (batches : list (list Z)) (st : state C) :
  (exists requested rest,
      filter (has_missing (get_existing_uids (conn st) f)) batches = requested ++ rest
      /\ fetches (trace (snd (batch_loop C f (get_existing_uids (conn st) f) batches st)))
         = fetches (trace st) ++ map (fun b => EvFetch f (CUidList b)) requested
      /\ match fst (batch_loop C f (get_existing_uids (conn st) f) batches st) with
         | Ok _ => rest = [] /\ Forall (answered C f) requested
         | Raise e =>
             exists done last w,
               requested = done ++ [last]
               /\ Forall (answered C f) done
               /\ fetch C f (CUidList last) w
                  = (Raise e,
                     world (snd (batch_loop C f (get_existing_uids (conn st) f)
                                            batches st)))
         end)
  /\ (log_missing_uids (conn st) f (List.concat batches) = None
      <-> filter (has_missing (get_existing_uids (conn st) f)) batches = []).
Proof.
  split; [|apply nothing_missing].
  destruct (batch_loop C f (get_existing_uids (conn st) f) batches st) as [r st'] eqn:E.
  exact (batch_loop_requests C f _ batches st r st' E).
Qed.

(* ------------------------------------------------------------------ *)
(** ** [get_uid_range] and [fetch_uids_in_batches] *)

Lemma fold_left_min_le l : forall a, (fold_left Z.min l a <= a)%Z.
Proof.
  induction l as [|x l IH]; intros a; simpl; [lia|].
  specialize (IH (Z.min a x)). lia.
Qed.

Lemma fold_left_min_lower l : forall a x, In x l -> (fold_left Z.min l a <= x)%Z.
Proof.
  induction l as [|y l IH]; intros a x Hx; simpl; [contradiction|].
  destruct Hx as [<-|Hx]; [|now apply IH].
  pose proof (fold_left_min_le l (Z.min a y)). lia.
Qed.

Lemma fold_left_min_in l : forall a, fold_left Z.min l a = a \/ In (fold_left Z.min l a) l.
Proof.
  induction l as [|x l IH]; intros a; simpl; [now left|].
  destruct (IH (Z.min a x)) as [H|H]; [|now right; right].
  rewrite H. destruct (Z.min_spec a x) as [[_ ->]|[_ ->]]; [now left | right; now left].
Qed.

(** X19. [get_uid_range] selects the folder and fetches everything
    once.  When it returns [(lo, hi)] for a non-empty answer, both
    bounds are UIDs of the answer and every UID of the answer lies
    between them; for an empty answer it returns [(0, 0)].  It raises
    only when the server does, and it never touches the store. *)
Theorem get_uid_range_bounds (C : Capability) (f : string) (st : state C) :
  conn (snd (get_uid_range C f st)) = conn st
  /\ match fst (get_uid_range C f st) with
     | Ok (lo, hi) =>
         exists msgs,
           fetch C f CAll (snd (folder_set C f (world st)))
           = (Ok msgs, world (snd (get_uid_range C f st)))
           /\ trace (snd (get_uid_range C f st)) = trace st ++ [EvFetch f CAll]
           /\ match msgs with
              | [] => lo = 0%Z /\ hi = 0%Z
              | _ => In lo (map uid msgs) /\ In hi (map uid msgs)
                     /\ forall m, In m msgs -> (lo <= uid m <= hi)%Z
              end
     | Raise e =>
         fst (folder_set C f (world st)) = Raise e
         \/ fst (fetch C f CAll (snd (folder_set C f (world st)))) = Raise e
     end.
Proof.
  destruct (get_uid_range C f st) as [r st'] eqn:E. simpl.
  unfold get_uid_range in E. unfold bind at 1 in E.
  destruct (call (folder_set C f) st) as [[[]|e] st1] eqn:E1;
    destruct (call_frame C _ _ _ _ E1) as (C1 & _ & _ & T1 & W1); rewrite W1; simpl.
  2: { injection E as <- <-. auto. }
  unfold bind at 1 in E.
  destruct (fetch_m C f CAll st1) as [[msgs|e] st2] eqn:E2;
    destruct (fetch_m_frame C _ _ _ _ _ E2) as (C2 & _ & _ & T2 & W2).
  2: { injection E as <- <-. split; [congruence|]. right. now rewrite W2. }
  unfold ret in E. injection E as <- <-.
  split; [congruence|].
  destruct msgs as [|m msgs].
  - simpl. exists []. rewrite W2, T2, T1. auto.
  - cbn [map min_list max_list].
    exists (m :: msgs). rewrite W2, T2, T1.
    split; [reflexivity|]. split; [reflexivity|].
    split; [|split].
    + destruct (fold_left_min_in (map uid msgs) (uid m)) as [->|H];
        [now left | now right].
    + pose proof (max_list_in (map uid (m :: msgs))) as H. simpl in H.
      apply (H _ eq_refl).
    + intros x Hx. apply (in_map uid) in Hx. split.
      * simpl in Hx. destruct Hx as [<-|Hx];
          [apply fold_left_min_le | now apply fold_left_min_lower].
      * apply (max_list_ge (map uid (m :: msgs)) _ eq_refl _ Hx).
Qed.

Lemma insert_sorted_perm u l : Permutation (insert_sorted u l) (u :: l).
Proof.
  induction l as [|v l IH]; simpl; [reflexivity|].
  destruct (u <=? v)%Z; [reflexivity|].
  rewrite IH. apply perm_swap.
Qed.

Lemma sorted_perm l : Permutation (sorted l) l.
Proof.
  induction l as [|u l IH]; simpl; [constructor|].
  rewrite insert_sorted_perm. now constructor.
Qed.

Lemma insert_sorted_ascending u l :
  StronglySorted Z.le l -> StronglySorted Z.le (insert_sorted u l).
Proof.
  induction l as [|v l IH]; intros H; simpl.
  - repeat constructor.
  - inversion H as [|? ? Hs Hf]; subst.
    destruct (Z.leb_spec u v).
    + constructor; [exact H|]. constructor; [assumption|].
      eapply Forall_impl; [|exact Hf]. intros x Hx. simpl in Hx. lia.
    + constructor; [now apply IH|].
      eapply Permutation_Forall.
      * symmetry. apply insert_sorted_perm.
      * constructor; [lia | exact Hf].
Qed.

Lemma sorted_ascending l : StronglySorted Z.le (sorted l).
Proof.
  induction l as [|u l IH]; simpl; [constructor | now apply insert_sorted_ascending].
Qed.

(** X20. [fetch_uids_in_batches] selects the folder, fetches
    everything once and never touches the store.  With a positive
    batch size, whenever the server answers it returns batches whose
    concatenation is the answer's UIDs in ascending order, none of
    them empty or longer than the batch size; with batch size 0 it
    raises [ValueError], after the fetch. *)
Theorem fetch_uids_in_batches_sorted_partition
        (C : Capability) (f : string) (n : nat) (st : state C) msgs w' :
  fst (folder_set C f (world st)) = Ok tt ->
  fetch C f CAll (snd (folder_set C f (world st))) = (Ok msgs, w') ->
  conn (snd (fetch_uids_in_batches C f n st)) = conn st
  /\ trace (snd (fetch_uids_in_batches C f n st)) = trace st ++ [EvFetch f CAll]
  /\ match n with
     | 0 => fst (fetch_uids_in_batches C f n st) = Raise ValueError
     | S _ =>
         exists batches,
           fst (fetch_uids_in_batches C f n st) = Ok batches
           /\ Permutation (List.concat batches) (map uid msgs)
           /\ StronglySorted Z.le (List.concat batches)
           /\ Forall (fun b => b <> [] /\ List.length b <= n) batches
     end.
Proof.
  intros Hset Hfetch.
  destruct (fetch_uids_in_batches C f n st) as [r st'] eqn:E. simpl.
  unfold fetch_uids_in_batches in E. unfold bind at 1 in E.
  destruct (call (folder_set C f) st) as [[[]|e] st1] eqn:E1;
    destruct (call_frame C _ _ _ _ E1) as (C1 & _ & _ & T1 & W1);
    rewrite W1 in Hset, Hfetch; simpl in Hset, Hfetch; [|discriminate].
  unfold bind at 1 in E.
  destruct (fetch_m C f CAll st1) as [[msgs'|e] st2] eqn:E2;
    destruct (fetch_m_frame C _ _ _ _ _ E2) as (C2 & _ & _ & T2 & W2);
    rewrite W2 in Hfetch; [|discriminate].
  injection Hfetch as <- <-.
  unfold lift_result in E. injection E as <- <-.
  split; [congruence|]. split; [now rewrite T2, T1|].
  destruct n as [|n]; [reflexivity|].
  exists (chunks (List.length (sorted (map uid msgs'))) (S n) (sorted (map uid msgs'))).
  split; [reflexivity|].
  destruct (chunks_partition n _ (sorted (map uid msgs')) (Nat.le_refl _)) as (Hc & Hf & _).
  rewrite Hc. split; [apply sorted_perm|]. split; [apply sorted_ascending | exact Hf].
Qed.

Lemma fetch_uids_in_batches_sorted_partition_witness :
  fst (fetch_uids_in_batches sent "Sent" 3 (initial_state sent empty_store 0))
  = Ok [[50%Z; 51%Z; 52%Z]; [53%Z]]
  /\ trace (snd (fetch_uids_in_batches sent "Sent" 3 (initial_state sent empty_store 0)))
     = [EvFetch "Sent" CAll].
Proof.
  destruct (fetch_uids_in_batches_sorted_partition sent "Sent" 3
              (initial_state sent empty_store 0)
              (Scripted.mb_messages sent_mailbox "Sent") 2 eq_refl eq_refl)
    as (_ & T & _).
  split; [vm_compute; reflexivity | exact T].
Defined.

(* ------------------------------------------------------------------ *)
(** ** [safe_commit] of the backfill script *)

Lemma locked_rounds_S k wait :
  [EvCommit; EvCommitSleep wait] ++ locked_rounds k wait = locked_rounds (S k) wait.
Proof. reflexivity. Qed.

Lemma safe_commit_loop_log (Conn : Type) (commit : Conn -> option commit_error * Conn)
      wait n : forall conn log,
  exists k,
    k <= n
    /\ all_locked Conn commit k conn
    /\ match safe_commit_loop Conn commit n wait conn log with
       | (CommitDone, conn', log') =>
           k < n
           /\ fst (commit (after_commits Conn commit k conn)) = None
           /\ conn' = after_commits Conn commit (S k) conn
           /\ log' = log ++ locked_rounds k wait ++ [EvCommit]
       | (CommitGaveUp, conn', log') =>
           k = n
           /\ conn' = after_commits Conn commit k conn
           /\ log' = log ++ locked_rounds k wait
       | (CommitReraised e, conn', log') =>
           k < n
           /\ fst (commit (after_commits Conn commit k conn)) = Some e
           /\ is_lock_error e = false
           /\ conn' = after_commits Conn commit (S k) conn
           /\ log' = log ++ locked_rounds k wait ++ [EvCommit]
       end.
Proof.
  induction n as [|n IH]; intros conn log; cbn [safe_commit_loop].
  - exists 0. split; [lia|]. split; [intros i Hi; lia|].
    split; [reflexivity|]. split; [reflexivity|]. simpl. now rewrite app_nil_r.
  - destruct (commit conn) as [[[msg|]|] conn1] eqn:Ec.
    + destruct (database_is_locked msg) eqn:El.
      * destruct (IH conn1 (log ++ [EvCommit; EvCommitSleep wait])) as (k & Hk & Hl & H).
        exists (S k). split; [lia|].
        assert (Hc1 : forall j, after_commits Conn commit (S j) conn
                                = after_commits Conn commit j conn1)
          by (intros j; simpl; now rewrite Ec).
        split.
        { intros i Hi. destruct i as [|i].
          - exists msg. simpl. rewrite Ec. now split.
          - rewrite Hc1. apply Hl. lia. }
        rewrite !Hc1.
        destruct (safe_commit_loop Conn commit n wait conn1 _) as [[[| |e] c] l].
        -- destruct H as (H1 & H2 & H3 & H4). split; [lia|]. split; [exact H2|].
           split; [exact H3|]. rewrite H4, <- app_assoc. reflexivity.
        -- destruct H as (H1 & H2 & H3). split; [lia|]. split; [exact H2|].
           rewrite H3, <- app_assoc. reflexivity.
        -- destruct H as (H1 & H2 & H3 & H4 & H5). split; [lia|]. split; [exact H2|].
           split; [exact H3|]. split; [exact H4|]. rewrite H5, <- app_assoc. reflexivity.
      * exists 0. split; [lia|]. split; [intros i Hi; lia|]. simpl. rewrite Ec.
        split; [lia|]. split; [reflexivity|]. split; [exact El|]. split; reflexivity.
    + exists 0. split; [lia|]. split; [intros i Hi; lia|]. simpl. rewrite Ec.
      split; [lia|]. split; [reflexivity|]. split; [reflexivity|]. split; reflexivity.
    + exists 0. split; [lia|]. split; [intros i Hi; lia|]. simpl. rewrite Ec.
      split; [lia|]. split; [reflexivity|]. split; reflexivity.
Qed.

(** X21. [safe_commit], whatever [commit] does.  It calls
    [conn.commit()] at most [retries] times, each on the connection
    the previous call left, and calls it again only after a lock
    error, sleeping [wait] after each of those, the last one included.
    It returns after the first commit that succeeds, passes on at once
    the first error that is not a lock error, and gives up with
    [RuntimeError] exactly when all [retries] commits found the
    database locked; with [retries] zero or negative it gives up
    without committing. *)
Theorem safe_commit_retries_lock_errors_only
        (Conn : Type) (commit : Conn -> option commit_error * Conn)
        (retries : Z) (wait : nat) (conn : Conn) :
  exists k,
    k <= Z.to_nat retries
    /\ all_locked Conn commit k conn
    /\ match safe_commit Conn commit retries wait conn with
       | (CommitDone, conn', log) =>
           k < Z.to_nat retries
           /\ fst (commit (after_commits Conn commit k conn)) = None
           /\ conn' = after_commits Conn commit (S k) conn
           /\ log = locked_rounds k wait ++ [EvCommit]
       | (CommitGaveUp, conn', log) =>
           k = Z.to_nat retries
           /\ conn' = after_commits Conn commit k conn
           /\ log = locked_rounds k wait
       | (CommitReraised e, conn', log) =>
           k < Z.to_nat retries
           /\ fst (commit (after_commits Conn commit k conn)) = Some e
           /\ is_lock_error e = false
           /\ conn' = after_commits Conn commit (S k) conn
           /\ log = locked_rounds k wait ++ [EvCommit]
       end.
Proof.
  unfold safe_commit.
  exact (safe_commit_loop_log Conn commit wait (Z.to_nat retries) conn []).
Qed.

(* ------------------------------------------------------------------ *)
(** ** The validity check *)

(** X22. [ensure_folder_and_uidvalidity] records the first value it
    sees and never overwrites one.  When it returns, the server has
    just reported a UIDVALIDITY [v] for the folder and either nothing
    was recorded and the store is now the old one with [v] recorded
    for the folder by [set_uidvalidity], or [v] was recorded and the
    store is untouched.  When it raises, the store is untouched, and
    the exception is the one select or status raised, or the check's
    own [RuntimeError]: the status holds no UIDVALIDITY, or a value
    that differs from the recorded one.  In no case does it touch the
    queues or the trace. *)
Theorem ensure_folder_and_uidvalidity_records_first_value
        (C : Capability) (f : string) (st : state C) r st' :
  ensure_folder_and_uidvalidity C f st = (r, st') ->
  failed_emails st' = failed_emails st
  /\ failed_folders st' = failed_folders st
  /\ trace st' = trace st
  /\ match r with
     | Ok _ =>
         exists status v,
           fst (folder_set C f (world st)) = Ok tt
           /\ folder_status C f (snd (folder_set C f (world st))) = (Ok status, world st')
           /\ status_uidvalidity status = Some v
           /\ ((get_uidvalidity (conn st) f = None
                /\ conn st' = set_uidvalidity (conn st) f v)
               \/ (get_uidvalidity (conn st) f = Some v /\ conn st' = conn st))
     | Raise e =>
         conn st' = conn st
         /\ (folder_set C f (world st) = (Raise e, world st')
             \/ (fst (folder_set C f (world st)) = Ok tt
                 /\ folder_status C f (snd (folder_set C f (world st)))
                    = (Raise e, world st'))
             \/ (e = RuntimeError
                 /\ exists status,
                      fst (folder_set C f (world st)) = Ok tt
                      /\ folder_status C f (snd (folder_set C f (world st)))
                         = (Ok status, world st')
                      /\ (status_uidvalidity status = None
                          \/ exists v stored,
                               status_uidvalidity status = Some v
                               /\ get_uidvalidity (conn st) f = Some stored
                               /\ stored <> v)))
     end.
Proof.
  unfold ensure_folder_and_uidvalidity. unfold bind at 1.
  destruct (call (folder_set C f) st) as [[[]|e] st1] eqn:E1;
    destruct (call_frame C _ _ _ _ E1) as (C1 & Q1 & F1 & T1 & W1).
  2: { intros H. injection H as <- <-. rewrite C1. auto 7. }
  rewrite W1. cbn [fst snd]. unfold bind at 1.
  destruct (call (folder_status C f) st1) as [[status|e] st2] eqn:E2;
    destruct (call_frame C _ _ _ _ E2) as (C2 & Q2 & F2 & T2 & W2).
  2: { intros H. injection H as <- <-.
       split; [congruence|]. split; [congruence|]. split; [congruence|].
       split; [congruence|]. right. left. now split. }
  destruct (status_uidvalidity status) as [v|] eqn:Ev.
  2: { unfold raise. intros H. injection H as <- <-.
       split; [congruence|]. split; [congruence|]. split; [congruence|].
       split; [congruence|]. right. right. split; [reflexivity|].
       exists status. split; [reflexivity|]. split; [exact W2 | now left]. }
  rewrite C2, C1.
  destruct (get_uidvalidity (conn st) f) as [x|] eqn:Eg.
  - destruct (Z.eqb_spec x v) as [->|Hne]; simpl; intros H; injection H as <- <-;
      (split; [congruence|]); (split; [congruence|]); (split; [congruence|]).
    + exists status, v. split; [reflexivity|]. split; [exact W2|].
      split; [exact Ev|]. right. split; [reflexivity | congruence].
    + split; [congruence|]. right. right. split; [reflexivity|].
      exists status. split; [reflexivity|]. split; [exact W2|]. right.
      exists v, x. auto.
  - intros H. injection H as <- <-. cbn [conn set_conn failed_emails failed_folders trace].
    split; [congruence|]. split; [congruence|]. split; [congruence|].
    exists status, v. split; [reflexivity|]. split; [exact W2|].
    split; [exact Ev|]. left. split; reflexivity.
Qed.

Lemma ensure_folder_and_uidvalidity_records_first_value_witness :
  get_uidvalidity
    (conn (snd (ensure_folder_and_uidvalidity calm_inbox "INBOX"
                  (initial_state calm_inbox empty_store 0)))) "INBOX" = Some 7%Z
  /\ trace (snd (ensure_folder_and_uidvalidity calm_inbox "INBOX"
                   (initial_state calm_inbox empty_store 0))) = [].
Proof.
  split; [vm_compute; reflexivity|].
  assert (H : ensure_folder_and_uidvalidity calm_inbox "INBOX"
                (initial_state calm_inbox empty_store 0)
              = (Ok tt, snd (ensure_folder_and_uidvalidity calm_inbox "INBOX"
                               (initial_state calm_inbox empty_store 0))))
    by (vm_compute; reflexivity).
  exact (proj1 (proj2 (proj2 (ensure_folder_and_uidvalidity_records_first_value
                                calm_inbox "INBOX" _ _ _ H)))).
Defined.

(* ------------------------------------------------------------------ *)
(** ** The backfill script with its commits *)

Lemma reaches_refl rows x : reaches rows x x.
Proof. exists []. split; [constructor | reflexivity]. Qed.

Lemma reaches_trans rows x y z : reaches rows x y -> reaches rows y z -> reaches rows x z.
Proof.
  intros (t1 & F1 & ->) (t2 & F2 & ->). exists (t1 ++ t2).
  split; [now apply Forall_app|]. unfold apply_steps. now rewrite fold_left_app.
Qed.

Lemma reaches_step rows row t x :
  In row rows -> row_step row t -> reaches rows x (t x).
Proof.
  intros Hr Ht. exists [t]. split; [|reflexivity].
  constructor; [now exists row | constructor].
Qed.

(** A property kept by every step is kept along the way. *)
Lemma reaches_keeps rows (Q : store -> Prop) x x' :
  (forall row t y, In row rows -> row_step row t -> Q y -> Q (t y)) ->
  reaches rows x x' -> Q x -> Q x'.
Proof.
  intros HQ (ts & F & ->). revert x.
  induction F as [|t ts (row & Hr & Ht) _ IH]; intros x Hx; [exact Hx|].
  simpl. apply IH. eapply HQ; eassumption.
Qed.

Lemma get_or_create_email_address_unchanged s addr :
  email_address (fst (get_or_create_email_address s addr)) = email_address s ->
  fst (get_or_create_email_address s addr) = s.
Proof.
  unfold get_or_create_email_address. destruct addr as [raw|]; [|reflexivity].
  destruct (negb (PyStr.truthy raw)); [reflexivity|].
  destruct (find _ _); [reflexivity|]. simpl. intros H.
  apply (f_equal (@List.length _)) in H. rewrite length_app in H. simpl in H. lia.
Qed.

Lemma insert_participant_addresses_eq s p :
  email_address (insert_participant s p) = email_address s.
Proof. unfold insert_participant. now destruct (existsb _ _). Qed.

Lemma linked_address s pk addr r :
  linked s pk addr r -> address_step addr s = s.
Proof.
  unfold linked, address_step. intros H.
  apply get_or_create_email_address_unchanged.
  apply (f_equal email_address) in H. unfold add_participant in H.
  destruct (get_or_create_email_address s addr) as [s1 [id|]]; simpl in *;
    [|exact H].
  destruct (id =? 0); [exact H|]. now rewrite insert_participant_addresses_eq in H.
Qed.

Lemma add_participant_after_address s pk addr r :
  add_participant (address_step addr s) pk addr r = add_participant s pk addr r.
Proof.
  unfold address_step, add_participant.
  destruct (get_or_create_email_address s addr) as [s1 [id|]] eqn:E; simpl.
  - destruct addr as [raw|]; [|discriminate].
    assert (Ht : PyStr.truthy raw = true).
    { unfold get_or_create_email_address in E.
      destruct (PyStr.truthy raw); [reflexivity | discriminate]. }
    destruct (get_or_create_email_address_resolved _ _ _ _ E) as (p & Hp & <-).
    now rewrite (get_or_create_email_address_again s1 raw p Ht Hp).
  - assert (s1 = s).
    { unfold get_or_create_email_address in E. destruct addr as [raw|];
        [destruct (negb (PyStr.truthy raw)); [|destruct (find _ _); discriminate]|];
        now injection E as <-. }
    subst s1. now rewrite E.
Qed.

Section ScriptFacts.

Variable W : Type.
Variable commit_op : W -> option commit_error * W.

Local Abbreviation session := (Script.session W).
Local Abbreviation commit := (Script.commit W commit_op).
Local Abbreviation after := (after_commits session commit).
Local Abbreviation view := Script.view.
Local Abbreviation durable := Script.durable.
Local Abbreviation traj := (trajectory W).
Local Abbreviation failed := (commit_failed W commit_op).
Local Abbreviation never_fails := (commits_never_fail W commit_op).

Lemma commit_world c :
  commit_op (Script.lock_world c) = (fst (commit c), Script.lock_world (snd (commit c))).
Proof.
  unfold Script.commit. destruct (commit_op (Script.lock_world c)) as [[e|] w]; reflexivity.
Qed.

Lemma commit_frame c :
  view (snd (commit c)) = view c
  /\ Script.commits (snd (commit c)) = Script.commits c
  /\ match fst (commit c) with
     | None => durable (snd (commit c)) = view c
     | Some _ => durable (snd (commit c)) = durable c
     end.
Proof.
  unfold Script.commit. destruct (commit_op (Script.lock_world c)) as [[e|] w]; simpl; auto.
Qed.

Lemma after_commits_back k : forall c, after (S k) c = snd (commit (after k c)).
Proof.
  induction k as [|k IH]; intros c; [reflexivity|].
  change (after (S (S k)) c) with (after (S k) (snd (commit c))).
  rewrite IH. reflexivity.
Qed.

Lemma after_commits_locked k : forall c,
  all_locked session commit k c ->
  view (after k c) = view c /\ durable (after k c) = durable c
  /\ Script.commits (after k c) = Script.commits c.
Proof.
  induction k as [|k IH]; intros c H; [simpl; auto|].
  rewrite after_commits_back.
  destruct (IH c) as (V & D & L); [intros i Hi; apply H; lia|].
  destruct (H k (Nat.lt_succ_diag_r k)) as (msg & Hm & _).
  destruct (commit_frame (after k c)) as (V1 & L1 & D1). rewrite Hm in D1.
  split; [congruence|]. split; congruence.
Qed.

Lemma safe_commit_call_spec c r c' :
  Script.safe_commit_call W commit_op c = (r, c') ->
  view c' = view c
  /\ match r with
     | Ok _ => durable c' = view c
     | Raise e => durable c' = durable c /\ failed e c'
     end
  /\ (never_fails -> r = Ok tt).
Proof.
  unfold Script.safe_commit_call, safe_commit.
  change (Z.to_nat 10) with 10.
  destruct (safe_commit_loop_log session commit 2 10 c []) as (k & Hk & Hl & H).
  destruct (after_commits_locked k c Hl) as (Vk & Dk & Lk).
  destruct (safe_commit_loop session commit 10 2 c []) as [[o c1] log].
  destruct o as [| |e].
  - destruct H as (H1 & H2 & H3 & H4). intros E. injection E as <- <-.
    cbn [Script.view Script.durable Script.lock_world Script.commits].
    rewrite H3, after_commits_back.
    destruct (commit_frame (after k c)) as (V1 & L1 & D1). rewrite H2 in D1.
    split; [congruence|]. split; [congruence | reflexivity].
  - destruct H as (Hk10 & H3 & H4). intros E. injection E as <- <-.
    cbn [Script.view Script.durable Script.lock_world Script.commits].
    rewrite H3. split; [exact Vk|]. split.
    + split; [exact Dk|].
      destruct (Hl 9) as (msg & Hm & Hlock); [lia|].
      exists (Script.lock_world (after 9 c)), (OperationalError msg).
      split.
      * rewrite commit_world, Hm, Hk10. now rewrite (after_commits_back 9).
      * cbn [is_lock_error]. rewrite Hlock. split; [reflexivity|].
        exists (Script.commits (after k c)). rewrite H4, Hk10. reflexivity.
    + intros Hn. exfalso. destruct (Hl 0) as (msg & Hm & _); [lia|].
      cbn [after_commits] in Hm. pose proof (commit_world c) as Hw. rewrite Hm in Hw.
      specialize (Hn (Script.lock_world c)). rewrite Hw in Hn. discriminate.
  - destruct H as (H1 & H2 & H3 & H4 & H5). intros E. injection E as <- <-.
    cbn [Script.view Script.durable Script.lock_world Script.commits].
    rewrite H4, after_commits_back.
    destruct (commit_frame (after k c)) as (V1 & L1 & D1). rewrite H2 in D1.
    split; [congruence|]. split.
    + split; [congruence|].
      exists (Script.lock_world (after k c)), e. split.
      * now rewrite commit_world, H2.
      * rewrite H3. split; [reflexivity|].
        exists (Script.commits (snd (commit (after k c))) ++ locked_rounds k 2).
        rewrite H5. cbn [app]. now rewrite <- app_assoc.
    + intros Hn. exfalso.
      pose proof (commit_world (after k c)) as Hw. rewrite H2 in Hw.
      specialize (Hn (Script.lock_world (after k c))). rewrite Hw in Hn. discriminate.
Qed.

Variable rows : list downloaded_row.

Lemma trajectory_refl c : traj rows c c.
Proof. split; [apply reaches_refl | now left]. Qed.

Lemma trajectory_trans a b c : traj rows a b -> traj rows b c -> traj rows a c.
Proof.
  intros [V1 D1] [V2 D2]. split; [eapply reaches_trans; eassumption|].
  destruct D2 as [D2|D2].
  - rewrite D2. exact D1.
  - right. eapply reaches_trans; eassumption.
Qed.

(** A statement, then its [safe_commit]. *)
Lemma execute_commit_spec (t : store -> store) row c r c' :
  In row rows -> row_step row t ->
  Script.bind W (Script.execute W t) (fun _ => Script.safe_commit_call W commit_op) c
  = (r, c') ->
  traj rows c c' /\ view c' = t (view c)
  /\ match r with
     | Ok _ => True
     | Raise e => failed e c'
     end
  /\ (never_fails -> r = Ok tt).
Proof.
  intros Hr Ht. unfold Script.bind, Script.execute. intros E.
  destruct (safe_commit_call_spec _ _ _ E) as (V & D & N). simpl in V, D.
  assert (R : reaches rows (view c) (view c')).
  { rewrite V. eapply reaches_step; eassumption. }
  split; [|split; [exact V | split; [|exact N]]].
  - split; [exact R|]. destruct r as [x|e].
    + right. rewrite D, <- V. exact R.
    + left. apply D.
  - destruct r; [exact I | apply D].
Qed.

Lemma address_spec row addr r c res c' :
  In row rows -> In (addr, r) (row_links row) ->
  Script.get_or_create_email_address W commit_op addr c = (res, c') ->
  traj rows c c' /\ view c' = address_step addr (view c)
  /\ match res with
     | Ok id => id = snd (get_or_create_email_address (view c) addr)
     | Raise e => failed e c'
     end
  /\ (never_fails -> exists id, res = Ok id).
Proof.
  intros Hr Hl. unfold Script.get_or_create_email_address, address_step,
    get_or_create_email_address.
  destruct addr as [raw|].
  2: { intros E. injection E as <- <-. split; [apply trajectory_refl|].
       split; [reflexivity|]. split; [reflexivity | eauto]. }
  destruct (negb (PyStr.truthy raw)) eqn:Et.
  { intros E. injection E as <- <-. split; [apply trajectory_refl|].
    split; [reflexivity|]. split; [reflexivity | eauto]. }
  destruct (find _ (email_address (view c))) as [p|] eqn:Ef.
  { intros E. injection E as <- <-. split; [apply trajectory_refl|].
    split; [reflexivity|]. split; [reflexivity | eauto]. }
  intros E.
  set (t := address_step (Some raw)).
  assert (Ht : forall s, email_address s = email_address (view c) ->
                         t s = {| downloaded_emails := downloaded_emails s;
                                  folder_uidvalidity := folder_uidvalidity s;
                                  email_address :=
                                    email_address s
                                    ++ [(next_key (map fst (email_address (view c))),
                                         PyStr.lower (PyStr.strip raw))];
                                  email := email s;
                                  email_participant := email_participant s |}).
  { intros s Hs. unfold t, address_step, get_or_create_email_address.
    rewrite Et, Hs, Ef. reflexivity. }
  unfold Script.bind at 1 in E. unfold Script.execute at 1 in E.
  unfold Script.bind at 1 in E.
  match type of E with
  | context [Script.safe_commit_call W commit_op ?c0] =>
      destruct (Script.safe_commit_call W commit_op c0) as [[[]|e] c1] eqn:E1;
        destruct (safe_commit_call_spec _ _ _ E1) as (V & D & N); simpl in V, D
  end.
  - unfold Script.ret in E. injection E as <- <-.
    rewrite <- (Ht (view c) eq_refl) in V, D.
    assert (R : reaches rows (view c) (view c1)).
    { rewrite V. eapply reaches_step; [exact Hr|]. eapply step_address. exact Hl. }
    split; [split; [exact R | right; rewrite D, <- V; exact R]|].
    split; [rewrite V; unfold t, address_step, get_or_create_email_address;
            now rewrite Et, Ef|].
    split; [reflexivity | eauto].
  - injection E as <- <-.
    rewrite <- (Ht (view c) eq_refl) in V.
    assert (R : reaches rows (view c) (view c1)).
    { rewrite V. eapply reaches_step; [exact Hr|]. eapply step_address. exact Hl. }
    split; [split; [exact R | left; apply D]|].
    split; [rewrite V; unfold t, address_step, get_or_create_email_address;
            now rewrite Et, Ef|].
    split; [apply D|]. intros Hn. specialize (N Hn). discriminate.
Qed.

Lemma email_spec row c res c' :
  In row rows ->
  Script.get_or_create_email W commit_op row c = (res, c') ->
  traj rows c c' /\ view c' = insert_row row (view c)
  /\ match res with
     | Ok pk => exists e, find (same_key row) (email (view c')) = Some e /\ pk = e_pk e
     | Raise e => failed e c'
     end
  /\ (never_fails -> exists pk, res = Ok pk).
Proof.
  intros Hr. unfold Script.get_or_create_email. intros E.
  unfold Script.bind at 1 in E. unfold Script.execute at 1 in E.
  unfold Script.bind at 1 in E.
  match type of E with
  | context [Script.safe_commit_call W commit_op ?c0] =>
      destruct (Script.safe_commit_call W commit_op c0) as [[[]|e] c1] eqn:E1;
        destruct (safe_commit_call_spec _ _ _ E1) as (V & D & N); simpl in V, D
  end.
  - fold (insert_row row (view c)) in V, D.
    assert (R : reaches rows (view c) (view c1)).
    { rewrite V. eapply reaches_step; [exact Hr | apply step_insert]. }
    fold (same_key row) in E.
    destruct (find (same_key row) (email (view c1))) as [e|] eqn:Ef.
    + injection E as <- <-.
      split; [split; [exact R | right; rewrite D, <- V; exact R]|].
      split; [exact V|]. split; [exists e; now split | eauto].
    + exfalso. revert Ef. rewrite V. unfold insert_row. simpl.
      apply find_app_last. unfold same_key. simpl.
      now rewrite Z.eqb_refl, String.eqb_refl.
  - injection E as <- <-. fold (insert_row row (view c)) in V.
    assert (R : reaches rows (view c) (view c1)).
    { rewrite V. eapply reaches_step; [exact Hr | apply step_insert]. }
    split; [split; [exact R | left; apply D]|].
    split; [exact V|]. split; [apply D|].
    intros Hn. specialize (N Hn). discriminate.
Qed.

Lemma link_address_spec row e addr r c res c' :
  In row rows -> In (addr, r) (row_links row) ->
  find (same_key row) (email (view c)) = Some e ->
  Script.link_address W commit_op (e_pk e) addr r c = (res, c') ->
  traj rows c c'
  /\ find (same_key row) (email (view c')) = Some e
  /\ match res with
     | Ok _ => view c' = add_participant (view c) (e_pk e) addr r
     | Raise x => failed x c'
     end
  /\ (never_fails -> res = Ok tt).
Proof.
  intros Hr Hl Hf. unfold Script.link_address. unfold Script.bind at 1.
  destruct (Script.get_or_create_email_address W commit_op addr c) as [[id|x] c1] eqn:E1;
    destruct (address_spec row addr r _ _ _ Hr Hl E1) as (T1 & V1 & R1 & N1).
  2: { intros E. injection E as <- <-. split; [exact T1|]. split.
       - rewrite V1. unfold address_step.
         now rewrite get_or_create_email_address_email.
       - split; [exact R1|]. intros Hn. destruct (N1 Hn) as [i Hi]. discriminate. }
  assert (Hf1 : find (same_key row) (email (view c1)) = Some e).
  { rewrite V1. unfold address_step. now rewrite get_or_create_email_address_email. }
  assert (Hadd : add_participant (view c) (e_pk e) addr r
                 = match id with
                   | Some i => if i =? 0 then view c1
                               else insert_participant (view c1) (e_pk e, i, r)
                   | None => view c1
                   end).
  { unfold add_participant. rewrite V1. unfold address_step. subst id.
    destruct (get_or_create_email_address (view c) addr) as [s1 [i|]]; reflexivity. }
  assert (Hstep : link_step row addr r (view c1) = add_participant (view c) (e_pk e) addr r).
  { unfold link_step. rewrite Hf1, V1. apply add_participant_after_address. }
  intros E.
  assert (Hview : res = Ok tt /\ view c' = add_participant (view c) (e_pk e) addr r
                  /\ durable c' = durable c1).
  { rewrite Hadd. unfold Script.link in E. destruct id as [i|].
    - destruct (i =? 0); [injection E as <- <-; auto|].
      unfold Script.execute in E. injection E as <- <-. auto.
    - injection E as <- <-. auto. }
  destruct Hview as (-> & V & D).
  split.
  - eapply trajectory_trans; [exact T1|]. split.
    + rewrite V, <- Hstep. eapply reaches_step; [exact Hr|].
      eapply step_link. exact Hl.
    + now left.
  - split; [now rewrite V, add_participant_email|]. split; [exact V | reflexivity].
Qed.

Lemma link_addresses_spec row e r addrs : forall c res c',
  In row rows ->
  (forall a, In a addrs -> In (Some a, r) (row_links row)) ->
  find (same_key row) (email (view c)) = Some e ->
  Script.link_addresses W commit_op (e_pk e) addrs r c = (res, c') ->
  traj rows c c'
  /\ find (same_key row) (email (view c')) = Some e
  /\ match res with
     | Ok _ => view c' = add_participants (view c) (e_pk e) addrs r
     | Raise x => failed x c'
     end
  /\ (never_fails -> res = Ok tt).
Proof.
  induction addrs as [|a addrs IH]; intros c res c' Hr Hl Hf; cbn [Script.link_addresses].
  - intros E. injection E as <- <-. split; [apply trajectory_refl|].
    split; [exact Hf|]. split; reflexivity.
  - unfold Script.bind at 1.
    destruct (Script.link_address W commit_op (e_pk e) (Some a) r c) as [[[]|x] c1] eqn:E1;
      destruct (link_address_spec row e (Some a) r _ _ _ Hr (Hl a (or_introl eq_refl))
                  Hf E1) as (T1 & F1 & V1 & N1).
    + intros E.
      destruct (IH c1 res c' Hr (fun b Hb => Hl b (or_intror Hb)) F1 E)
        as (T2 & F2 & V2 & N2).
      split; [eapply trajectory_trans; eassumption|]. split; [exact F2|].
      split; [|exact N2].
      destruct res; [|exact V2]. rewrite V2, V1. reflexivity.
    + intros E. injection E as <- <-. split; [exact T1|]. split; [exact F1|].
      split; [exact V1|]. intros Hn. specialize (N1 Hn). discriminate.
Qed.

Lemma row_links_to row a :
  In a (Migration.parse_recipients (d_recipients row)) -> In (Some a, RTo) (row_links row).
Proof.
  intros H. unfold row_links. right. apply in_or_app. left.
  apply in_map_iff. now exists a.
Qed.

Lemma row_links_cc row a :
  In a (Migration.parse_recipients (d_cc row)) -> In (Some a, RCc) (row_links row).
Proof.
  intros H. unfold row_links. right. apply in_or_app. right. apply in_or_app. left.
  apply in_map_iff. now exists a.
Qed.

Lemma row_links_bcc row a :
  In a (Migration.parse_recipients (d_bcc row)) -> In (Some a, RBcc) (row_links row).
Proof.
  intros H. unfold row_links. right. apply in_or_app. right. apply in_or_app. right.
  apply in_map_iff. now exists a.
Qed.

Lemma migrate_row_spec total row processed c res c' :
  In row rows ->
  Script.migrate_row W commit_op total row processed c = (res, c') ->
  traj rows c c'
  /\ match res with
     | Ok p => p = processed + 1 /\ Migration.migrate_row (view c) row = Ok (view c')
     | Raise x => failed x c'
     end
  /\ (never_fails -> exists p, res = Ok p).
Proof.
  intros Hr. unfold Script.migrate_row. unfold Script.bind at 1.
  destruct (Script.get_or_create_email W commit_op row c) as [[pk|x] c1] eqn:E1;
    destruct (email_spec row _ _ _ Hr E1) as (T1 & V1 & R1 & N1).
  2: { intros E. injection E as <- <-. split; [exact T1|]. split; [exact R1|].
       intros Hn. destruct (N1 Hn) as [p Hp]. discriminate. }
  destruct R1 as (e & Hf1 & ->).
  unfold Script.bind at 1.
  destruct (Script.link_address W commit_op (e_pk e) (d_sender row) RFrom c1)
    as [[[]|x] c2] eqn:E2;
    destruct (link_address_spec row e _ _ _ _ _ Hr (or_introl eq_refl) Hf1 E2)
      as (T2 & F2 & V2 & N2).
  2: { intros E. injection E as <- <-.
       split; [eapply trajectory_trans; eassumption|]. split; [exact V2|].
       intros Hn. specialize (N2 Hn). discriminate. }
  unfold Script.bind at 1.
  destruct (Script.link_addresses W commit_op (e_pk e)
              (Migration.parse_recipients (d_recipients row)) RTo c2)
    as [[[]|x] c3] eqn:E3;
    destruct (link_addresses_spec row e RTo _ _ _ _ Hr (row_links_to row) F2 E3)
      as (T3 & F3 & V3 & N3).
  2: { intros E. injection E as <- <-.
       split; [eapply trajectory_trans; [eapply trajectory_trans|]; eassumption|].
       split; [exact V3|]. intros Hn. specialize (N3 Hn). discriminate. }
  unfold Script.bind at 1.
  destruct (Script.link_addresses W commit_op (e_pk e)
              (Migration.parse_recipients (d_cc row)) RCc c3)
    as [[[]|x] c4] eqn:E4;
    destruct (link_addresses_spec row e RCc _ _ _ _ Hr (row_links_cc row) F3 E4)
      as (T4 & F4 & V4 & N4).
  2: { intros E. injection E as <- <-.
       split; [eapply trajectory_trans; [eapply trajectory_trans;
                 [eapply trajectory_trans|]|]; eassumption|].
       split; [exact V4|]. intros Hn. specialize (N4 Hn). discriminate. }
  unfold Script.bind at 1.
  destruct (Script.link_addresses W commit_op (e_pk e)
              (Migration.parse_recipients (d_bcc row)) RBcc c4)
    as [[[]|x] c5] eqn:E5;
    destruct (link_addresses_spec row e RBcc _ _ _ _ Hr (row_links_bcc row) F4 E5)
      as (T5 & F5 & V5 & N5).
  2: { intros E. injection E as <- <-.
       split; [eapply trajectory_trans; [eapply trajectory_trans;
                 [eapply trajectory_trans; [eapply trajectory_trans|]|]|]; eassumption|].
       split; [exact V5|]. intros Hn. specialize (N5 Hn). discriminate. }
  assert (T15 : traj rows c c5).
  { eapply trajectory_trans; [eapply trajectory_trans;
      [eapply trajectory_trans; [eapply trajectory_trans|]|]|]; eassumption. }
  assert (Hpure : Migration.migrate_row (view c) row = Ok (view c5)).
  { unfold Migration.migrate_row, Migration.get_or_create_email.
    fold (insert_row row (view c)). fold (same_key row).
    rewrite <- V1, Hf1. now rewrite V5, V4, V3, V2. }
  cbv zeta. unfold Script.bind at 1.
  destruct ((processed + 1) mod Script.BATCH_SIZE =? 0) eqn:Em; cbn [orb].
  2: destruct (processed + 1 =? total) eqn:Et.
  3: { unfold Script.ret. intros E. injection E as <- <-.
       split; [exact T15|]. split; [now split | eauto]. }
  all: match goal with
       | |- context [Script.safe_commit_call W commit_op ?c0] =>
           destruct (Script.safe_commit_call W commit_op c0) as [[[]|x] c6] eqn:E6;
             destruct (safe_commit_call_spec _ _ _ E6) as (V6 & D6 & N6)
       end.
  all: unfold Script.ret; intros E; injection E as <- <-.
  all: match type of V6 with
       | _ = view ?c0 =>
           assert (T56 : traj rows c0 c6)
             by (split; [rewrite V6; apply reaches_refl|];
                 first [ right; rewrite D6; apply reaches_refl | left; apply D6 ])
       end.
  all: split; [eapply trajectory_trans; eassumption|].
  all: try (split; [split; [reflexivity | now rewrite V6] | eauto]).
  all: split; [apply D6|]; intros Hn; specialize (N6 Hn); discriminate.
Qed.

Lemma migrate_rows_spec total todo : forall processed c res c',
  (forall row, In row todo -> In row rows) ->
  Script.migrate_rows W commit_op total todo processed c = (res, c') ->
  traj rows c c'
  /\ match res with
     | Ok _ => Migration.migrate_rows todo (view c) = Ok (view c')
     | Raise x => failed x c'
     end
  /\ (never_fails -> res = Ok tt).
Proof.
  induction todo as [|row todo IH]; intros processed c res c' Hsub;
    cbn [Script.migrate_rows Migration.migrate_rows].
  - intros E. injection E as <- <-. split; [apply trajectory_refl|].
    split; reflexivity.
  - unfold Script.bind at 1.
    destruct (Script.migrate_row W commit_op total row processed c) as [[p|x] c1] eqn:E1;
      destruct (migrate_row_spec total row processed _ _ _ (Hsub row (or_introl eq_refl))
                  E1) as (T1 & R1 & N1).
    + intros E. destruct R1 as [_ R1]. rewrite R1.
      destruct (IH p c1 res c' (fun r Hr => Hsub r (or_intror Hr)) E) as (T2 & R2 & N2).
      split; [eapply trajectory_trans; eassumption|]. split; [exact R2 | exact N2].
    + intros E. injection E as <- <-. split; [exact T1|]. split; [exact R1|].
      intros Hn. destruct (N1 Hn) as [p Hp]. discriminate.
Qed.

End ScriptFacts.

(** The script as a whole: what it sees moves by steps of the raw
    rows and what is permanent is a store it has seen; when it
    returns, it has done what [Migration.main] does and all of it is
    permanent; when it raises, a commit has failed; when no commit
    fails, it returns. *)
Lemma script_main_spec (W : Type) (commit_op : W -> option commit_error * W) c res c' :
  Script.durable c = Script.view c ->
  Script.main W commit_op c = (res, c') ->
  trajectory W (downloaded_emails (Script.view c)) c c'
  /\ (Script.durable c' = Script.view c
      \/ reaches (downloaded_emails (Script.view c)) (Script.view c) (Script.durable c'))
  /\ match res with
     | Ok _ =>
         Migration.main (Script.view c) = Ok (Script.view c')
         /\ Script.durable c' = Script.view c'
     | Raise x => commit_failed W commit_op x c'
     end
  /\ (commits_never_fail W commit_op -> res = Ok tt).
Proof.
  intros Hd. unfold Script.main, Script.create_tables. unfold Script.bind at 1.
  destruct (Script.safe_commit_call W commit_op c) as [[[]|x] c1] eqn:E1;
    destruct (safe_commit_call_spec W commit_op _ _ _ E1) as (V1 & D1 & N1).
  2: { intros E. injection E as <- <-. destruct D1 as [D1 F1].
       split; [split; [rewrite V1; apply reaches_refl | now left]|].
       split; [left; congruence|]. split; [exact F1|].
       intros Hn. specialize (N1 Hn). discriminate. }
  cbv zeta. rewrite V1. unfold Script.bind at 1.
  set (rows := downloaded_emails (Script.view c)).
  assert (T1 : trajectory W rows c c1).
  { split; [rewrite V1; apply reaches_refl | left; congruence]. }
  destruct (Script.migrate_rows W commit_op (List.length rows) rows 0 c1)
    as [[[]|x] c2] eqn:E2;
    destruct (migrate_rows_spec W commit_op rows _ rows _ _ _ _ (fun r H => H) E2)
      as (T2 & R2 & N2).
  2: { intros E. injection E as <- <-.
       pose proof (trajectory_trans W rows _ _ _ T1 T2) as T.
       split; [exact T|]. split.
       - destruct T as [_ [T|T]]; [left; congruence | now right].
       - split; [exact R2|]. intros Hn. specialize (N2 Hn). discriminate. }
  pose proof (trajectory_trans W rows _ _ _ T1 T2) as T12.
  intros E. destruct (safe_commit_call_spec W commit_op _ _ _ E) as (V3 & D3 & N3).
  assert (T23 : trajectory W rows c2 c').
  { split; [rewrite V3; apply reaches_refl|].
    destruct res; [right; rewrite D3; apply reaches_refl | left; apply D3]. }
  pose proof (trajectory_trans W rows _ _ _ T12 T23) as T.
  split; [exact T|]. split.
  - destruct T as [_ [T|T]]; [left; congruence | now right].
  - split.
    + destruct res as [[]|x]; [|apply D3].
      split; [|congruence]. unfold Migration.main. fold rows.
      rewrite V3. rewrite <- R2. now rewrite V1.
    + intros Hn. exact (N3 Hn).
Qed.

Lemma row_step_consistent rows row t x :
  In row rows -> row_step row t ->
  consistent x /\ downloaded_emails x = rows ->
  consistent (t x) /\ downloaded_emails (t x) = rows.
Proof.
  intros Hr Ht [Hc Hd]. destruct Ht as [|addr r Hl|addr r Hl].
  - split; [|exact Hd]. apply consistent_insert_email; [exact Hc|].
    apply is_email_downloaded_keys. rewrite Hd. apply in_map_iff.
    exists row. now split.
  - split; [now apply consistent_get_or_create_email_address|].
    unfold address_step.
    destruct (get_or_create_email_address_frame x addr) as (D & _). now rewrite D.
  - unfold link_step. destruct (find _ (email x)) as [e|] eqn:Ef; [|now split].
    split.
    + apply consistent_add_participant; [exact Hc|].
      apply in_map. eapply find_some. exact Ef.
    + destruct (add_participant_frame x (e_pk e) addr r) as (D & _). now rewrite D.
Qed.

Lemma migrated_links x row addr r :
  migrated x row -> In (addr, r) (row_links row) ->
  exists e, find (same_key row) (email x) = Some e /\ linked x (e_pk e) addr r.
Proof.
  intros (e & Hf & H1 & H2 & H3 & H4) Hl. exists e. split; [exact Hf|].
  unfold row_links in Hl. destruct Hl as [Hl|Hl]; [now injection Hl as <- <-|].
  rewrite Forall_forall in H2, H3, H4.
  apply in_app_or in Hl. destruct Hl as [Hl|Hl].
  { apply in_map_iff in Hl. destruct Hl as (a & Ha & Hin). injection Ha as <- <-. auto. }
  apply in_app_or in Hl. destruct Hl as [Hl|Hl];
    apply in_map_iff in Hl; destruct Hl as (a & Ha & Hin); injection Ha as <- <-; auto.
Qed.

Lemma row_step_rerun rows s1 row t x :
  In row rows -> row_step row t -> rerun_state rows s1 x -> rerun_state rows s1 (t x).
Proof.
  intros Hr Ht H. pose proof H as (Hm & D & V & A & P & added & E).
  destruct Ht as [|addr r Hl|addr r Hl].
  - split.
    { intros r0 H0. eapply migrated_extends; [now apply Hm|].
      apply extends_insert_email. }
    split; [exact D|]. split; [exact V|]. split; [exact A|]. split; [exact P|].
    unfold insert_row, insert_email. cbn [email]. rewrite E, <- app_assoc. eauto.
  - destruct (migrated_links x row addr r (Hm row Hr) Hl) as (e & _ & L).
    now rewrite (linked_address x (e_pk e) addr r L).
  - destruct (migrated_links x row addr r (Hm row Hr) Hl) as (e & Hf & L).
    unfold link_step. fold (same_key row). rewrite Hf. unfold linked in L. now rewrite L.
Qed.

(* ------------------------------------------------------------------ *)
(** ** The backfill script keeps the store consistent *)

(** X11. The backfill script, run on a consistent store with its
    [safe_commit] calls in place and commits that may fail.  However
    the run ends, what the script has written and what is permanent in
    the database are both consistent stores with [downloaded_emails]
    untouched.  When the run returns, everything written is permanent
    and it is what the statements of the script give on the store.
    When the run raises, a commit has failed: ten commits in a row
    found the database locked and [safe_commit] gave up with
    [RuntimeError], or a commit raised another error, passed on at
    once.  When no commit fails, the run returns. *)
Theorem backfill_keeps_the_store_consistent
        (W : Type) (commit_op : W -> option commit_error * W) (s : store) (w : W) :
  consistent s ->
  let run := Script.main W commit_op (Script.connect W s w) in
  consistent (Script.view (snd run))
  /\ consistent (Script.durable (snd run))
  /\ downloaded_emails (Script.view (snd run)) = downloaded_emails s
  /\ downloaded_emails (Script.durable (snd run)) = downloaded_emails s
  /\ match fst run with
     | Ok _ =>
         Migration.main s = Ok (Script.view (snd run))
         /\ Script.durable (snd run) = Script.view (snd run)
     | Raise e => commit_failed W commit_op e (snd run)
     end
  /\ (commits_never_fail W commit_op -> fst run = Ok tt).
Proof.
  intros Hc. cbv zeta.
  destruct (Script.main W commit_op (Script.connect W s w)) as [res c'] eqn:E.
  destruct (script_main_spec W commit_op (Script.connect W s w) _ _ eq_refl E) as ([T _] & D & R & N).
  cbn [Script.view Script.connect fst snd] in *.
  assert (Q : forall x, reaches (downloaded_emails s) s x ->
                        consistent x /\ downloaded_emails x = downloaded_emails s).
  { intros x Hx.
    apply (reaches_keeps (downloaded_emails s)
             (fun y => consistent y /\ downloaded_emails y = downloaded_emails s) s x);
      [|exact Hx | now split].
    intros row t y. apply row_step_consistent. }
  destruct (Q _ T) as [Q1 Q2].
  assert (Q3 : consistent (Script.durable c')
               /\ downloaded_emails (Script.durable c') = downloaded_emails s).
  { destruct D as [->|D]; [now split | now apply Q]. }
  destruct Q3 as [Q3 Q4]. auto 7.
Qed.

Lemma backfill_keeps_the_store_consistent_witness :
  consistent backfill_input
  /\ (let run := Script.main unit commit_goes_through
                   (Script.connect unit backfill_input tt) in
      fst run = Ok tt
      /\ consistent (Script.durable (snd run))
      /\ map snd (email_address (Script.durable (snd run)))
         = ["alice@example.com"; "bob@example.com"])
  /\ (let run := Script.main nat (commit_locked_from 2)
                   (Script.connect nat backfill_input 0) in
      fst run = Raise RuntimeError
      /\ consistent (Script.view (snd run))
      /\ consistent (Script.durable (snd run))
      /\ map snd (email_address (Script.view (snd run))) = ["alice@example.com"]
      /\ email_address (Script.durable (snd run)) = []
      /\ List.length (email (Script.durable (snd run))) = 1).
Proof.
  assert (H : consistent backfill_input).
  { constructor; simpl; try constructor; try tauto; try constructor;
      intros; contradiction. }
  split; [exact H|]. cbv zeta. split.
  - split; [vm_compute; reflexivity|]. split; [|vm_compute; reflexivity].
    exact (proj1 (proj2 (backfill_keeps_the_store_consistent
                           unit commit_goes_through backfill_input tt H))).
  - split; [vm_compute; reflexivity|].
    pose proof (backfill_keeps_the_store_consistent
                  nat (commit_locked_from 2) backfill_input 0 H) as (A & B & _).
    split; [exact A|]. split; [exact B|].
    split; [vm_compute; reflexivity|]. split; vm_compute; reflexivity.
Defined.

(* ------------------------------------------------------------------ *)
(** ** The backfill script run again *)

(** X14. The backfill script run twice, each run with its
    [safe_commit] calls and commits that may fail.  After a first run
    that returned, a second run, however it ends, leaves
    [email_address] and [email_participant] (and the raw rows and the
    validity table) exactly as the first run left them, in what it has
    written and in what is permanent, and only adds rows at the end of
    [email]; when the second run returns, it has added one [email] row
    per raw row and all of them are permanent; it returns when none of
    its commits fails. *)
Theorem backfill_rerun_adds_only_email_rows
        (W : Type) (commit_op : W -> option commit_error * W)
        (W' : Type) (commit_op' : W' -> option commit_error * W')
        (s : store) (w : W) (w' : W') (c1 : Script.session W) :
  Script.main W commit_op (Script.connect W s w) = (Ok tt, c1) ->
  let s1 := Script.durable c1 in
  let run := Script.main W' commit_op' (Script.connect W' s1 w') in
  Migration.main s = Ok s1
  /\ (forall x, x = Script.view (snd run) \/ x = Script.durable (snd run) ->
        downloaded_emails x = downloaded_emails s1
        /\ folder_uidvalidity x = folder_uidvalidity s1
        /\ email_address x = email_address s1
        /\ email_participant x = email_participant s1
        /\ exists added, email x = email s1 ++ added)
  /\ (forall r, fst run = Ok r ->
        Script.durable (snd run) = Script.view (snd run)
        /\ List.length (email (Script.view (snd run)))
           = List.length (email s1) + List.length (downloaded_emails s))
  /\ (commits_never_fail W' commit_op' -> fst run = Ok tt).
Proof.
  intros E1. cbv zeta.
  destruct (script_main_spec W commit_op (Script.connect W s w) _ _ eq_refl E1) as (_ & _ & [R1 D1] & _).
  cbn [Script.view Script.connect] in R1. rewrite D1.
  set (s1 := Script.view c1) in *.
  split; [exact R1|].
  unfold Migration.main in R1.
  destruct (migrate_rows_migrated _ _ _ R1) as [_ Hall].
  destruct (migrate_rows_total (downloaded_emails s) s) as (s' & E' & _ & Hd).
  rewrite R1 in E'. injection E' as <-.
  destruct (Script.main W' commit_op' (Script.connect W' s1 w')) as [res c2] eqn:E2.
  destruct (script_main_spec W' commit_op' (Script.connect W' s1 w') _ _ eq_refl E2) as ([T _] & D & R & N).
  cbn [Script.view Script.connect fst snd] in *.
  assert (Q0 : rerun_state (downloaded_emails s1) s1 s1).
  { split; [now rewrite Hd|]. repeat (split; [reflexivity|]).
    exists []. now rewrite app_nil_r. }
  assert (Q : forall x, reaches (downloaded_emails s1) s1 x ->
                        rerun_state (downloaded_emails s1) s1 x).
  { intros x Hx.
    apply (reaches_keeps (downloaded_emails s1)
             (rerun_state (downloaded_emails s1) s1) s1 x); [|exact Hx | exact Q0].
    intros row t y. apply row_step_rerun. }
  split; [|split; [|exact N]].
  - intros x [->| ->].
    + apply (Q _ T).
    + destruct D as [->|D]; [apply Q0 | apply (Q _ D)].
  - intros r ->. destruct R as [R D2]. split; [exact D2|].
    unfold Migration.main in R.
    destruct (migrate_rows_on_migrated (downloaded_emails s1) s1) as (s2 & E & H).
    { now rewrite Hd. }
    rewrite R in E. injection E as <-. rewrite <- Hd. apply H.
Qed.

Lemma backfill_rerun_adds_only_email_rows_witness :
  let c1 := snd (Script.main unit commit_goes_through
                   (Script.connect unit backfill_input tt)) in
  let s1 := Script.durable c1 in
  let run := Script.main nat (commit_locked_from 1) (Script.connect nat s1 0) in
  Script.main unit commit_goes_through (Script.connect unit backfill_input tt)
  = (Ok tt, c1)
  /\ fst run = Raise RuntimeError
  /\ email_participant (Script.view (snd run)) = email_participant s1
  /\ email_address (Script.durable (snd run)) = email_address s1
  /\ List.length (email s1) = 1
  /\ List.length (email (Script.view (snd run))) = 2.
Proof.
  cbv zeta.
  assert (H : Script.main unit commit_goes_through (Script.connect unit backfill_input tt)
              = (Ok tt, snd (Script.main unit commit_goes_through
                               (Script.connect unit backfill_input tt))))
    by (vm_compute; reflexivity).
  split; [exact H|]. split; [vm_compute; reflexivity|].
  pose proof (backfill_rerun_adds_only_email_rows
                unit commit_goes_through nat (commit_locked_from 1)
                backfill_input tt 0 _ H) as (_ & A & _).
  split; [apply (A _ (or_introl eq_refl))|].
  split; [apply (A _ (or_intror eq_refl))|].
  split; vm_compute; reflexivity.
Defined.
